(** * IndexedDBService: the browser-local key-value store of FUXA

    A shallow embedding of class [IndexedDBService] ([indexeddb.service.ts])
    together with the parts of the JavaScript platform the class calls
    into: [JSON.stringify] / [JSON.parse], an IndexedDB object store keyed
    by [key], [localStorage], [Date.now] and promises.

    Layout: the platform model first (numbers, JavaScript values and
    [Json], promises, the world with its object store and transactions),
    then the methods of the service, the connection taken event by event
    and the language service, which is a client of the store; then the
    vocabulary of the statements; then the properties: of numbers and of
    [Json], of single requests, of batches, of the migration and of the
    connection, followed by further properties of the operations, of the
    reads, of the migration and of the language service. *)

From Stdlib Require Import ZArith NArith Bool Ascii String Decimal DecimalN DecimalFacts Lia.
From stdpp Require Import gmap strings list fin_maps sorting.

Local Open Scope string_scope.

(** ** Numbers *)

(** The decimal digits of [d]. *)
Fixpoint string_of_uint (d : uint) : string :=
  match d with
  | Nil => ""
  | D0 d => String "0" (string_of_uint d)
  | D1 d => String "1" (string_of_uint d)
  | D2 d => String "2" (string_of_uint d)
  | D3 d => String "3" (string_of_uint d)
  | D4 d => String "4" (string_of_uint d)
  | D5 d => String "5" (string_of_uint d)
  | D6 d => String "6" (string_of_uint d)
  | D7 d => String "7" (string_of_uint d)
  | D8 d => String "8" (string_of_uint d)
  | D9 d => String "9" (string_of_uint d)
  end.

(** The finite values of the Number type, which are the finite IEEE 754
    binary64 numbers, with the two conversions the service goes through:
    from a decimal numeral to the nearest Number, and [Number::toString]. *)
Module Number.

#[local] Open Scope Z_scope.

(** [mantissa * 2 ^ exponent], negated when [negative] is set.  The
    mantissa is odd, or else the Number is a zero, with exponent 0; there
    are two zeros. *)
Record t : Type := make { negative : bool; mantissa : Z; exponent : Z }.

Definition eqb (x y : t) : bool :=
  Bool.eqb (negative x) (negative y) && (mantissa x =? mantissa y)
  && (exponent x =? exponent y).

(** binary64: a mantissa of at most 53 bits, no exponent under -1074, a
    value under [2 ^ 1024]. *)
Definition is_binary64 (x : t) : bool :=
  if mantissa x =? 0 then exponent x =? 0
  else (0 <? mantissa x) && Z.odd (mantissa x) && (Z.log2 (mantissa x) <? 53)
       && (-1074 <=? exponent x) && (Z.log2 (mantissa x) + exponent x <? 1024).

Definition is_negative_zero (x : t) : bool := negative x && (mantissa x =? 0).

(** [m * 2 ^ e] with the factors two of [m] moved into the exponent. *)
Fixpoint strip (p : positive) (e : Z) : positive * Z :=
  match p with
  | xO q => strip q (e + 1)
  | _ => (p, e)
  end.

Definition normal (negative : bool) (m e : Z) : t :=
  match m with
  | Zpos p => let (q, e') := strip p e in make negative (Zpos q) e'
  | _ => make negative 0 0
  end.

(** The integer [z] as a Number, when it is one. *)
Definition of_Z (z : Z) : t := normal (z <? 0) (Z.abs z) 0.

(** *** The Number value for a quotient *)

(** [n / (d * 2 ^ e)] as a quotient of integers. *)
Definition scale_num (n e : Z) : Z := n * 2 ^ Z.max 0 (- e).
Definition scale_den (d e : Z) : Z := d * 2 ^ Z.max 0 e.

(** [2 ^ f <= n / d] *)
Definition ratio_ge (n d f : Z) : bool := scale_den d f <=? scale_num n f.

(** The binary logarithm of [n / d], rounded down. *)
Definition log2_ratio (n d : Z) : Z :=
  let g := Z.log2 n - Z.log2 d in
  if ratio_ge n d g then g else g - 1.

(** The integer nearest to [a / b]; of two, the even one. *)
Definition nearest_even (a b : Z) : Z :=
  let q := a / b in
  match 2 * (a mod b) ?= b with
  | Lt => q
  | Gt => q + 1
  | Eq => if Z.even q then q else q + 1
  end.

(** Round to nearest, ties to even, of [n / d] for [0 <= n] and [0 < d]:
    the exponent is the one of the binary64 numbers around the quotient,
    which is 52 under its binary logarithm and at least -1074.  [None] is
    the overflow, to an infinity. *)
Definition of_ratio (negative : bool) (n d : Z) : option t :=
  if n <=? 0 then Some (make negative 0 0)
  else
    let e := Z.max (-1074) (log2_ratio n d - 52) in
    let m := nearest_even (scale_num n e) (scale_den d e) in
    if 1024 <=? Z.log2 m + e then None else Some (normal negative m e).

(** The Number value for [s * 10 ^ e]. *)
Definition of_decimal (negative : bool) (s e : Z) : option t :=
  if 0 <=? e then of_ratio negative (s * 10 ^ e) 1
  else of_ratio negative s (10 ^ (- e)).

(** *** Number::toString *)

Definition digits (n : Z) : string := string_of_uint (N.to_uint (Z.to_N n)).

Fixpoint zeros (n : nat) : string :=
  match n with
  | O => ""
  | S n' => String "0" (zeros n')
  end.

(** The text for the digits [s] and the position [n] of the decimal
    point, [k] being the number of digits: the value is
    [s * 10 ^ (n - k)]. *)
Definition render (s n : Z) : string :=
  let ds := digits s in
  let k := Z.of_nat (String.length ds) in
  if (k <=? n) && (n <=? 21) then ds ++ zeros (Z.to_nat (n - k))
  else if (0 <? n) && (n <=? 21) then
    substring 0 (Z.to_nat n) ds ++ "." ++ substring (Z.to_nat n) (Z.to_nat (k - n)) ds
  else if (-6 <? n) && (n <=? 0) then "0." ++ zeros (Z.to_nat (- n)) ++ ds
  else
    let e := n - 1 in
    let exp := String (if e <? 0 then "-"%char else "+"%char) (digits (Z.abs e)) in
    match ds with
    | String c EmptyString => String c (String "e" exp)
    | String c r => String c (String "." (r ++ String "e" exp))
    | EmptyString => EmptyString
    end.

(** The value of a Number that is not zero, as a quotient. *)
Definition ratio (x : t) : Z * Z :=
  if 0 <=? exponent x then (mantissa x * 2 ^ exponent x, 1)
  else (mantissa x, 2 ^ (- exponent x)).

Fixpoint leading_zeros (fuel : nat) (a b j : Z) : Z :=
  match fuel with
  | O => j
  | S fuel' => if b <=? a * 10 then j else leading_zeros fuel' (a * 10) b (j + 1)
  end.

(** The [n] with [10 ^ (n - 1) <= a / b < 10 ^ n]. *)
Definition magnitude (a b : Z) : Z :=
  if b <=? a then Z.of_nat (String.length (digits (a / b)))
  else - leading_zeros 400 a b 0.

(** The two numerals of [k] digits around [a / b], the nearer one first;
    of two as near, the even one first. *)
Definition candidates (a b n k : Z) : list (Z * Z) :=
  let num := if n <=? k then a * 10 ^ (k - n) else a in
  let den := if n <=? k then b else b * 10 ^ (n - k) in
  let lo := (num / den, n) in
  let hi := if num / den + 1 =? 10 ^ k then (10 ^ (k - 1), n + 1) else (num / den + 1, n) in
  match 2 * (num mod den) ?= den with
  | Lt => [lo; hi]
  | Gt => [hi; lo]
  | Eq => if Z.even (num / den) then [lo; hi] else [hi; lo]
  end.

(** The Number value for the numeral [s * 10 ^ (n - k)] is [x], the sign
    apart; [k] is the number of digits of [s]. *)
Definition reads_as (x : t) (c : Z * Z) : bool :=
  match of_decimal false (fst c) (snd c - Z.of_nat (String.length (digits (fst c)))) with
  | Some y => eqb y (make false (mantissa x) (exponent x))
  | None => false
  end.

(** As few digits as possible, from [k] digits on. *)
Fixpoint shortest (fuel : nat) (x : t) (a b n k : Z) : option (Z * Z) :=
  match fuel with
  | O => None
  | S fuel' =>
      match List.filter (reads_as x) (candidates a b n k) with
      | c :: _ => Some c
      | [] => shortest fuel' x a b n (k + 1)
      end
  end.

(** All the digits of the value. *)
Definition exact (x : t) : Z * Z :=
  if 0 <=? exponent x then
    let s := mantissa x * 2 ^ exponent x in
    (s, Z.of_nat (String.length (digits s)))
  else
    let s := mantissa x * 5 ^ (- exponent x) in
    (s, Z.of_nat (String.length (digits s)) + exponent x).

(** The digits and the position of the decimal point that
    [Number::toString] writes.  Seventeen digits are enough for a binary64
    number; [exact] keeps the function total without the proof of it. *)
Definition decimal (x : t) : Z * Z :=
  let (a, b) := ratio x in
  match shortest 17 x a b (magnitude a b) 1 with
  | Some c => c
  | None => exact x
  end.

Definition toString (x : t) : string :=
  if mantissa x =? 0 then "0"
  else
    let (s, n) := decimal x in
    if negative x then String "-" (render s n) else render s n.

End Number.

Coercion Number.of_Z : Z >-> Number.t.

(** ** JavaScript values *)

(** The part of the JavaScript value universe that reaches the service
    through its [value: any] parameters.  Strings are sequences of code
    units below 256.  [JNumber x] is the finite number [x], and the three
    non-finite ones are separate constructors.  An object is the list of
    its own enumerable properties in enumeration order. *)
#[local] Unset Elimination Schemes.
Inductive JsValue : Type :=
| JUndefined
| JNull
| JBool (b : bool)
| JNumber (x : Number.t)
| JNaN
| JInfinity (negative : bool)
| JString (s : string)
| JArray (items : list JsValue)
| JObject (props : list (string * JsValue)).
#[local] Set Elimination Schemes.

Arguments JNumber x%_Z.

(** [typeof value === 'string'] *)
Definition typeof_string (v : JsValue) : bool :=
  match v with JString _ => true | _ => false end.

(** The values that JSON represents exactly: no [undefined], no non-finite
    number, no negative zero, objects with distinct property names; arrays
    and objects of such values. *)
Fixpoint keys_distinct (o : list (string * JsValue)) : bool :=
  match o with
  | [] => true
  | (k, _) :: r =>
      negb (existsb (fun kv => String.eqb k (fst kv)) r) && keys_distinct r
  end.

Fixpoint json_serializable (v : JsValue) : bool :=
  match v with
  | JUndefined | JNaN | JInfinity _ => false
  | JNull | JBool _ | JString _ => true
  | JNumber x => Number.is_binary64 x && negb (Number.is_negative_zero x)
  | JArray items =>
      (fix all (l : list JsValue) : bool :=
         match l with
         | [] => true
         | x :: r => json_serializable x && all r
         end) items
  | JObject props =>
      keys_distinct props &&
      (fix all (l : list (string * JsValue)) : bool :=
         match l with
         | [] => true
         | (_, x) :: r => json_serializable x && all r
         end) props
  end.

Module Json.

(** *** Characters *)

Definition DQUOTE : ascii := Eval cbv in ascii_of_nat 34.
Definition BACKSLASH : ascii := Eval cbv in ascii_of_nat 92.
Definition BS : ascii := Eval cbv in ascii_of_nat 8.
Definition TAB : ascii := Eval cbv in ascii_of_nat 9.
Definition LF : ascii := Eval cbv in ascii_of_nat 10.
Definition FF : ascii := Eval cbv in ascii_of_nat 12.
Definition CR : ascii := Eval cbv in ascii_of_nat 13.

Definition is_control (c : ascii) : bool := (N_of_ascii c <? 32)%N.

Definition hex_digit (n : N) : ascii :=
  match n with
  | 0 => "0" | 1 => "1" | 2 => "2" | 3 => "3" | 4 => "4" | 5 => "5"
  | 6 => "6" | 7 => "7" | 8 => "8" | 9 => "9" | 10 => "a" | 11 => "b"
  | 12 => "c" | 13 => "d" | 14 => "e" | _ => "f"
  end%N%char.

Definition hex_value (c : ascii) : option N :=
  let n := N_of_ascii c in
  if (48 <=? n)%N && (n <=? 57)%N then Some (n - 48)%N
  else if (97 <=? n)%N && (n <=? 102)%N then Some (n - 87)%N
  else if (65 <=? n)%N && (n <=? 70)%N then Some (n - 55)%N
  else None.

(** *** JSON.stringify *)

(** QuoteJSONString, one code unit. *)
Definition quote_char (c : ascii) : string :=
  if Ascii.eqb c DQUOTE then String BACKSLASH (String DQUOTE "")
  else if Ascii.eqb c BACKSLASH then String BACKSLASH (String BACKSLASH "")
  else if Ascii.eqb c BS then String BACKSLASH "b"
  else if Ascii.eqb c TAB then String BACKSLASH "t"
  else if Ascii.eqb c LF then String BACKSLASH "n"
  else if Ascii.eqb c FF then String BACKSLASH "f"
  else if Ascii.eqb c CR then String BACKSLASH "r"
  else if is_control c then
    String BACKSLASH
      (String "u" (String "0" (String "0"
         (String (hex_digit (N_of_ascii c / 16)%N)
            (String (hex_digit (N_of_ascii c mod 16)%N) "")))))
  else String c "".

Fixpoint quote_body (s : string) : string :=
  match s with
  | EmptyString => ""
  | String c r => quote_char c ++ quote_body r
  end.

Definition quote (s : string) : string :=
  String DQUOTE (quote_body s ++ String DQUOTE "").

Fixpoint join (sep : string) (l : list string) : string :=
  match l with
  | [] => ""
  | [x] => x
  | x :: r => x ++ sep ++ join sep r
  end.

(** SerializeJSONProperty: [None] is the [undefined] result.  In an array
    an element without a serialization is written [null]; in an object a
    property without one is left out. *)
Fixpoint stringify (v : JsValue) : option string :=
  match v with
  | JUndefined => None
  | JNull => Some "null"
  | JBool true => Some "true"
  | JBool false => Some "false"
  | JNumber x => Some (Number.toString x)
  | JNaN => Some "null"
  | JInfinity _ => Some "null"
  | JString s => Some (quote s)
  | JArray items =>
      Some ("[" ++ join ","
              ((fix elements (l : list JsValue) : list string :=
                  match l with
                  | [] => []
                  | x :: r => default "null" (stringify x) :: elements r
                  end) items) ++ "]")
  | JObject props =>
      Some ("{" ++ join ","
              ((fix members (l : list (string * JsValue)) : list string :=
                  match l with
                  | [] => []
                  | (k, x) :: r =>
                      match stringify x with
                      | Some t => (quote k ++ ":" ++ t) :: members r
                      | None => members r
                      end
                  end) props) ++ "}")
  end.

(** *** JSON.parse *)

Definition is_ws (c : ascii) : bool :=
  Ascii.eqb c " " || Ascii.eqb c TAB || Ascii.eqb c LF || Ascii.eqb c CR.

Fixpoint skip_ws (s : string) : string :=
  match s with
  | String c r => if is_ws c then skip_ws r else s
  | EmptyString => s
  end.

(** [expect lit s] strips the literal [lit] from the front of [s]. *)
Fixpoint expect (lit s : string) : option string :=
  match lit, s with
  | EmptyString, _ => Some s
  | String a lit', String b s' => if Ascii.eqb a b then expect lit' s' else None
  | String _ _, EmptyString => None
  end.

Definition unescape (e : ascii) : option ascii :=
  if Ascii.eqb e DQUOTE then Some DQUOTE
  else if Ascii.eqb e BACKSLASH then Some BACKSLASH
  else if Ascii.eqb e "/" then Some "/"%char
  else if Ascii.eqb e "b" then Some BS
  else if Ascii.eqb e "f" then Some FF
  else if Ascii.eqb e "n" then Some LF
  else if Ascii.eqb e "r" then Some CR
  else if Ascii.eqb e "t" then Some TAB
  else None.

Definition hex4 (h1 h2 h3 h4 : ascii) : option N :=
  match hex_value h1, hex_value h2, hex_value h3, hex_value h4 with
  | Some a, Some b, Some c, Some d => Some (((a * 16 + b) * 16 + c) * 16 + d)%N
  | _, _, _, _ => None
  end.

(** The characters of a string literal after its opening quote, up to and
    including the closing quote.  An escape for a code unit of 256 or more
    cannot be represented and is refused. *)
Fixpoint parse_string_body (s : string) : option (string * string) :=
  match s with
  | EmptyString => None
  | String c r =>
      if Ascii.eqb c DQUOTE then Some ("", r)
      else if Ascii.eqb c BACKSLASH then
        match r with
        | EmptyString => None
        | String e r1 =>
            if Ascii.eqb e "u" then
              match r1 with
              | String h1 (String h2 (String h3 (String h4 r2))) =>
                  match hex4 h1 h2 h3 h4 with
                  | Some n =>
                      if (n <? 256)%N then
                        match parse_string_body r2 with
                        | Some (t, r') => Some (String (ascii_of_N n) t, r')
                        | None => None
                        end
                      else None
                  | None => None
                  end
              | _ => None
              end
            else
              match unescape e with
              | Some c' =>
                  match parse_string_body r1 with
                  | Some (t, r') => Some (String c' t, r')
                  | None => None
                  end
              | None => None
              end
        end
      else if is_control c then None
      else
        match parse_string_body r with
        | Some (t, r') => Some (String c t, r')
        | None => None
        end
  end.

Definition is_digit (c : ascii) : bool :=
  (48 <=? N_of_ascii c)%N && (N_of_ascii c <=? 57)%N.

(** The longest run of decimal digits at the front of [s], and the rest. *)
Fixpoint read_digits (s : string) : string * string :=
  match s with
  | EmptyString => ("", s)
  | String c r =>
      if is_digit c then let '(d, r') := read_digits r in (String c d, r')
      else ("", s)
  end.

(** The integer that a run of digits writes. *)
Fixpoint decimal_from (acc : Z) (ds : string) : Z :=
  match ds with
  | EmptyString => acc
  | String c r => decimal_from (acc * 10 + Z.of_N (N_of_ascii c - 48)) r
  end.

Definition decimal_value (ds : string) : Z := decimal_from 0 ds.

(** The integer part is a single zero or starts with another digit. *)
Definition leading_zero (ds : string) : bool :=
  match ds with
  | String c (String _ _) => Ascii.eqb c "0"
  | _ => false
  end.

(** A fraction is a point and at least one digit. *)
Definition read_fraction (s : string) : option (string * string) :=
  match s with
  | String c r =>
      if Ascii.eqb c "." then
        match read_digits r with
        | (EmptyString, _) => None
        | (d, r') => Some (d, r')
        end
      else Some ("", s)
  | EmptyString => Some ("", s)
  end.

(** An exponent is [e] or [E], a sign or none, and at least one digit. *)
Definition read_exponent (s : string) : option (Z * string) :=
  match s with
  | String c r =>
      if Ascii.eqb c "e" || Ascii.eqb c "E" then
        let '(minus, r1) :=
          match r with
          | String c1 r1 =>
              if Ascii.eqb c1 "-" then (true, r1)
              else if Ascii.eqb c1 "+" then (false, r1)
              else (false, r)
          | EmptyString => (false, r)
          end in
        match read_digits r1 with
        | (EmptyString, _) => None
        | (d, r') => Some (if minus then (- decimal_value d)%Z else decimal_value d, r')
        end
      else Some (0%Z, s)
  | EmptyString => Some (0%Z, s)
  end.

(** The value of a numeral: the nearest Number, an infinity when the
    numeral is out of range. *)
Definition number_value (negative : bool) (s e : Z) : JsValue :=
  match Number.of_decimal negative s e with
  | Some x => JNumber x
  | None => JInfinity negative
  end.

(** The digits of a number, after its sign. *)
Definition parse_unsigned (negative : bool) (s : string) : option (JsValue * string) :=
  match read_digits s with
  | (EmptyString, _) => None
  | (int, s1) =>
      if leading_zero int then None
      else
        match read_fraction s1 with
        | None => None
        | Some (frac, s2) =>
            match read_exponent s2 with
            | None => None
            | Some (e, s3) =>
                Some (number_value negative (decimal_value (int ++ frac))
                        (e - Z.of_nat (String.length frac)), s3)
            end
        end
  end.

Definition parse_number (s : string) : option (JsValue * string) :=
  match s with
  | String c r => if Ascii.eqb c "-" then parse_unsigned true r else parse_unsigned false s
  | EmptyString => None
  end.

(** CreateDataProperty on the object under construction: a repeated name
    overwrites the value and keeps the first position. *)
Fixpoint set_prop (k : string) (v : JsValue) (o : list (string * JsValue))
  : list (string * JsValue) :=
  match o with
  | [] => [(k, v)]
  | (k', v') :: r => if String.eqb k k' then (k, v) :: r else (k', v') :: set_prop k v r
  end.

Definition object_of_members (l : list (string * JsValue)) : list (string * JsValue) :=
  fold_left (fun o kv => set_prop (fst kv) (snd kv) o) l [].

(** One value.  [elements] and [members] read what follows the opening
    bracket of an array and the opening brace of an object. *)
Definition value_step
    (elements : string -> option (list JsValue * string))
    (members : string -> option (list (string * JsValue) * string))
    (s : string) : option (JsValue * string) :=
  match skip_ws s with
  | EmptyString => None
  | String c r =>
      if Ascii.eqb c "n" then
        match expect "ull" r with Some r' => Some (JNull, r') | None => None end
      else if Ascii.eqb c "t" then
        match expect "rue" r with Some r' => Some (JBool true, r') | None => None end
      else if Ascii.eqb c "f" then
        match expect "alse" r with Some r' => Some (JBool false, r') | None => None end
      else if Ascii.eqb c DQUOTE then
        match parse_string_body r with
        | Some (t, r') => Some (JString t, r')
        | None => None
        end
      else if Ascii.eqb c "[" then
        match expect "]" (skip_ws r) with
        | Some r' => Some (JArray [], r')
        | None =>
            match elements r with
            | Some (l, r') => Some (JArray l, r')
            | None => None
            end
        end
      else if Ascii.eqb c "{" then
        match expect "}" (skip_ws r) with
        | Some r' => Some (JObject [], r')
        | None =>
            match members r with
            | Some (l, r') => Some (JObject (object_of_members l), r')
            | None => None
            end
        end
      else parse_number (String c r)
  end.

(** The elements of an array up to and including its closing bracket. *)
Definition elements_step
    (value : string -> option (JsValue * string))
    (elements : string -> option (list JsValue * string))
    (s : string) : option (list JsValue * string) :=
  match value s with
  | None => None
  | Some (v, r) =>
      match skip_ws r with
      | EmptyString => None
      | String c r' =>
          if Ascii.eqb c "," then
            match elements r' with
            | Some (l, r'') => Some (v :: l, r'')
            | None => None
            end
          else if Ascii.eqb c "]" then Some ([v], r')
          else None
      end
  end.

(** The members of an object up to and including its closing brace. *)
Definition members_step
    (value : string -> option (JsValue * string))
    (members : string -> option (list (string * JsValue) * string))
    (s : string) : option (list (string * JsValue) * string) :=
  match expect (String DQUOTE "") (skip_ws s) with
  | None => None
  | Some s1 =>
      match parse_string_body s1 with
      | None => None
      | Some (k, s2) =>
          match expect ":" (skip_ws s2) with
          | None => None
          | Some s3 =>
              match value s3 with
              | None => None
              | Some (v, r) =>
                  match skip_ws r with
                  | EmptyString => None
                  | String c r' =>
                      if Ascii.eqb c "," then
                        match members r' with
                        | Some (l, r'') => Some ((k, v) :: l, r'')
                        | None => None
                        end
                      else if Ascii.eqb c "}" then Some ([(k, v)], r')
                      else None
                  end
              end
          end
      end
  end.

(** Recursive descent over the text; [fuel] bounds the number of nested
    calls and [parse] starts it with more than the text is long. *)
Fixpoint parse_value (fuel : nat) (s : string) : option (JsValue * string) :=
  match fuel with
  | O => None
  | S fuel' => value_step (parse_elements fuel') (parse_members fuel') s
  end
with parse_elements (fuel : nat) (s : string) : option (list JsValue * string) :=
  match fuel with
  | O => None
  | S fuel' => elements_step (parse_value fuel') (parse_elements fuel') s
  end
with parse_members (fuel : nat) (s : string)
  : option (list (string * JsValue) * string) :=
  match fuel with
  | O => None
  | S fuel' => members_step (parse_value fuel') (parse_members fuel') s
  end.

(** [JSON.parse text]: [None] is the thrown [SyntaxError]. *)
Definition parse (text : string) : option JsValue :=
  match parse_value (S (String.length text)) text with
  | Some (v, r) =>
      match skip_ws r with
      | EmptyString => Some v
      | String _ _ => None
      end
  | None => None
  end.

End Json.

(** ** Errors, completions and promises *)

(** The exceptions of the model: a [DOMException] (by name) comes from
    IndexedDB or from [localStorage]; [SyntaxError] is what [JSON.parse]
    throws. *)
Inductive JsError : Type :=
| DOMException (name : string)
| SyntaxError.

(** The outcome of synchronous code: a value or a thrown exception. *)
Inductive Completion (A : Type) : Type :=
| Normal (a : A)
| Throw (e : JsError).
Arguments Normal {A} a.
Arguments Throw {A} e.

(** [JSON.parse(text)] *)
Definition JSON_parse (text : string) : Completion JsValue :=
  match Json.parse text with
  | Some v => Normal v
  | None => Throw SyntaxError
  end.

(** [JSON.stringify(value)]; [None] is [undefined]. *)
Definition JSON_stringify (value : JsValue) : option string := Json.stringify value.

(** A promise is settled at most once: [resolve] and [reject] on a settled
    promise do nothing. *)
Inductive Promise (A : Type) : Type :=
| Pending
| Fulfilled (a : A)
| Rejected (e : JsError).
Arguments Pending {A}.
Arguments Fulfilled {A} a.
Arguments Rejected {A} e.

Definition resolve {A : Type} (a : A) (p : Promise A) : Promise A :=
  match p with Pending => Fulfilled a | _ => p end.

Definition reject {A : Type} (e : JsError) (p : Promise A) : Promise A :=
  match p with Pending => Rejected e | _ => p end.

(** ** The stored record *)

(** [{ key, value, timestamp }].  [value] is the string the service
    computed, or [None] when [JSON.stringify] gave [undefined]. *)
Module Item.
Record t : Type := make { key : string; value : option string; timestamp : Z }.
End Item.

(** ** The world: IndexedDB, localStorage, the clock *)

Inductive TxMode : Type := readonly | readwrite.

Inductive Request : Type :=
| Put (item : Item.t)        (* store.put(item) *)
| Get (key : string)         (* store.get(key) *)
| Delete (key : string)      (* store.delete(key) *)
| Clear                      (* store.clear() *)
| GetAllKeys                 (* store.getAllKeys() *)
| Count                      (* store.count() *)
| CountOnly (key : string)   (* store.count(IDBKeyRange.only(key)) *)
| GetAll.                    (* store.getAll() *)

(** What the service does to its surroundings, in the order it happens.
    Requests are numbered in the order they are placed. *)
Inductive Effect : Type :=
| EOpen (id : nat)                    (* indexedDB.open(dbName, dbVersion) *)
| ECreateObjectStore                  (* db.createObjectStore(storeName, ...) *)
| ETransaction (mode : TxMode)        (* db.transaction([storeName], mode) *)
| ERequest (id : nat) (req : Request) (* a request placed on the store *)
| ESuccess (id : nat)                 (* the success event of request id *)
| EError (id : nat) (name : string)   (* the error event of request id *)
| ELsRemoveItem (key : string)        (* localStorage.removeItem(key) *)
| ELsClear.                           (* localStorage.clear() *)

Record World : Type := mkWorld {
  db : bool;                          (* the service's field [db] is set *)
  idb_version : nat;                  (* version of database FUXA_DB, 0 when absent *)
  idb_objectStore : option (gmap string Item.t);
                                      (* the records of the object store by
                                         key path [key]; None: no store *)
  localStorage : gmap string string;
  next_request : nat;                 (* requests placed so far *)
  next_tick : nat;                    (* calls of Date.now() so far *)
  trace : list Effect
}.

(** What the service does not control: the clock, the requests that the
    engine fails (and with which error), and whether touching
    [localStorage] throws (as it does when storage access is denied). *)
Record Env : Type := mkEnv {
  clock : nat -> Z;
  idb_fault : nat -> option string;
  localStorage_fault : option string
}.

Definition log (e : Effect) (w : World) : World :=
  mkWorld (db w) (idb_version w) (idb_objectStore w)
          (localStorage w) (next_request w) (next_tick w) (trace w ++ [e]).

Definition with_db (b : bool) (w : World) : World :=
  mkWorld b (idb_version w) (idb_objectStore w)
          (localStorage w) (next_request w) (next_tick w) (trace w).

Definition with_version (n : nat) (w : World) : World :=
  mkWorld (db w) n (idb_objectStore w)
          (localStorage w) (next_request w) (next_tick w) (trace w).

Definition with_objectStore (o : option (gmap string Item.t)) (w : World) : World :=
  mkWorld (db w) (idb_version w) o
          (localStorage w) (next_request w) (next_tick w) (trace w).

Definition with_localStorage (ls : gmap string string) (w : World) : World :=
  mkWorld (db w) (idb_version w) (idb_objectStore w)
          ls (next_request w) (next_tick w) (trace w).

Definition bump_request (w : World) : World :=
  mkWorld (db w) (idb_version w) (idb_objectStore w)
          (localStorage w) (S (next_request w)) (next_tick w) (trace w).

Definition bump_tick (w : World) : World :=
  mkWorld (db w) (idb_version w) (idb_objectStore w)
          (localStorage w) (next_request w) (S (next_tick w)) (trace w).

(** *** The object store *)

(** The effect of a request on the records.  The key path is [key]: [put]
    overwrites the record of the same key. *)
Definition apply_request (req : Request) (m : gmap string Item.t) : gmap string Item.t :=
  match req with
  | Put item => <[Item.key item := item]> m
  | Delete k => delete k m
  | Clear => ∅
  | Get _ | GetAllKeys | Count | CountOnly _ | GetAll => m
  end.

(** Placing a request numbers it and records it; nothing runs yet. *)
Definition place (req : Request) (w : World) : nat * World :=
  (next_request w, bump_request (log (ERequest (next_request w) req) w)).

(** The engine runs a placed request and fires its event: the error event
    with the engine's error, the records being as they were before the
    request (what a failed request did is reverted), or the success event
    after the request took effect.  What follows an error event, the abort
    of the transaction, is [fire_in]. *)
Definition fire (env : Env) (id : nat) (req : Request) (w : World) : option string * World :=
  match idb_fault env id with
  | Some name => (Some name, log (EError id name) w)
  | None =>
      (None, log (ESuccess id)
               (with_objectStore (apply_request req <$> idb_objectStore w) w))
  end.

(** A transaction, as the engine keeps it: the records as they were when
    it began, and whether it was aborted. *)
Record Transaction : Type := mkTransaction {
  before : option (gmap string Item.t);
  aborted : bool
}.

(** [db.transaction(...)] begins with the records as they are. *)
Definition begin (w : World) : Transaction := mkTransaction (idb_objectStore w) false.

(** A request of a transaction.  An error event whose default action no
    handler prevents aborts the transaction, and the handlers of the
    service never call [preventDefault]: the records return to what they
    were when the transaction began, and every request that is still
    waiting fails with an [AbortError].  With a single request in the
    transaction the abort undoes nothing, and [fire] is all there is. *)
Definition fire_in (env : Env) (tx : Transaction) (id : nat) (req : Request) (w : World)
  : option string * (Transaction * World) :=
  if aborted tx then
    (Some "AbortError", (tx, log (EError id "AbortError") w))
  else
    match fire env id req w with
    | (None, w) => (None, (tx, w))
    | (Some name, w) =>
        (Some name, (mkTransaction (before tx) true, with_objectStore (before tx) w))
    end.

(** The records of the store (none when there is no store). *)
Definition records (w : World) : gmap string Item.t := default ∅ (idb_objectStore w).

(** [request.result] of the reading requests. *)
Definition result_get (k : string) (w : World) : option Item.t := records w !! k.

(** The keys of an object store come in ascending order, which for
    strings is the order of their code units. *)
Definition key_le (a b : string) : Prop := String.leb a b = true.

#[global] Instance key_le_dec : RelDecision key_le :=
  fun a b => decide (String.leb a b = true).

Definition keys_in_order (m : gmap string Item.t) : list string :=
  merge_sort key_le (map_to_list m).*1.

Definition result_getAllKeys (w : World) : list string := keys_in_order (records w).

(** The records themselves, in the order of their keys. *)
Definition result_getAll (w : World) : list Item.t :=
  omap (fun key => records w !! key) (keys_in_order (records w)).

Definition result_count (w : World) : nat := size (records w).

Definition result_count_only (k : string) (w : World) : nat :=
  match records w !! k with Some _ => 1 | None => 0 end.

(** *** localStorage *)

(** Evaluating the global [localStorage] throws when access is denied. *)
Definition localStorage_access (env : Env) : Completion unit :=
  match localStorage_fault env with
  | Some name => Throw (DOMException name)
  | None => Normal tt
  end.

(** [localStorage.key(i)]: the keys by position. *)
Definition localStorage_key (i : nat) (w : World) : option string :=
  (map_to_list (localStorage w)).*1 !! i.

Definition localStorage_getItem (k : string) (w : World) : option string :=
  localStorage w !! k.

Definition localStorage_length (w : World) : nat := size (localStorage w).

Definition localStorage_removeItem (k : string) (w : World) : World :=
  log (ELsRemoveItem k) (with_localStorage (delete k (localStorage w)) w).

Definition localStorage_clear (w : World) : World :=
  log ELsClear (with_localStorage ∅ w).

(** [Date.now()] *)
Definition Date_now (env : Env) (w : World) : Z * World :=
  (clock env (next_tick w), bump_tick w).

(** ** The service *)

Local Open Scope nat_scope.
Local Open Scope list_scope.

(** A promise executor (or a [then] callback) that throws rejects its
    promise: [x <~ m ;; k] runs [m], and continues with [k] unless [m]
    threw. *)
Definition and_then {A B : Type} (m : World -> Completion A * World)
    (k : A -> World -> Promise B * World) (w : World) : Promise B * World :=
  match m w with
  | (Normal a, w') => k a w'
  | (Throw e, w') => (Rejected e, w')
  end.

Notation "x <~ m ;; k" := (and_then m (fun x => k))
  (at level 100, m at next level, k at level 200, only parsing).

(** [typeof value === 'string' ? value : JSON.stringify(value)] *)
Definition serialize (value : JsValue) : option string :=
  match value with
  | JString s => Some s
  | _ => JSON_stringify value
  end.

(** The argument of [JSON.parse] is converted to a string first. *)
Definition ToString (v : option string) : string :=
  match v with Some s => s | None => "undefined" end.

(** A stored [value] as a JavaScript value. *)
Definition stored (v : option string) : JsValue :=
  match v with Some s => JString s | None => JUndefined end.

(** The counters shared by the handlers of a batch. *)
Record Batch (A : Type) : Type := mkBatch {
  completed : nat;
  hasError : bool;
  outcome : Promise A
}.
Arguments mkBatch {A} _ _ _.
Arguments completed {A} _.
Arguments hasError {A} _.
Arguments outcome {A} _.

Section IndexedDBService.

Variable env : Env.

Definition dbName : string := "FUXA_DB".
Definition dbVersion : nat := 1.
Definition storeName : string := "keyValueStore".

(** *** initDB / ensureDB *)

(** [indexedDB.open(this.dbName, this.dbVersion)] places the open request. *)
Definition indexedDB_open (w : World) : nat * World :=
  (next_request w, bump_request (log (EOpen (next_request w)) w)).

(** [request.onupgradeneeded] *)
Definition onupgradeneeded (w : World) : World :=
  match idb_objectStore w with
  | Some _ => w
  | None => log ECreateObjectStore (with_objectStore (Some ∅) w)
  end.

(** The engine completes an open request.  A database older than
    [dbVersion] is upgraded first; a newer one refuses the open.
    [request.onsuccess] sets [this.db]. *)
Definition open_fire (id : nat) (w : World) : option string * World :=
  match idb_fault env id with
  | Some name => (Some name, log (EError id name) w)
  | None =>
      if idb_version w <? dbVersion then
        (None, with_db true (log (ESuccess id) (with_version dbVersion (onupgradeneeded w))))
      else if dbVersion <? idb_version w then
        (Some "VersionError", log (EError id "VersionError") w)
      else (None, with_db true (log (ESuccess id) w))
  end.

Definition initDB (w : World) : Completion unit * World :=
  let (request, w) := indexedDB_open w in
  match open_fire request w with
  | (None, w) => (Normal tt, w)
  | (Some error, w) => (Throw (DOMException error), w)
  end.

Definition ensureDB (w : World) : Completion unit * World :=
  if db w then (Normal tt, w) else initDB w.

(** [db.transaction([this.storeName], mode)] throws when the store is
    missing. *)
Definition transaction (mode : TxMode) (w : World) : Completion unit * World :=
  match idb_objectStore w with
  | Some _ => (Normal tt, log (ETransaction mode) w)
  | None => (Throw (DOMException "NotFoundError"), w)
  end.

(** *** setItem / getItem / removeItem / clear *)

Definition setItem (key : string) (value : JsValue) : World -> Promise bool * World :=
  _ <~ ensureDB ;;
  _ <~ transaction readwrite ;;
  fun w =>
    let (now, w) := Date_now env w in
    let item := Item.make key (serialize value) now in
    let (request, w) := place (Put item) w in
    match fire env request (Put item) w with
    | (None, w) => (resolve true Pending, w)
    | (Some error, w) => (reject (DOMException error) Pending, w)
    end.

Definition getItem (key : string) : World -> Promise JsValue * World :=
  _ <~ ensureDB ;;
  _ <~ transaction readonly ;;
  fun w =>
    let (request, w) := place (Get key) w in
    match fire env request (Get key) w with
    | (None, w) =>
        match result_get key w with
        | Some result =>
            match JSON_parse (ToString (Item.value result)) with
            | Normal parsed => (resolve parsed Pending, w)
            | Throw _ => (resolve (stored (Item.value result)) Pending, w)
            end
        | None => (resolve JNull Pending, w)
        end
    | (Some error, w) => (reject (DOMException error) Pending, w)
    end.

Definition removeItem (key : string) : World -> Promise bool * World :=
  _ <~ ensureDB ;;
  _ <~ transaction readwrite ;;
  fun w =>
    let (request, w) := place (Delete key) w in
    match fire env request (Delete key) w with
    | (None, w) => (resolve true Pending, w)
    | (Some error, w) => (reject (DOMException error) Pending, w)
    end.

Definition clear : World -> Promise bool * World :=
  _ <~ ensureDB ;;
  _ <~ transaction readwrite ;;
  fun w =>
    let (request, w) := place Clear w in
    match fire env request Clear w with
    | (None, w) => (resolve true Pending, w)
    | (Some error, w) => (reject (DOMException error) Pending, w)
    end.

(** *** getAllItems *)

(** [Map.prototype.set]: a key that is there keeps its place. *)
Definition Map_set (key : string) (value : JsValue) (result : list (string * JsValue))
  : list (string * JsValue) :=
  Json.set_prop key value result.

Definition getAllItems : World -> Promise (list (string * JsValue)) * World :=
  _ <~ ensureDB ;;
  _ <~ transaction readonly ;;
  fun w =>
    let (request, w) := place GetAll w in
    match fire env request GetAll w with
    | (None, w) =>
        (resolve
           (fold_left
              (fun result item =>
                 match JSON_parse (ToString (Item.value item)) with
                 | Normal parsed => Map_set (Item.key item) parsed result
                 | Throw _ => Map_set (Item.key item) (stored (Item.value item)) result
                 end)
              (result_getAll w) []) Pending, w)
    | (Some error, w) => (reject (DOMException error) Pending, w)
    end.

(** *** getAllKeys / hasItem / getCount *)

Definition getAllKeys : World -> Promise (list string) * World :=
  _ <~ ensureDB ;;
  _ <~ transaction readonly ;;
  fun w =>
    let (request, w) := place GetAllKeys w in
    match fire env request GetAllKeys w with
    | (None, w) => (resolve (result_getAllKeys w) Pending, w)
    | (Some error, w) => (reject (DOMException error) Pending, w)
    end.

Definition hasItem (key : string) : World -> Promise bool * World :=
  _ <~ ensureDB ;;
  _ <~ transaction readonly ;;
  fun w =>
    let (request, w) := place (CountOnly key) w in
    match fire env request (CountOnly key) w with
    | (None, w) => (resolve (0 <? result_count_only key w) Pending, w)
    | (Some error, w) => (reject (DOMException error) Pending, w)
    end.

Definition getCount : World -> Promise nat * World :=
  _ <~ ensureDB ;;
  _ <~ transaction readonly ;;
  fun w =>
    let (request, w) := place Count w in
    match fire env request Count w with
    | (None, w) => (resolve (result_count w) Pending, w)
    | (Some error, w) => (reject (DOMException error) Pending, w)
    end.

(** *** setItems / removeItems *)

(** [request.onsuccess] of a batch of [n] requests. *)
Definition batch_onsuccess (n : nat) (b : Batch bool) : Batch bool :=
  let completed := S (completed b) in
  mkBatch completed (hasError b)
    (if (completed =? n) && negb (hasError b)
     then resolve true (outcome b) else outcome b).

(** [request.onerror] of a batch. *)
Definition batch_onerror (error : string) (b : Batch bool) : Batch bool :=
  if hasError b then b
  else mkBatch (completed b) true (reject (DOMException error) (outcome b)).

(** The engine fires the events of the placed requests of the transaction
    in the order they were placed; each runs its handler. *)
Fixpoint fire_all (n : nat) (requests : list (nat * Request)) (b : Batch bool)
    (tx : Transaction) (w : World) : Batch bool * World :=
  match requests with
  | [] => (b, w)
  | (id, req) :: rest =>
      match fire_in env tx id req w with
      | (None, (tx, w)) => fire_all n rest (batch_onsuccess n b) tx w
      | (Some error, (tx, w)) => fire_all n rest (batch_onerror error b) tx w
      end
  end.

(** [items.forEach(item => { ... store.put(dbItem) ... })]: every item is
    turned into its record and its request is placed. *)
Fixpoint place_puts (items : list (string * JsValue)) (w : World)
  : list (nat * Request) * World :=
  match items with
  | [] => ([], w)
  | item :: rest =>
      let (now, w) := Date_now env w in
      let dbItem := Item.make (fst item) (serialize (snd item)) now in
      let (request, w) := place (Put dbItem) w in
      let (requests, w) := place_puts rest w in
      ((request, Put dbItem) :: requests, w)
  end.

Definition setItems (items : list (string * JsValue)) : World -> Promise bool * World :=
  _ <~ ensureDB ;;
  _ <~ transaction readwrite ;;
  fun w =>
    let tx := begin w in
    if length items =? 0 then (resolve true Pending, w)
    else
      let (requests, w) := place_puts items w in
      let (b, w) := fire_all (length items) requests (mkBatch 0 false Pending) tx w in
      (outcome b, w).

(** [keys.forEach(key => { ... store.delete(key) ... })] *)
Fixpoint place_deletes (keys : list string) (w : World) : list (nat * Request) * World :=
  match keys with
  | [] => ([], w)
  | key :: rest =>
      let (request, w) := place (Delete key) w in
      let (requests, w) := place_deletes rest w in
      ((request, Delete key) :: requests, w)
  end.

Definition removeItems (keys : list string) : World -> Promise bool * World :=
  _ <~ ensureDB ;;
  _ <~ transaction readwrite ;;
  fun w =>
    let tx := begin w in
    if length keys =? 0 then (resolve true Pending, w)
    else
      let (requests, w) := place_deletes keys w in
      let (b, w) := fire_all (length keys) requests (mkBatch 0 false Pending) tx w in
      (outcome b, w).

(** *** getKeysByPrefix / removeItemsByPrefix *)

(** [key.startsWith(prefix)] *)
Definition startsWith (key prefix : string) : bool := String.prefix prefix key.

Definition getKeysByPrefix (prefix : string) : World -> Promise (list string) * World :=
  _ <~ ensureDB ;;
  _ <~ transaction readonly ;;
  fun w =>
    let (request, w) := place GetAllKeys w in
    match fire env request GetAllKeys w with
    | (None, w) =>
        let keys := result_getAllKeys w in
        let result :=
          fold_left (fun result key =>
                       if startsWith key prefix then result ++ [key] else result)
                    keys [] in
        (resolve result Pending, w)
    | (Some error, w) => (reject (DOMException error) Pending, w)
    end.

(** [getKeysByPrefix(prefix).pipe(switchMap(keys => removeItems(keys)))] *)
Definition removeItemsByPrefix (prefix : string) (w : World) : Promise bool * World :=
  match getKeysByPrefix prefix w with
  | (Fulfilled keys, w) => removeItems keys w
  | (Rejected err, w) => (Rejected err, w)
  | (Pending, w) => (Pending, w)
  end.

(** *** migrateFromLocalStorage *)

(** [try { parsed = JSON.parse(value) ... } catch (e) { ... value ... }] *)
Definition parse_or_raw (value : string) : JsValue :=
  match JSON_parse value with
  | Normal parsed => parsed
  | Throw _ => JString value
  end.

(** [if (key)] on the result of [localStorage.key(i)] *)
Definition truthy (key : option string) : bool :=
  match key with
  | Some k => negb (String.eqb k "")
  | None => false
  end.

(** The body of [keys.forEach]. *)
Definition migrate_key (w : World) (itemsToMigrate : list (string * JsValue))
    (key : string) : list (string * JsValue) :=
  match localStorage_getItem key w with
  | Some value => itemsToMigrate ++ [(key, parse_or_raw value)]
  | None => itemsToMigrate
  end.

(** The body of [for (let i = 0; i < localStorage.length; i++)]. *)
Definition migrate_index (w : World) (itemsToMigrate : list (string * JsValue))
    (i : nat) : list (string * JsValue) :=
  let key := localStorage_key i w in
  if truthy key then migrate_key w itemsToMigrate (default "" key)
  else itemsToMigrate.

(** [keys && keys.length > 0] *)
Definition keys_given (keys : option (list string)) : bool :=
  match keys with
  | Some (_ :: _) => true
  | _ => false
  end.

(** The items read from [localStorage]; a denied access throws on the first
    read, which both branches make. *)
Definition collect_items (keys : option (list string)) (w : World)
  : Completion (list (string * JsValue)) :=
  match localStorage_access env with
  | Throw err => Throw err
  | Normal _ =>
      if keys_given keys
      then Normal (fold_left (migrate_key w) (default [] keys) [])
      else Normal (fold_left (migrate_index w) (seq 0 (localStorage_length w)) [])
  end.

Definition migrateFromLocalStorage (keys : option (list string))
    (clearLocalStorage : bool) (w : World) : Promise nat * World :=
  match collect_items keys w with
  | Throw err => (reject err Pending, w)
  | Normal itemsToMigrate =>
      if length itemsToMigrate =? 0 then (resolve 0 Pending, w)
      else
        match setItems itemsToMigrate w with
        | (Fulfilled _, w) =>
            let w :=
              if clearLocalStorage then
                if keys_given keys
                then fold_left (fun w key => localStorage_removeItem key w)
                               (default [] keys) w
                else localStorage_clear w
              else w in
            (resolve (length itemsToMigrate) Pending, w)
        | (Rejected err, w) => (reject err Pending, w)
        | (Pending, w) => (Pending, w)
        end
  end.

(** *** autoMigrateFromLocalStorage *)

Definition autoMigrateFromLocalStorage (w : World) : Promise bool * World :=
  match getCount w with
  | (Fulfilled count, w) =>
      if 0 <? count then (resolve false Pending, w)
      else
        match localStorage_access env with
        | Throw err => (resolve false Pending, w)
        | Normal _ =>
            if localStorage_length w =? 0 then (resolve false Pending, w)
            else
              match migrateFromLocalStorage None false w with
              | (Fulfilled migratedCount, w) =>
                  (resolve (0 <? migratedCount) Pending, w)
              | (Rejected err, w) => (resolve false Pending, w)
              | (Pending, w) => (Pending, w)
              end
        end
  | (Rejected err, w) => (resolve false Pending, w)
  | (Pending, w) => (Pending, w)
  end.

(** *** getItems *)

(** What the handlers of [getItems] share: the [Map] they fill, and the
    counters with the promise. *)
Definition Reads : Type := gmap string JsValue * Batch (gmap string JsValue).

(** [request.onsuccess] of the request for [key], with [request.result]. *)
Definition get_onsuccess (n : nat) (key : string) (item : option Item.t)
    (st : Reads) : Reads :=
  let (result, b) := st in
  let result :=
    match item with
    | Some item =>
        match JSON_parse (ToString (Item.value item)) with
        | Normal parsed => <[key := parsed]> result
        | Throw _ => <[key := stored (Item.value item)]> result
        end
    | None => result
    end in
  let completed := S (completed b) in
  (result,
   mkBatch completed (hasError b)
     (if (completed =? n) && negb (hasError b)
      then resolve result (outcome b) else outcome b)).

(** [request.onerror] *)
Definition get_onerror (error : string) (st : Reads) : Reads :=
  let (result, b) := st in
  if hasError b then st
  else (result, mkBatch (completed b) true (reject (DOMException error) (outcome b))).

(** [keys.forEach(key => { const request = store.get(key); ... })] *)
Fixpoint place_gets (keys : list string) (w : World) : list (nat * string) * World :=
  match keys with
  | [] => ([], w)
  | key :: rest =>
      let (request, w) := place (Get key) w in
      let (requests, w) := place_gets rest w in
      ((request, key) :: requests, w)
  end.

(** The engine fires the events of the reads in the order they were
    placed. *)
Fixpoint fire_gets (n : nat) (requests : list (nat * string)) (st : Reads)
    (tx : Transaction) (w : World) : Reads * World :=
  match requests with
  | [] => (st, w)
  | (id, key) :: rest =>
      match fire_in env tx id (Get key) w with
      | (None, (tx, w)) =>
          fire_gets n rest (get_onsuccess n key (result_get key w) st) tx w
      | (Some error, (tx, w)) => fire_gets n rest (get_onerror error st) tx w
      end
  end.

Definition getItems (keys : list string)
  : World -> Promise (gmap string JsValue) * World :=
  _ <~ ensureDB ;;
  _ <~ transaction readonly ;;
  fun w =>
    let tx := begin w in
    if length keys =? 0 then (resolve ∅ Pending, w)
    else
      let (requests, w) := place_gets keys w in
      let (st, w) := fire_gets (length keys) requests (∅, mkBatch 0 false Pending) tx w in
      (outcome (snd st), w).

(** *** setItemSync / getItemSync / removeItemSync *)

(** The [async] variants await [ensureDB] and return the promise of the
    request. *)
Definition setItemSync (key : string) (value : JsValue) : World -> Promise bool * World :=
  _ <~ ensureDB ;;
  _ <~ transaction readwrite ;;
  fun w =>
    let (now, w) := Date_now env w in
    let item := Item.make key (serialize value) now in
    let (request, w) := place (Put item) w in
    match fire env request (Put item) w with
    | (None, w) => (resolve true Pending, w)
    | (Some error, w) => (reject (DOMException error) Pending, w)
    end.

Definition getItemSync (key : string) : World -> Promise JsValue * World :=
  _ <~ ensureDB ;;
  _ <~ transaction readonly ;;
  fun w =>
    let (request, w) := place (Get key) w in
    match fire env request (Get key) w with
    | (None, w) =>
        match result_get key w with
        | Some result =>
            match JSON_parse (ToString (Item.value result)) with
            | Normal parsed => (resolve parsed Pending, w)
            | Throw _ => (resolve (stored (Item.value result)) Pending, w)
            end
        | None => (resolve JNull Pending, w)
        end
    | (Some error, w) => (reject (DOMException error) Pending, w)
    end.

Definition removeItemSync (key : string) : World -> Promise bool * World :=
  _ <~ ensureDB ;;
  _ <~ transaction readwrite ;;
  fun w =>
    let (request, w) := place (Delete key) w in
    match fire env request (Delete key) w with
    | (None, w) => (resolve true Pending, w)
    | (Some error, w) => (reject (DOMException error) Pending, w)
    end.

End IndexedDBService.

(** ** The connection, event by event *)

(** The constructor and the operations run [initDB] up to the point where
    it waits for the open request; the engine completes the open requests
    later, oldest first, and who awaited the request goes on.  [in_flight]
    holds the open requests that wait, each with who awaits it. *)
Module Connection.

Inductive Event : Type :=
| Call (rest : World -> World)
    (* an operation of the service is invoked; [rest] is what it does once
       [ensureDB] has returned *)
| OpenDone.
    (* the engine completes the oldest open request in flight *)

(** Who awaits the promise of an [initDB]: the constructor, which drops
    it, or the [ensureDB] of an operation. *)
Inductive Waiter : Type :=
| Constructor
| Operation (rest : World -> World).

Record State : Type := mkState {
  world : World;
  in_flight : list (nat * Waiter);
  rejected : list (nat * string)
    (* the operations that were rejected because their open request failed,
       by request and error *)
}.

(** [constructor() { this.initDB(); }] *)
Definition constructor (w : World) : State :=
  let (request, w) := indexedDB_open w in
  mkState w [(request, Constructor)] [].

(** An operation up to the point where it waits: with [db] set, [ensureDB]
    returns it and the operation goes on; otherwise [ensureDB] calls
    [initDB], which places an open request, and awaits its promise. *)
Definition call (rest : World -> World) (s : State) : State :=
  if db (world s) then mkState (rest (world s)) (in_flight s) (rejected s)
  else
    let (request, w) := indexedDB_open (world s) in
    mkState w (in_flight s ++ [(request, Operation rest)]) (rejected s).

(** The engine completes the oldest open request: [request.onsuccess]
    sets [db] and resolves the promise of that [initDB], [request.onerror]
    rejects it; the operation that awaited it goes on, or is rejected. *)
Definition open_done (env : Env) (s : State) : State :=
  match in_flight s with
  | [] => s
  | (request, who) :: later =>
      match open_fire env request (world s), who with
      | (_, w), Constructor => mkState w later (rejected s)
      | (None, w), Operation rest => mkState (rest w) later (rejected s)
      | (Some error, w), Operation _ =>
          mkState w later (rejected s ++ [(request, error)])
      end
  end.

Definition step (env : Env) (s : State) (ev : Event) : State :=
  match ev with
  | Call rest => call rest s
  | OpenDone => open_done env s
  end.

Definition run (env : Env) (s : State) (events : list Event) : State :=
  fold_left (step env) events s.

(** The open requests and the store creations in a trace. *)
Definition is_open (e : Effect) : bool :=
  match e with EOpen _ => true | _ => false end.

Definition is_create (e : Effect) : bool :=
  match e with ECreateObjectStore => true | _ => false end.

Definition opens (w : World) : nat := length (filter (fun e => is_open e = true) (trace w)).

Definition creations (w : World) : nat :=
  length (filter (fun e => is_create e = true) (trace w)).

(** The open requests that the engine completes in a run. *)
Definition is_completion (ev : Event) : bool :=
  match ev with OpenDone => true | Call _ => false end.

Definition completions (events : list Event) : nat :=
  length (filter (fun ev => is_completion ev = true) events).

(** What the rest of an operation leaves alone when it runs on a
    connection: the handle, and the database as a whole (it places no open
    request and creates no store). *)
Definition keeps_connection (rest : World -> World) : Prop :=
  forall w, db w = true ->
    db (rest w) = true /\ opens (rest w) = opens w /\ creations (rest w) = creations w /\
    (is_Some (idb_objectStore (rest w)) <-> is_Some (idb_objectStore w)).

Definition well_behaved (ev : Event) : Prop :=
  match ev with
  | Call rest => keeps_connection rest
  | OpenDone => True
  end.

(** The operations in flight keep the connection. *)
Definition waiting_ok (s : State) : Prop :=
  Forall (fun x => match snd x with
                   | Operation rest => keeps_connection rest
                   | Constructor => True
                   end) (in_flight s).

End Connection.

(** A freshly loaded page: no database yet, nothing placed. *)
Definition first_visit (ls : gmap string string) : World :=
  mkWorld false 0 None ls 0 0 [].

(** A page on which the database is open and holds [m]. *)
Definition opened (m : gmap string Item.t) (ls : gmap string string) : World :=
  mkWorld true 1 (Some m) ls 0 0 [].

(** An environment in which nothing fails and the clock shows [t]. *)
Definition calm (t : Z) : Env := mkEnv (fun _ => t) (fun _ => None) None.

(** An engine that fails the request numbered [bad] for lack of quota. *)
Definition quota_at (bad : nat) : Env :=
  mkEnv (fun _ => 0%Z)
        (fun id => if id =? bad then Some "QuotaExceededError" else None)
        None.

(** ** The language service, a client of the store *)

(** [LanguageService] keeps the language a user chose under a key of its
    own: [setCurrentLanguage] writes it with [setItem], and
    [getStorageLanguage] reads it with [getItemSync] when the project is
    loaded. *)
Module LanguageService.

(** [localStorageItem = 'currentLanguage'] *)
Definition localStorageItem : string := "currentLanguage".

(** [this.authService.getUser()?.username || '']: [user] is the name of
    the user who is signed in, when there is one and it has a name. *)
Definition username_of (user : option string) : string :=
  if truthy user then default "" user else "".

(** [`${this.localStorageItem}-${username}`] *)
Definition storage_key (username : string) : string :=
  String.append localStorageItem (String.append "-" username).

(** The fields of the service that [setCurrentLanguage] touches:
    [languageConfig], an object that is [undefined] until the project is
    loaded, and what [languageConfig$] was given. *)
Record State : Type := mkState {
  languageConfig : option (list (string * JsValue));
  languageConfig_next : list (list (string * JsValue))
}.

(** A call returns, or throws the [TypeError] of an assignment to a
    property of [undefined]. *)
Inductive Outcome (A : Type) : Type :=
| Done (a : A)
| TypeError.
Arguments Done {A} a.
Arguments TypeError {A}.

(** The two handlers of the subscription return nothing: the promise of
    [setItem] is dropped. *)
Definition setCurrentLanguage (env : Env) (user : option string) (lang : JsValue)
    (s : State) (w : World) : Outcome (State * World) :=
  let username := username_of user in
  match languageConfig s with
  | None => TypeError
  | Some config =>
      let config := Json.set_prop "currentLanguage" lang config in
      let s := mkState (Some config) (languageConfig_next s ++ [config]) in
      let key := storage_key username in
      let (_, w) := setItem env key lang w in
      Done (s, w)
  end.

(** [try { return await this.indexedDB.getItemSync(key); }
     catch (err) { ...; return null; }] *)
Definition getStorageLanguage (env : Env) (user : option string) (w : World)
  : Promise JsValue * World :=
  let username := username_of user in
  let key := storage_key username in
  match getItemSync env key w with
  | (Fulfilled language, w) => (Fulfilled language, w)
  | (Rejected err, w) => (Fulfilled JNull, w)
  | (Pending, w) => (Pending, w)
  end.

End LanguageService.

(** ** Vocabulary of the statements *)

Definition Promise_map {A B : Type} (f : A -> B) (p : Promise A) : Promise B :=
  match p with
  | Pending => Pending
  | Fulfilled a => Fulfilled (f a)
  | Rejected e => Rejected e
  end.

(** The connection is established: [this.db] is set and the object store
    exists and holds [m]. *)
Definition connected (w : World) (m : gmap string Item.t) : Prop :=
  db w = true /\ idb_objectStore w = Some m.

(** What a stored record reads back as. *)
Definition decoded (item : Item.t) : JsValue :=
  match Item.value item with
  | Some s => match Json.parse s with Some v => v | None => JString s end
  | None => JUndefined
  end.

(** The records [setItems] builds: one per item, stamped with successive
    readings of the clock starting at reading [tick]. *)
Fixpoint dbItems (env : Env) (tick : nat) (items : list (string * JsValue)) : list Item.t :=
  match items with
  | [] => []
  | item :: rest =>
      Item.make (fst item) (serialize (snd item)) (clock env tick)
      :: dbItems env (S tick) rest
  end.

(** Requests numbered from [id] on. *)
Fixpoint numbered (id : nat) (reqs : list Request) : list (nat * Request) :=
  match reqs with
  | [] => []
  | req :: rest => (id, req) :: numbered (S id) rest
  end.

(** Their placement in the trace, and the events the engine fires. *)
Fixpoint placed (id : nat) (reqs : list Request) : list Effect :=
  match reqs with
  | [] => []
  | req :: rest => ERequest id req :: placed (S id) rest
  end.

(** The events of the requests of an aborted transaction. *)
Fixpoint aborted_events (id : nat) (reqs : list Request) : list Effect :=
  match reqs with
  | [] => []
  | _ :: rest => EError id "AbortError" :: aborted_events (S id) rest
  end.

Fixpoint events (env : Env) (id : nat) (reqs : list Request) : list Effect :=
  match reqs with
  | [] => []
  | _ :: rest =>
      match idb_fault env id with
      | Some name => EError id name :: aborted_events (S id) rest
      | None => ESuccess id :: events env (S id) rest
      end
  end.

(** The records with the requests applied in order. *)
Definition applied (reqs : list Request) (m : gmap string Item.t) : gmap string Item.t :=
  fold_left (fun m req => apply_request req m) reqs m.

(** The records after the engine ran the requests numbered from [id] on,
    in a transaction that began with the records [m0] and has brought them
    to [m]: when it fails none of them every request takes effect; when it
    fails one the transaction is aborted and the records are [m0] again. *)
Fixpoint survivors_from (env : Env) (m0 : gmap string Item.t) (id : nat)
    (reqs : list Request) (m : gmap string Item.t) : gmap string Item.t :=
  match reqs with
  | [] => m
  | req :: rest =>
      match idb_fault env id with
      | Some _ => m0
      | None => survivors_from env m0 (S id) rest (apply_request req m)
      end
  end.

(** The records after a whole transaction that began with [m]. *)
Definition survivors (env : Env) (id : nat) (reqs : list Request)
    (m : gmap string Item.t) : gmap string Item.t :=
  survivors_from env m id reqs m.

(** The error of the first request the engine fails among [n] requests
    numbered from [id] on. *)
Fixpoint first_fault (env : Env) (id n : nat) : option string :=
  match n with
  | O => None
  | S n' =>
      match idb_fault env id with
      | Some name => Some name
      | None => first_fault env (S id) n'
      end
  end.

(** The world after a batch on an established connection: one
    transaction, the placements, the events. *)
Definition after_batch (env : Env) (w : World) (m : gmap string Item.t)
    (reqs : list Request) (ticks : nat) : World :=
  mkWorld (db w) (idb_version w)
          (Some (survivors env (next_request w) reqs m))
          (localStorage w)
          (next_request w + length reqs) (next_tick w + ticks)
          (trace w ++ ETransaction readwrite
             :: placed (next_request w) reqs ++ events env (next_request w) reqs).

Definition batch_outcome (env : Env) (w : World) (n : nat) : Promise bool :=
  match first_fault env (next_request w) n with
  | None => Fulfilled true
  | Some name => Rejected (DOMException name)
  end.

(** Kinds of effects. *)
Definition is_legacy_removal (e : Effect) : bool :=
  match e with ELsRemoveItem _ | ELsClear => true | _ => false end.

Definition is_request (e : Effect) : bool :=
  match e with ERequest _ _ => true | _ => false end.

Definition is_error (e : Effect) : bool :=
  match e with EError _ _ => true | _ => false end.

(** The items [migrateFromLocalStorage] reads for the given keys: those the
    legacy store holds, in the order of [keys]. *)
Definition items_of_keys (ls : gmap string string) (keys : list string)
  : list (string * JsValue) :=
  omap (fun key => (fun value => (key, parse_or_raw value)) <$> ls !! key) keys.

(** The items it reads without keys: every entry of the legacy store, by
    position. *)
Definition items_of_all (ls : gmap string string) : list (string * JsValue) :=
  (fun kv => (fst kv, parse_or_raw (snd kv))) <$> map_to_list ls.

(** The removals of [clearLocalStorage]. *)
Definition removals (keys : option (list string)) : list Effect :=
  if keys_given keys then ELsRemoveItem <$> default [] keys else [ELsClear].

(** The records written by the [put] requests of a trace, in order. *)
Definition puts (t : list Effect) : list Item.t :=
  omap (fun e => match e with ERequest _ (Put item) => Some item | _ => None end) t.

(** The effects of a batch on an established connection. *)
Definition batch_effects (env : Env) (id : nat) (reqs : list Request) : list Effect :=
  ETransaction readwrite :: placed id reqs ++ events env id reqs.


(** What every step of the connection keeps: the store is created at most
    once after the [c0] creations there were. *)
Definition settled_from (c0 : nat) (w : World) : Prop :=
  (idb_objectStore w = None -> Connection.creations w = c0) /\ Connection.creations w <= S c0.


(** Reads numbered from [id] on, each with the key its handlers close
    over. *)
Fixpoint numbered_keys (id : nat) (keys : list string) : list (nat * string) :=
  match keys with
  | [] => []
  | key :: rest => (id, key) :: numbered_keys (S id) rest
  end.

(** The [Map] that the handlers of [getItems] fill from the records [m]
    when every read succeeds: the keys in order, a key without a record
    adding nothing. *)
Definition read_all (m : gmap string Item.t) (keys : list string)
    (result : gmap string JsValue) : gmap string JsValue :=
  fold_left (fun result key =>
               match m !! key with
               | Some item => <[key := decoded item]> result
               | None => result
               end)
            keys result.

(** The world after a batch of reads on an established connection. *)
Definition after_reads (env : Env) (w : World) (keys : list string) : World :=
  mkWorld (db w) (idb_version w) (idb_objectStore w) (localStorage w)
          (next_request w + length keys) (next_tick w)
          (trace w ++ ETransaction readonly
             :: placed (next_request w) (Get <$> keys)
             ++ events env (next_request w) (Get <$> keys)).

(** The keys of the records that start with [prefix], as [getAllKeys]
    lists them. *)
Definition keys_with_prefix (prefix : string) (m : gmap string Item.t) : list string :=
  List.filter (fun key => startsWith key prefix) (keys_in_order m).

Definition is_delete (e : Effect) : bool :=
  match e with ERequest _ (Delete _) => true | _ => false end.

(** The values that the store gives back as they were written: a value
    other than a string that JSON represents exactly, [undefined], and a
    string that is not JSON text. *)
Definition round_trips (v : JsValue) : Prop :=
  (typeof_string v = false /\ json_serializable v = true) \/
  v = JUndefined \/
  (exists s, v = JString s /\ JSON_parse s = Throw SyntaxError).

(** The effects that change what is stored: a [readwrite] transaction, a
    request that writes, a removal from the legacy store. *)
Definition changes_data (e : Effect) : bool :=
  match e with
  | ETransaction readwrite => true
  | ERequest _ (Put _) | ERequest _ (Delete _) | ERequest _ Clear => true
  | ELsRemoveItem _ | ELsClear => true
  | _ => false
  end.

(** From [w] to [w'] nothing that is stored has changed, and nothing was
    done that could have changed it. *)
Definition untouched (w w' : World) : Prop :=
  records w' = records w /\ localStorage w' = localStorage w /\
  exists added,
    trace w' = trace w ++ added /\ Forall (fun e => changes_data e = false) added.

(** ** Auxiliary notions for the properties of [Json] *)

Module JsonAux.
Import Json.

#[local] Open Scope string_scope.

(** The characters that continue the text of a number. *)
Definition number_char (c : ascii) : bool :=
  is_digit c || Ascii.eqb c "." || Ascii.eqb c "e" || Ascii.eqb c "E".

Fixpoint all_digits (s : string) : bool :=
  match s with
  | String c r => is_digit c && all_digits r
  | EmptyString => true
  end.

Definition continues_number (s : string) : bool :=
  match s with
  | String c _ => number_char c
  | EmptyString => false
  end.

Definition elements (l : list JsValue) : list string :=
  map (fun x => default "null" (stringify x)) l.

Definition members (l : list (string * JsValue)) : list string :=
  omap (fun kv => match stringify (snd kv) with
                  | Some t => Some (quote (fst kv) ++ ":" ++ t)
                  | None => None
                  end) l.

(** The characters a serialization can start with. *)
Definition value_start (c : ascii) : bool :=
  Ascii.eqb c "n" || Ascii.eqb c "t" || Ascii.eqb c "f" || Ascii.eqb c DQUOTE
  || Ascii.eqb c "[" || Ascii.eqb c "{" || Ascii.eqb c "-"
  || is_digit c.

Definition starts (P : ascii -> bool) (s : string) : bool :=
  match s with String c _ => P c | EmptyString => false end.

(** The fuel a value needs. *)
Fixpoint need (v : JsValue) : nat :=
  match v with
  | JArray l =>
      S ((fix go (l : list JsValue) : nat :=
            match l with [] => 0 | x :: r => S (need x + go r) end) l)
  | JObject l =>
      S ((fix go (l : list (string * JsValue)) : nat :=
            match l with [] => 0 | (_, x) :: r => S (need x + go r) end) l)
  | _ => 1
  end.

Definition need_items (l : list JsValue) : nat :=
  foldr (fun x n => S (need x + n)) 0 l.

Definition need_props (l : list (string * JsValue)) : nat :=
  foldr (fun kv n => S (need (snd kv) + n)) 0 l.

(** What the induction carries for one value. *)
Definition reads_back (v : JsValue) : Prop :=
  json_serializable v = true ->
  forall t, stringify v = Some t ->
  forall fuel rest, need v <= fuel -> continues_number rest = false ->
  parse_value fuel (t ++ rest) = Some (v, rest).

End JsonAux.

(** * Properties of the platform model *)

(** ** Numbers: a Number is the nearest one to what [toString] writes *)

Module NumberFacts.
Import Number.

#[local] Open Scope Z_scope.

Lemma pow2_pos (e : Z) : 0 <= e -> 0 < 2 ^ e.
Proof. intros H. apply Z.pow_pos_nonneg; lia. Qed.

(** *** The binary logarithm of a quotient *)

Lemma ratio_ge_iff (n d f K : Z) :
  0 <= K -> 0 <= K + f ->
  ratio_ge n d f = true <-> d * 2 ^ (K + f) <= n * 2 ^ K.
Proof.
  intros HK HKf. unfold ratio_ge, scale_num, scale_den. rewrite Z.leb_le.
  destruct (Z.le_gt_cases 0 f) as [Hf|Hf].
  - rewrite (Z.max_r 0 f), (Z.max_l 0 (- f)) by lia.
    rewrite Z.pow_0_r, Z.mul_1_r, Z.pow_add_r by lia.
    pose proof (pow2_pos K HK) as HP.
    rewrite (Z.mul_comm (2 ^ K)), Z.mul_assoc.
    split; intros H.
    + now apply Z.mul_le_mono_pos_r.
    + now apply Z.mul_le_mono_pos_r in H.
  - rewrite (Z.max_l 0 f), (Z.max_r 0 (- f)) by lia.
    rewrite Z.pow_0_r, Z.mul_1_r.
    replace (2 ^ K) with (2 ^ (- f) * 2 ^ (K + f))
      by (rewrite <- Z.pow_add_r by lia; f_equal; lia).
    pose proof (pow2_pos (K + f) HKf) as HP.
    rewrite Z.mul_assoc.
    split; intros H.
    + now apply Z.mul_le_mono_pos_r.
    + now apply Z.mul_le_mono_pos_r in H.
Qed.

Lemma ratio_ge_mono (n d a a' : Z) :
  0 <= d -> a' <= a -> ratio_ge n d a = true -> ratio_ge n d a' = true.
Proof.
  intros Hd Ha.
  rewrite (ratio_ge_iff n d a (Z.abs a + Z.abs a')) by lia.
  rewrite (ratio_ge_iff n d a' (Z.abs a + Z.abs a')) by lia.
  intros H. etransitivity; [|exact H].
  apply Z.mul_le_mono_nonneg_l; [exact Hd|].
  apply Z.pow_le_mono_r; lia.
Qed.

Lemma log2_ratio_unique (n d f : Z) :
  0 < n -> 0 < d ->
  ratio_ge n d f = true -> ratio_ge n d (f + 1) = false -> log2_ratio n d = f.
Proof.
  intros Hn Hd Hf Hf1.
  pose proof (Z.log2_spec n Hn) as [Hn1 Hn2].
  pose proof (Z.log2_spec d Hd) as [Hd1 Hd2].
  pose proof (Z.log2_nonneg n) as Hln. pose proof (Z.log2_nonneg d) as Hld.
  unfold log2_ratio. set (g := Z.log2 n - Z.log2 d).
  assert (Hlo : ratio_ge n d (g - 1) = true).
  { apply (ratio_ge_iff n d (g - 1) (Z.abs g + 1)); [lia | lia|].
    transitivity (2 ^ Z.succ (Z.log2 d) * 2 ^ (Z.abs g + 1 + (g - 1))).
    - apply Z.mul_le_mono_nonneg_r; [apply Z.lt_le_incl, pow2_pos; lia | lia].
    - rewrite <- Z.pow_add_r by lia.
      replace (Z.succ (Z.log2 d) + (Z.abs g + 1 + (g - 1)))
        with (Z.log2 n + (Z.abs g + 1)) by (unfold g; lia).
      rewrite Z.pow_add_r by lia.
      apply Z.mul_le_mono_nonneg_r; [apply Z.lt_le_incl, pow2_pos; lia | exact Hn1]. }
  assert (Hhi : ratio_ge n d (g + 1) = false).
  { apply not_true_is_false. intros H.
    apply (ratio_ge_iff n d (g + 1) (Z.abs g + 1)) in H; [|lia|lia].
    assert (H' : 2 ^ Z.log2 d * 2 ^ (Z.abs g + 1 + (g + 1)) <= n * 2 ^ (Z.abs g + 1)).
    { etransitivity; [|exact H].
      apply Z.mul_le_mono_nonneg_r; [apply Z.lt_le_incl, pow2_pos; lia | exact Hd1]. }
    rewrite <- Z.pow_add_r in H' by lia.
    replace (Z.log2 d + (Z.abs g + 1 + (g + 1)))
      with (Z.succ (Z.log2 n) + (Z.abs g + 1)) in H' by (unfold g; lia).
    rewrite Z.pow_add_r in H' by lia.
    apply Z.mul_le_mono_pos_r in H'; [lia | apply pow2_pos; lia]. }
  destruct (ratio_ge n d g) eqn:Hg.
  - destruct (Z.lt_trichotomy f g) as [Hlt|[Heq|Hgt]]; [|congruence|].
    + rewrite (ratio_ge_mono n d g (f + 1)) in Hf1 by (lia || assumption). discriminate.
    + rewrite (ratio_ge_mono n d f (g + 1)) in Hhi by (lia || assumption). discriminate.
  - destruct (Z.lt_trichotomy f (g - 1)) as [Hlt|[Heq|Hgt]]; [|congruence|].
    + rewrite (ratio_ge_mono n d (g - 1) (f + 1)) in Hf1 by (lia || assumption). discriminate.
    + rewrite (ratio_ge_mono n d f g) in Hg by (lia || assumption). discriminate.
Qed.

Lemma log2_ratio_above (n d : Z) :
  0 < n -> 0 < d -> ratio_ge n d (log2_ratio n d + 1) = false.
Proof.
  intros Hn Hd.
  pose proof (Z.log2_spec n Hn) as [Hn1 Hn2].
  pose proof (Z.log2_spec d Hd) as [Hd1 Hd2].
  pose proof (Z.log2_nonneg n) as Hln. pose proof (Z.log2_nonneg d) as Hld.
  unfold log2_ratio. set (g := Z.log2 n - Z.log2 d).
  destruct (ratio_ge n d g) eqn:Hg.
  - apply not_true_is_false. intros H.
    apply (ratio_ge_iff n d (g + 1) (Z.abs g + 1)) in H; [|lia|lia].
    assert (H' : 2 ^ Z.log2 d * 2 ^ (Z.abs g + 1 + (g + 1)) <= n * 2 ^ (Z.abs g + 1)).
    { etransitivity; [|exact H].
      apply Z.mul_le_mono_nonneg_r; [apply Z.lt_le_incl, pow2_pos; lia | exact Hd1]. }
    rewrite <- Z.pow_add_r in H' by lia.
    replace (Z.log2 d + (Z.abs g + 1 + (g + 1)))
      with (Z.succ (Z.log2 n) + (Z.abs g + 1)) in H' by (unfold g; lia).
    rewrite Z.pow_add_r in H' by lia.
    apply Z.mul_le_mono_pos_r in H'; [lia | apply pow2_pos; lia].
  - now replace (g - 1 + 1) with g by lia.
Qed.

(** *** What is read is a Number *)

Lemma strip_spec (p : positive) (e : Z) :
  let (q, e') := strip p e in
  Z.pos p = Z.pos q * 2 ^ (e' - e) /\ e <= e' /\ Z.odd (Z.pos q) = true.
Proof.
  revert e. induction p as [p IH|p IH|]; intros e; simpl.
  - rewrite Z.sub_diag. split; [lia | split; [lia | reflexivity]].
  - specialize (IH (e + 1)). destruct (strip p (e + 1)) as [q e'].
    destruct IH as (H1 & H2 & H3). split; [|split; [lia | exact H3]].
    replace (e' - e) with (Z.succ (e' - (e + 1))) by lia.
    rewrite Z.pow_succ_r by lia. lia.
  - rewrite Z.sub_diag. split; [lia | split; [lia | reflexivity]].
Qed.

Lemma nearest_even_bounds (a b : Z) :
  0 <= a -> 0 < b -> a / b <= nearest_even a b <= a / b + 1.
Proof.
  intros Ha Hb. unfold nearest_even.
  destruct (2 * (a mod b) ?= b); [destruct (Z.even (a / b))| |]; lia.
Qed.

(** The nearest Number is a binary64 number. *)
Lemma of_ratio_binary64 (neg : bool) (n d : Z) (x : t) :
  0 < d -> of_ratio neg n d = Some x -> is_binary64 x = true.
Proof.
  intros Hd. unfold of_ratio.
  destruct (Z.leb_spec n 0) as [_|Hn]; [intros [= <-]; reflexivity|].
  cbv zeta. set (L := log2_ratio n d). set (E := Z.max (-1074) (L - 52)).
  set (a := scale_num n E). set (b := scale_den d E).
  destruct (Z.leb_spec 1024 (Z.log2 (nearest_even a b) + E)) as [_|Hov]; [discriminate|].
  intros [= <-].
  assert (Ha : 0 <= a) by (unfold a, scale_num; pose proof (pow2_pos (Z.max 0 (- E))); nia).
  assert (Hb : 0 < b) by (unfold b, scale_den; pose proof (pow2_pos (Z.max 0 E)); nia).
  assert (Hq : a / b < 2 ^ 53).
  { apply Z.div_lt_upper_bound; [exact Hb|].
    pose proof (log2_ratio_above n d Hn Hd) as Habove. fold L in Habove.
    assert (Hge : ratio_ge n d (E + 53) = false).
    { destruct (ratio_ge n d (E + 53)) eqn:Hge; [|reflexivity].
      rewrite (ratio_ge_mono n d (E + 53) (L + 1)) in Habove
        by (unfold E; lia || assumption).
      discriminate. }
    apply not_true_iff_false in Hge.
    rewrite (ratio_ge_iff n d (E + 53) (Z.abs E)) in Hge by lia.
    apply Z.nle_gt in Hge. unfold a, b, scale_num, scale_den.
    destruct (Z.le_gt_cases 0 E) as [HE|HE].
    - rewrite (Z.max_r 0 E), (Z.max_l 0 (- E)) by lia.
      rewrite Z.abs_eq in Hge by lia.
      replace (E + (E + 53)) with (E + (E + 53)) in Hge by lia.
      rewrite Z.pow_0_r, Z.mul_1_r.
      rewrite !Z.pow_add_r in Hge by lia.
      pose proof (pow2_pos E HE) as HP.
      assert (n * 2 ^ E < (d * 2 ^ E * 2 ^ 53) * 2 ^ E) by lia.
      apply Z.mul_lt_mono_pos_r in H; [lia | exact HP].
    - rewrite (Z.max_l 0 E), (Z.max_r 0 (- E)) by lia.
      rewrite Z.abs_neq in Hge by lia.
      replace (- E + (E + 53)) with 53 in Hge by lia.
      rewrite Z.pow_0_r, Z.mul_1_r. lia. }
  pose proof (nearest_even_bounds a b Ha Hb) as [Hlo Hhi].
  assert (H0 : 0 <= a / b) by (apply Z.div_pos; lia).
  set (M := nearest_even a b) in *.
  unfold normal. destruct M as [|p|p] eqn:EM; [reflexivity| |lia].
  pose proof (strip_spec p E) as Hs. destruct (strip p E) as [q e'].
  destruct Hs as (Hp & He & Hodd).
  assert (Hlog : Z.log2 (Z.pos p) = e' - E + Z.log2 (Z.pos q))
    by (rewrite Hp; apply Z.log2_mul_pow2; lia).
  unfold is_binary64. cbn [mantissa exponent].
  change (Z.pos q =? 0) with false. cbv iota.
  assert (Hq53 : Z.pos q < 2 ^ 53).
  { assert (Z.pos q <= Z.pos p).
    { rewrite Hp. pose proof (pow2_pos (e' - E) ltac:(lia)). nia. }
    assert (Z.pos q <> 2 ^ 53) by (intros Heq; rewrite Heq in Hodd; discriminate).
    lia. }
  apply Z.log2_lt_pow2 in Hq53; [|lia].
  rewrite Hodd.
  repeat (apply andb_true_iff; split); try reflexivity.
  - now apply Z.ltb_lt.
  - apply Z.leb_le. unfold E in *. lia.
  - apply Z.ltb_lt. lia.
Qed.

Lemma of_decimal_binary64 (neg : bool) (s e : Z) (x : t) :
  of_decimal neg s e = Some x -> is_binary64 x = true.
Proof.
  unfold of_decimal. destruct (Z.leb_spec 0 e).
  - apply of_ratio_binary64. lia.
  - apply of_ratio_binary64. apply Z.pow_pos_nonneg; lia.
Qed.

(** *** A Number is the nearest one to itself *)

Lemma nearest_even_exact (q b : Z) : 0 < b -> nearest_even (q * b) b = q.
Proof.
  intros Hb. unfold nearest_even.
  rewrite Z.mod_mul, Z.div_mul by lia.
  change (2 * 0) with 0. now rewrite (proj2 (Z.compare_lt_iff 0 b) Hb).
Qed.

Lemma normal_double (neg : bool) (m e : Z) :
  0 < m -> normal neg (2 * m) e = normal neg m (e + 1).
Proof. destruct m as [|p|p]; intros H; try lia. reflexivity. Qed.

Lemma normal_shift (neg : bool) (m e : Z) (j : nat) :
  0 < m -> normal neg (m * 2 ^ Z.of_nat j) e = normal neg m (e + Z.of_nat j).
Proof.
  intros Hm. revert e. induction j as [|j IH]; intros e.
  - simpl. now rewrite Z.mul_1_r, Z.add_0_r.
  - rewrite Nat2Z.inj_succ, Z.pow_succ_r by lia.
    replace (m * (2 * 2 ^ Z.of_nat j)) with (2 * (m * 2 ^ Z.of_nat j)) by lia.
    rewrite normal_double by (pose proof (pow2_pos (Z.of_nat j)); nia).
    rewrite IH. f_equal. lia.
Qed.

Lemma normal_odd (neg : bool) (m e : Z) :
  0 < m -> Z.odd m = true -> normal neg m e = make neg m e.
Proof.
  destruct m as [|p|p]; intros H Ho; try lia.
  destruct p; [reflexivity | discriminate Ho | reflexivity].
Qed.

(** The parts of [is_binary64] for a Number that is not zero. *)
Lemma is_binary64_inv (x : t) :
  is_binary64 x = true -> mantissa x <> 0 ->
  0 < mantissa x /\ Z.odd (mantissa x) = true /\ Z.log2 (mantissa x) < 53 /\
  -1074 <= exponent x /\ Z.log2 (mantissa x) + exponent x < 1024.
Proof.
  unfold is_binary64. intros H Hm.
  destruct (Z.eqb_spec (mantissa x) 0) as [E|_]; [contradiction|].
  repeat (apply andb_true_iff in H as [H ?]).
  repeat split; try lia; assumption.
Qed.

(** The quotient may have any common factor [c]. *)
Lemma of_ratio_exact (neg : bool) (c m e : Z) :
  0 < c -> is_binary64 (make neg m e) = true -> m <> 0 ->
  of_ratio neg (c * (m * 2 ^ Z.max 0 e)) (c * 2 ^ Z.max 0 (- e)) = Some (make neg m e).
Proof.
  intros Hc Hx Hm0.
  destruct (is_binary64_inv _ Hx Hm0) as (Hm & Hodd & Hl & He & Hle). simpl in *.
  pose proof (Z.log2_spec m Hm) as [Hm1 Hm2].
  pose proof (Z.log2_nonneg m) as HL.
  set (L := Z.log2 m) in *.
  set (a := Z.max 0 e). set (b := Z.max 0 (- e)).
  assert (Hab : 0 <= a /\ 0 <= b /\ a - b = e) by (unfold a, b; lia).
  destruct Hab as (Ha & Hb & Hab).
  pose proof (pow2_pos a Ha) as HPa. pose proof (pow2_pos b Hb) as HPb.
  set (n := c * (m * 2 ^ a)). set (d := c * 2 ^ b).
  assert (Hn : 0 < n) by (unfold n; nia).
  assert (Hd : 0 < d) by (unfold d; nia).
  assert (Hlog : log2_ratio n d = L + e).
  { apply log2_ratio_unique; [exact Hn | exact Hd | |].
    - apply (ratio_ge_iff n d (L + e) (Z.abs (L + e) + 1)); [lia | lia|].
      unfold n, d. set (K := Z.abs (L + e) + 1).
      replace (c * 2 ^ b * 2 ^ (K + (L + e))) with (c * (2 ^ L * 2 ^ (K + a))).
      2:{ rewrite <- !Z.mul_assoc, <- !Z.pow_add_r by lia. do 2 f_equal. lia. }
      replace (c * (m * 2 ^ a) * 2 ^ K) with (c * (m * 2 ^ (K + a))).
      2:{ rewrite <- !Z.mul_assoc, <- !Z.pow_add_r by lia. do 3 f_equal. lia. }
      apply Z.mul_le_mono_nonneg_l; [lia|].
      apply Z.mul_le_mono_nonneg_r; [apply Z.lt_le_incl, pow2_pos; lia | exact Hm1].
    - apply not_true_is_false. intros H.
      apply (ratio_ge_iff n d (L + e + 1) (Z.abs (L + e) + 1)) in H; [|lia|lia].
      unfold n, d in H. set (K := Z.abs (L + e) + 1) in H.
      replace (c * 2 ^ b * 2 ^ (K + (L + e + 1)))
        with (c * (2 ^ Z.succ L * 2 ^ (K + a))) in H.
      2:{ rewrite <- !Z.mul_assoc, <- !Z.pow_add_r by lia. do 2 f_equal. lia. }
      replace (c * (m * 2 ^ a) * 2 ^ K) with (c * (m * 2 ^ (K + a))) in H.
      2:{ rewrite <- !Z.mul_assoc, <- !Z.pow_add_r by lia. do 3 f_equal. lia. }
      apply Z.mul_le_mono_pos_l in H; [|exact Hc].
      apply Z.mul_le_mono_pos_r in H; [lia | apply pow2_pos; lia]. }
  unfold of_ratio. fold a b n d.
  destruct (Z.leb_spec n 0) as [Hle0|_]; [lia|].
  rewrite Hlog. set (E := Z.max (-1074) (L + e - 52)).
  assert (HE : E <= e) by (unfold E; lia).
  assert (Hscale : scale_num n E = (m * 2 ^ (e - E)) * scale_den d E).
  { unfold scale_num, scale_den, n, d.
    transitivity (c * m * 2 ^ (a + Z.max 0 (- E))).
    - rewrite Z.pow_add_r by lia. ring.
    - replace (a + Z.max 0 (- E)) with ((e - E) + b + Z.max 0 E) by lia.
      rewrite !Z.pow_add_r by lia. ring. }
  rewrite Hscale, nearest_even_exact.
  2:{ unfold scale_den. pose proof (pow2_pos (Z.max 0 E)). nia. }
  rewrite Z.log2_mul_pow2 by lia. fold L.
  destruct (Z.leb_spec 1024 (e - E + L + E)) as [Hov|_]; [lia|].
  rewrite <- (Z2Nat.id (e - E)) by lia.
  rewrite normal_shift by exact Hm. rewrite Z2Nat.id by lia.
  rewrite normal_odd by assumption.
  replace (E + (e - E)) with e by lia. reflexivity.
Qed.

Lemma of_ratio_sign (neg : bool) (n d : Z) :
  of_ratio neg n d =
  option_map (fun x => make neg (mantissa x) (exponent x)) (of_ratio false n d).
Proof.
  unfold of_ratio. destruct (n <=? 0); [reflexivity|]. cbv zeta.
  destruct (1024 <=? _); [reflexivity|]. simpl. f_equal.
  unfold normal. destruct (nearest_even _ _) as [|p|p]; try reflexivity.
  now destruct (strip p _).
Qed.

Lemma of_decimal_sign (neg : bool) (s e : Z) :
  of_decimal neg s e =
  option_map (fun x => make neg (mantissa x) (exponent x)) (of_decimal false s e).
Proof. unfold of_decimal. destruct (0 <=? e); apply of_ratio_sign. Qed.

Lemma eqb_eq (x y : t) : eqb x y = true -> x = y.
Proof.
  destruct x as [n m e], y as [n' m' e']. unfold eqb. simpl. intros H.
  apply andb_true_iff in H as [H He]. apply andb_true_iff in H as [Hn Hm].
  apply Bool.eqb_prop in Hn. apply Z.eqb_eq in Hm, He. now subst.
Qed.

Lemma eqb_refl (x : t) : eqb x x = true.
Proof.
  unfold eqb. now rewrite Bool.eqb_reflx, !Z.eqb_refl.
Qed.

(** All the digits of a Number read as the Number. *)
Lemma exact_reads (x : t) :
  is_binary64 x = true -> mantissa x <> 0 -> reads_as x (exact x) = true.
Proof.
  intros Hx Hm.
  assert (Hx' : is_binary64 (make false (mantissa x) (exponent x)) = true)
    by (destruct x; exact Hx).
  pose proof (of_ratio_exact false) as Hexact.
  unfold reads_as, exact. destruct (Z.leb_spec 0 (exponent x)) as [He|He]; cbn [fst snd].
  - replace (_ - _) with 0 by lia. unfold of_decimal. simpl (0 <=? 0).
    cbv iota. specialize (Hexact 1 _ _ ltac:(lia) Hx' Hm).
    rewrite Z.max_r, Z.max_l in Hexact by lia.
    rewrite Z.pow_0_r, !Z.mul_1_l in Hexact. rewrite Z.pow_0_r, Z.mul_1_r.
    rewrite Hexact. apply eqb_refl.
  - replace (_ + exponent x - _) with (exponent x) by lia.
    unfold of_decimal. destruct (Z.leb_spec 0 (exponent x)) as [He'|_]; [lia|].
    specialize (Hexact (5 ^ (- exponent x)) _ _ ltac:(apply Z.pow_pos_nonneg; lia) Hx' Hm).
    rewrite Z.max_l, Z.max_r in Hexact by lia.
    rewrite Z.pow_0_r, Z.mul_1_r, <- Z.pow_mul_l in Hexact.
    rewrite (Z.mul_comm (mantissa x)). change (5 * 2) with 10 in Hexact.
    rewrite Hexact. apply eqb_refl.
Qed.

Lemma shortest_reads (fuel : nat) (x : t) (a b n k : Z) (c : Z * Z) :
  shortest fuel x a b n k = Some c -> reads_as x c = true.
Proof.
  revert k. induction fuel as [|fuel IH]; intros k; [discriminate|]. simpl.
  destruct (List.filter (reads_as x) (candidates a b n k)) as [|c' l] eqn:E.
  - apply IH.
  - intros [= <-].
    assert (H : In c' (List.filter (reads_as x) (candidates a b n k)))
      by (rewrite E; now left).
    apply filter_In in H. tauto.
Qed.

(** What [toString] writes for a Number reads as the Number. *)
Lemma decimal_reads (x : t) :
  is_binary64 x = true -> mantissa x <> 0 -> reads_as x (decimal x) = true.
Proof.
  intros Hx Hm. unfold decimal. destruct (ratio x) as [a b].
  destruct (shortest 17 x a b (magnitude a b) 1) as [c|] eqn:E.
  - exact (shortest_reads _ _ _ _ _ _ _ E).
  - now apply exact_reads.
Qed.

Lemma reads_as_inv (x : t) (s n : Z) :
  reads_as x (s, n) = true -> mantissa x <> 0 ->
  0 < s /\
  forall neg, of_decimal neg s (n - Z.of_nat (String.length (digits s)))
              = Some (make neg (mantissa x) (exponent x)).
Proof.
  unfold reads_as. cbn [fst snd]. intros H Hm.
  destruct (of_decimal false s _) as [y|] eqn:E; [|discriminate].
  apply eqb_eq in H. subst y. split.
  - destruct (Z.ltb_spec 0 s) as [Hs|Hs]; [exact Hs|]. exfalso.
    unfold of_decimal, of_ratio in E.
    destruct (0 <=? _).
    + destruct (Z.leb_spec (s * 10 ^ (n - Z.of_nat (String.length (digits s)))) 0) as [_|Hn].
      * injection E as E. congruence.
      * pose proof (Z.pow_nonneg 10 (n - Z.of_nat (String.length (digits s)))). nia.
    + destruct (Z.leb_spec s 0) as [_|Hn]; [|lia]. injection E as E. congruence.
  - intros neg. rewrite of_decimal_sign, E. reflexivity.
Qed.

End NumberFacts.

(** ** JSON: what [stringify] writes, [parse] reads back *)

Module JsonFacts.
Import Json JsonAux.

#[local] Arguments String.append !s1 s2 /.
#[local] Open Scope string_scope.

(** Structural induction through the lists of an array and an object. *)
Lemma JsValue_ind (P : JsValue -> Prop) :
  P JUndefined -> P JNull -> (forall b, P (JBool b)) ->
  (forall z, P (JNumber z)) -> P JNaN -> (forall n, P (JInfinity n)) ->
  (forall s, P (JString s)) ->
  (forall l, Forall P l -> P (JArray l)) ->
  (forall l, Forall (fun kv => P (snd kv)) l -> P (JObject l)) ->
  forall v, P v.
Proof.
  intros Hu Hn Hb Hz Hnan Hinf Hs Ha Ho.
  fix IH 1. intros [ | | b | z | | n | s | l | l ].
  - exact Hu.
  - exact Hn.
  - apply Hb.
  - apply Hz.
  - exact Hnan.
  - apply Hinf.
  - apply Hs.
  - apply Ha. induction l as [|x l IHl]; constructor; [apply IH | exact IHl].
  - apply Ho. induction l as [|[k x] l IHl]; constructor; [apply IH | exact IHl].
Qed.

Lemma append_assoc (a b c : string) : (a ++ b) ++ c = a ++ (b ++ c).
Proof. induction a as [|x a IH]; simpl; [reflexivity | now rewrite IH]. Qed.

Lemma length_append (a b : string) :
  String.length (a ++ b) = String.length a + String.length b.
Proof. induction a as [|x a IH]; simpl; [reflexivity | now rewrite IH]. Qed.

Lemma append_nil_r (s : string) : s ++ "" = s.
Proof. induction s as [|c s IH]; simpl; [reflexivity | now rewrite IH]. Qed.

Lemma bracket_append (o c : ascii) (body rest : string) :
  String o (body ++ String c "") ++ rest = String o (body ++ String c rest).
Proof. simpl. now rewrite append_assoc. Qed.

Lemma quote_append (s rest : string) :
  quote s ++ rest = String DQUOTE (quote_body s ++ String DQUOTE rest).
Proof. unfold quote. simpl. now rewrite append_assoc. Qed.

(** *** String literals *)

Lemma parse_quote_char (c : ascii) (t : string) :
  parse_string_body (quote_char c ++ t) =
  match parse_string_body t with
  | Some (u, r) => Some (String c u, r)
  | None => None
  end.
Proof.
  destruct c as [[] [] [] [] [] [] [] []]; reflexivity.
Qed.

Lemma parse_quote_body (s rest : string) :
  parse_string_body (quote_body s ++ String DQUOTE rest) = Some (s, rest).
Proof.
  induction s as [|c s IH]; simpl.
  - reflexivity.
  - rewrite append_assoc, parse_quote_char, IH. reflexivity.
Qed.

Lemma quote_char_length (c : ascii) : 1 <= String.length (quote_char c).
Proof. destruct c as [[] [] [] [] [] [] [] []]; simpl; lia. Qed.

(** *** Numbers *)

(** Runs of digits. *)

Lemma read_digits_append (ds rest : string) :
  all_digits ds = true -> starts is_digit rest = false ->
  read_digits (ds ++ rest) = (ds, rest).
Proof.
  intros Hds Hrest. induction ds as [|c ds IH]; simpl in *.
  - destruct rest as [|c r]; [reflexivity|]. simpl in *. now rewrite Hrest.
  - apply andb_true_iff in Hds as [Hc Hds]. now rewrite Hc, IH.
Qed.

Lemma all_digits_append (a b : string) :
  all_digits (a ++ b) = all_digits a && all_digits b.
Proof.
  induction a as [|c a IH]; simpl; [reflexivity|]. now rewrite IH, andb_assoc.
Qed.

Lemma all_digits_zeros (n : nat) : all_digits (Number.zeros n) = true.
Proof. induction n; simpl; auto. Qed.

Lemma all_digits_string_of_uint (d : uint) : all_digits (string_of_uint d) = true.
Proof. induction d; simpl; auto. Qed.

Lemma all_digits_digits (s : Z) : all_digits (Number.digits s) = true.
Proof. apply all_digits_string_of_uint. Qed.

Lemma all_digits_substring (i n : nat) (s : string) :
  all_digits s = true -> all_digits (substring i n s) = true.
Proof.
  revert i n. induction s as [|c s IH]; intros i n H.
  - now destruct i, n.
  - simpl in H. apply andb_true_iff in H as [Hc Hs].
    destruct i, n; simpl; auto. rewrite Hc. simpl. now apply IH.
Qed.

Lemma decimal_from_append (acc : Z) (a b : string) :
  decimal_from acc (a ++ b) = decimal_from (decimal_from acc a) b.
Proof. revert acc. induction a as [|c a IH]; intros acc; simpl; auto. Qed.

Lemma decimal_from_shift (acc : Z) (ds : string) :
  decimal_from acc ds =
  (acc * 10 ^ Z.of_nat (String.length ds) + decimal_value ds)%Z.
Proof.
  unfold decimal_value. revert acc. induction ds as [|c ds IH]; intros acc.
  - simpl. lia.
  - cbn [decimal_from String.length]. rewrite IH, (IH (0 * 10 + _)%Z).
    rewrite Nat2Z.inj_succ, Z.pow_succ_r by lia. ring.
Qed.

Lemma decimal_value_append (a b : string) :
  decimal_value (a ++ b) =
  (decimal_value a * 10 ^ Z.of_nat (String.length b) + decimal_value b)%Z.
Proof.
  unfold decimal_value at 1. rewrite decimal_from_append.
  now rewrite decimal_from_shift.
Qed.

Lemma decimal_value_zeros (n : nat) : decimal_value (Number.zeros n) = 0%Z.
Proof. unfold decimal_value. induction n; simpl; auto. Qed.

Lemma length_zeros (n : nat) : String.length (Number.zeros n) = n.
Proof. induction n; simpl; auto. Qed.

Lemma decimal_from_of_uint_acc (d : uint) (acc : positive) :
  decimal_from (Zpos acc) (string_of_uint d) = Zpos (Pos.of_uint_acc d acc).
Proof.
  revert acc. induction d; intros acc; simpl; try reflexivity;
    rewrite <- IHd; f_equal; lia.
Qed.

Lemma decimal_value_string_of_uint (d : uint) :
  decimal_value (string_of_uint d) = Z.of_N (N.of_uint d).
Proof.
  unfold decimal_value, N.of_uint.
  induction d; simpl; try reflexivity; try exact IHd;
    apply (decimal_from_of_uint_acc d).
Qed.

Lemma decimal_value_digits (s : Z) : (0 <= s)%Z -> decimal_value (Number.digits s) = s.
Proof.
  intros H. unfold Number.digits.
  rewrite decimal_value_string_of_uint, DecimalN.Unsigned.of_to. lia.
Qed.

(** The digits of a positive integer start with a digit that is not 0. *)
Lemma to_uint_normal (n : N) : unorm (N.to_uint n) = N.to_uint n.
Proof. rewrite <- (Unsigned.to_of (N.to_uint n)), Unsigned.of_to. reflexivity. Qed.

Lemma digits_head (s : Z) :
  (0 < s)%Z ->
  exists c r, Number.digits s = String c r /\ is_digit c = true /\ Ascii.eqb c "0" = false.
Proof.
  intros Hs. unfold Number.digits. destruct s as [|p|p]; try lia.
  change (Z.to_N (Z.pos p)) with (Npos p).
  pose proof (to_uint_normal (Npos p)) as Hn.
  change (N.to_uint (Npos p)) with (Pos.to_uint p) in *.
  pose proof (DecimalPos.Unsigned.to_uint_nonzero p) as Hz.
  pose proof (DecimalPos.Unsigned.to_uint_nonnil p) as Hnil.
  destruct (Pos.to_uint p) as [|d|d|d|d|d|d|d|d|d|d] eqn:E;
    try (simpl; eexists _, _; split; [reflexivity | split; reflexivity]).
  - now destruct Hnil.
  - exfalso. destruct (nzhead (D0 d)) as [| | | | | | | | | |] eqn:En.
    1:{ apply unorm_0 in En. congruence. }
    all: rewrite unorm_nzhead in Hn by (rewrite En; discriminate);
      exact (nzhead_nonzero _ _ Hn).
Qed.

Lemma digits_nonempty (s : Z) :
  exists c r, Number.digits s = String c r /\ is_digit c = true.
Proof.
  destruct (Z.ltb_spec 0 s) as [Hs|Hs].
  - destruct (digits_head s Hs) as (c & r & H & Hc & _). eauto.
  - unfold Number.digits. replace (Z.to_N s) with 0%N by lia.
    exists "0"%char, "". split; reflexivity.
Qed.

Lemma leading_zero_head (c : ascii) (r : string) :
  Ascii.eqb c "0" = false -> leading_zero (String c r) = false.
Proof. intros H. destruct r; simpl; [reflexivity | exact H]. Qed.

(** Substrings. *)

Lemma substring_split (n : nat) (s : string) :
  n <= String.length s ->
  substring 0 n s ++ substring n (String.length s - n) s = s.
Proof.
  revert n. induction s as [|c s IH]; intros n Hn.
  - destruct n; reflexivity.
  - destruct n as [|n]; simpl.
    + f_equal. clear. induction s as [|c s IH]; simpl; [reflexivity | now rewrite IH].
    + f_equal. apply IH. simpl in Hn. lia.
Qed.

Lemma length_substring (i n : nat) (s : string) :
  i + n <= String.length s -> String.length (substring i n s) = n.
Proof.
  revert i n. induction s as [|c s IH]; intros i n H; simpl in H.
  - destruct i, n; simpl; lia.
  - destruct i, n; simpl; try reflexivity; try (apply IH; lia).
    f_equal. apply IH. lia.
Qed.

(** The parts of a number. *)

Lemma read_fraction_none (s : string) :
  continues_number s = false -> read_fraction s = Some ("", s).
Proof.
  destruct s as [|c r]; [reflexivity|]. unfold continues_number, number_char.
  intros H. apply orb_false_iff in H as [H _]. apply orb_false_iff in H as [H _].
  apply orb_false_iff in H as [_ H]. simpl. now rewrite H.
Qed.

Lemma read_exponent_none (s : string) :
  continues_number s = false -> read_exponent s = Some (0%Z, s).
Proof.
  destruct s as [|c r]; [reflexivity|]. unfold continues_number, number_char.
  intros H. apply orb_false_iff in H as [H HE]. apply orb_false_iff in H as [_ He].
  simpl. now rewrite He, HE.
Qed.

Lemma continues_number_digit (s : string) :
  continues_number s = false -> starts is_digit s = false.
Proof.
  destruct s as [|c r]; [reflexivity|]. unfold continues_number, number_char. simpl.
  intros H. apply orb_false_iff in H as [H _]. apply orb_false_iff in H as [H _].
  now apply orb_false_iff in H as [H _].
Qed.

Lemma read_fraction_digits (frac rest : string) :
  all_digits frac = true -> frac <> "" -> starts is_digit rest = false ->
  read_fraction (String "." (frac ++ rest)) = Some (frac, rest).
Proof.
  intros Hd Hne Hrest. unfold read_fraction.
  change (Ascii.eqb "." ".") with true. cbv iota.
  rewrite read_digits_append by assumption. now destruct frac.
Qed.

Lemma read_exponent_digits (e : Z) (rest : string) :
  starts is_digit rest = false ->
  read_exponent
    (String "e" (String (if (e <? 0)%Z then "-"%char else "+"%char)
                   (Number.digits (Z.abs e) ++ rest)))
  = Some (e, rest).
Proof.
  intros Hrest. unfold read_exponent.
  change (Ascii.eqb "e" "e" || Ascii.eqb "e" "E") with true. cbv iota.
  destruct (digits_nonempty (Z.abs e)) as (c & r & Hd & Hc).
  pose proof (all_digits_digits (Z.abs e)) as Hall.
  pose proof (decimal_value_digits (Z.abs e) ltac:(lia)) as Hval.
  destruct (Z.ltb_spec e 0) as [He|He].
  - change (Ascii.eqb "-" "-") with true. cbv iota.
    rewrite read_digits_append by assumption. rewrite Hd, <- Hd, Hval.
    f_equal. f_equal. lia.
  - change (Ascii.eqb "+" "-") with false. change (Ascii.eqb "+" "+") with true. cbv iota.
    rewrite read_digits_append by assumption. rewrite Hd, <- Hd, Hval.
    f_equal. f_equal. lia.
Qed.

(** The parts put together. *)
Lemma parse_unsigned_parts (neg : bool) (int tail frac tail2 rest : string) (e : Z) :
  all_digits int = true -> int <> "" -> leading_zero int = false ->
  starts is_digit tail = false ->
  read_fraction tail = Some (frac, tail2) ->
  read_exponent tail2 = Some (e, rest) ->
  parse_unsigned neg (int ++ tail) =
  Some (number_value neg (decimal_value (int ++ frac))
          (e - Z.of_nat (String.length frac)), rest).
Proof.
  intros Hd Hne Hz Htail Hfrac Hexp. unfold parse_unsigned.
  rewrite read_digits_append by assumption.
  destruct int as [|c r]; [congruence|].
  now rewrite Hz, Hfrac, Hexp.
Qed.

(** The four shapes of [render]. *)
Lemma shape_integer (neg : bool) (s : Z) (rest : string) (j : nat) :
  (0 < s)%Z -> continues_number rest = false ->
  parse_unsigned neg ((Number.digits s ++ Number.zeros j) ++ rest) =
  Some (number_value neg s (Z.of_nat j), rest).
Proof.
  intros Hs Hrest. set (ds := Number.digits s).
  destruct (digits_head s Hs) as (c & r & Hds & Hc & Hc0). fold ds in Hds.
  rewrite (parse_unsigned_parts neg _ rest "" rest rest 0%Z).
  - rewrite append_nil_r, decimal_value_append, decimal_value_zeros, length_zeros.
    unfold ds. rewrite decimal_value_digits by lia.
    f_equal. f_equal. unfold number_value, Number.of_decimal.
    simpl (String.length ""). change (0 - Z.of_nat 0)%Z with 0%Z.
    change (0 <=? 0)%Z with true. cbv iota.
    destruct (Z.leb_spec 0 (Z.of_nat j)) as [_|H]; [|lia].
    now rewrite Z.pow_0_r, Z.add_0_r, Z.mul_1_r.
  - unfold ds. now rewrite all_digits_append, all_digits_digits, all_digits_zeros.
  - rewrite Hds. discriminate.
  - rewrite Hds. simpl. now apply leading_zero_head.
  - now apply continues_number_digit.
  - now apply read_fraction_none.
  - now apply read_exponent_none.
Qed.

Lemma shape_point (neg : bool) (s : Z) (rest : string) (n : nat) :
  (0 < s)%Z -> continues_number rest = false ->
  0 < n < String.length (Number.digits s) ->
  parse_unsigned neg
    ((substring 0 n (Number.digits s) ++ "."
      ++ substring n (String.length (Number.digits s) - n) (Number.digits s)) ++ rest) =
  Some (number_value neg s (Z.of_nat n - Z.of_nat (String.length (Number.digits s))), rest).
Proof.
  intros Hs Hrest Hn. set (ds := Number.digits s) in *.
  set (k := Z.of_nat (String.length ds)).
  destruct (digits_head s Hs) as (c & r & Hds & Hc & Hc0). fold ds in Hds.
  pose proof (all_digits_digits s) as Hall. fold ds in Hall.
  set (pre := substring 0 n ds). set (post := substring n (String.length ds - n) ds).
  assert (Hsplit : pre ++ post = ds) by (apply substring_split; lia).
  assert (Hlen : String.length post = String.length ds - n)
    by (apply length_substring; lia).
  assert (Hpre : exists r', pre = String c r').
  { unfold pre. rewrite Hds. destruct n as [|n']; [lia|]. simpl. eauto. }
  destruct Hpre as [r' Hpre].
  rewrite append_assoc. change ("." ++ post) with (String "." post).
  change (String "." post ++ rest) with (String "." (post ++ rest)).
  rewrite (parse_unsigned_parts neg pre _ post rest rest 0%Z).
  - rewrite Hsplit. unfold ds at 1. rewrite decimal_value_digits by lia.
    f_equal. f_equal. f_equal. unfold k. lia.
  - now apply all_digits_substring.
  - rewrite Hpre. discriminate.
  - rewrite Hpre. now apply leading_zero_head.
  - reflexivity.
  - apply read_fraction_digits.
    + now apply all_digits_substring.
    + intros E. rewrite E in Hlen. simpl in Hlen. lia.
    + now apply continues_number_digit.
  - now apply read_exponent_none.
Qed.

Lemma shape_small (neg : bool) (s : Z) (rest : string) (j : nat) :
  (0 < s)%Z -> continues_number rest = false ->
  parse_unsigned neg (("0." ++ Number.zeros j ++ Number.digits s) ++ rest) =
  Some (number_value neg s (- Z.of_nat j - Z.of_nat (String.length (Number.digits s))),
        rest).
Proof.
  intros Hs Hrest. set (ds := Number.digits s).
  set (k := Z.of_nat (String.length ds)).
  destruct (digits_head s Hs) as (c & r & Hds & Hc & Hc0). fold ds in Hds.
  change (("0." ++ Number.zeros j ++ ds) ++ rest)
    with ("0" ++ String "." ((Number.zeros j ++ ds) ++ rest)).
  rewrite (parse_unsigned_parts neg "0" _ (Number.zeros j ++ ds) rest rest 0%Z).
  - change ("0" ++ Number.zeros j ++ ds) with (String "0" (Number.zeros j ++ ds)).
    change (decimal_value (String "0" (Number.zeros j ++ ds)))
      with (decimal_value (Number.zeros j ++ ds)).
    rewrite decimal_value_append, decimal_value_zeros, length_append, length_zeros.
    unfold ds at 2. rewrite decimal_value_digits by lia.
    f_equal. f_equal. f_equal. unfold k. lia.
  - reflexivity.
  - discriminate.
  - reflexivity.
  - reflexivity.
  - apply read_fraction_digits.
    + unfold ds. now rewrite all_digits_append, all_digits_zeros, all_digits_digits.
    + rewrite Hds. destruct (Number.zeros j); discriminate.
    + now apply continues_number_digit.
  - now apply read_exponent_none.
Qed.

Lemma shape_exponent (neg : bool) (s : Z) (rest : string) (e : Z) :
  (0 < s)%Z -> continues_number rest = false ->
  parse_unsigned neg
    (match Number.digits s with
     | String c EmptyString =>
         String c (String "e" (String (if (e <? 0)%Z then "-"%char else "+"%char)
                                 (Number.digits (Z.abs e))))
     | String c r =>
         String c (String "." (r ++ String "e"
                                 (String (if (e <? 0)%Z then "-"%char else "+"%char)
                                    (Number.digits (Z.abs e)))))
     | EmptyString => EmptyString
     end ++ rest) =
  Some (number_value neg s (e + 1 - Z.of_nat (String.length (Number.digits s))), rest).
Proof.
  intros Hs Hrest. set (ds := Number.digits s).
  set (k := Z.of_nat (String.length ds)).
  destruct (digits_head s Hs) as (c & r & Hds & Hc & Hc0). fold ds in Hds.
  pose proof (all_digits_digits s) as Hall. fold ds in Hall.
  pose proof (decimal_value_digits s ltac:(lia)) as Hval. fold ds in Hval.
  pose proof (continues_number_digit rest Hrest) as Hrest'.
  unfold k. rewrite Hds in *. clear Hds.
  simpl in Hall. apply andb_true_iff in Hall as [_ Hall].
  set (sg := if (e <? 0)%Z then "-"%char else "+"%char).
  set (ex := Number.digits (Z.abs e)).
  assert (Hex : read_exponent (String "e" (String sg (ex ++ rest))) = Some (e, rest))
    by now apply read_exponent_digits.
  destruct r as [|c' r'].
  - change (String c (String "e" (String sg ex)) ++ rest)
      with (String c "" ++ String "e" (String sg (ex ++ rest))).
    rewrite (parse_unsigned_parts neg (String c "") (String "e" (String sg (ex ++ rest)))
               "" (String "e" (String sg (ex ++ rest))) rest e).
    + rewrite append_nil_r, Hval. f_equal. f_equal. f_equal. simpl. lia.
    + simpl. now rewrite Hc.
    + discriminate.
    + reflexivity.
    + reflexivity.
    + reflexivity.
    + exact Hex.
  - set (r := String c' r') in *.
    change (String c (String "." (r ++ String "e" (String sg ex))) ++ rest)
      with (String c "" ++ String "." ((r ++ String "e" (String sg ex)) ++ rest)).
    rewrite (append_assoc r).
    change (String "e" (String sg ex) ++ rest) with (String "e" (String sg (ex ++ rest))).
    rewrite (parse_unsigned_parts neg (String c "")
               (String "." (r ++ String "e" (String sg (ex ++ rest))))
               r (String "e" (String sg (ex ++ rest))) rest e).
    + change (String c "" ++ r) with (String c r). rewrite Hval.
      f_equal. f_equal. f_equal. simpl String.length. lia.
    + simpl. now rewrite Hc.
    + discriminate.
    + reflexivity.
    + reflexivity.
    + apply read_fraction_digits; [exact Hall | discriminate | reflexivity].
    + exact Hex.
Qed.


(** What [render] writes for the digits [s] and the position [n] reads as
    [s * 10 ^ (n - k)]. *)
Lemma parse_unsigned_render (neg : bool) (s n : Z) (rest : string) :
  (0 < s)%Z -> continues_number rest = false ->
  parse_unsigned neg (Number.render s n ++ rest) =
  Some (number_value neg s (n - Z.of_nat (String.length (Number.digits s))), rest).
Proof.
  intros Hs Hrest.
  destruct (digits_head s Hs) as (c & r & Hds & _).
  unfold Number.render. cbv zeta.
  set (ds := Number.digits s) in *.
  set (k := Z.of_nat (String.length ds)).
  assert (Hk : (1 <= k)%Z) by (unfold k; rewrite Hds; simpl String.length; lia).
  assert (Hexp : forall e, e = (n - 1)%Z -> (e + 1 - k = n - k)%Z) by (intros; lia).
  destruct ((k <=? n)%Z && (n <=? 21)%Z) eqn:E1.
  { apply andb_true_iff in E1 as [H1 H2]. apply Z.leb_le in H1, H2.
    rewrite (shape_integer neg s rest _ Hs Hrest). do 3 f_equal. unfold k, ds in *. lia. }
  destruct ((0 <? n)%Z && (n <=? 21)%Z) eqn:E2.
  { apply andb_true_iff in E2 as [H1 H2]. apply Z.ltb_lt in H1. apply Z.leb_le in H2.
    apply andb_false_iff in E1 as [E1|E1]; [apply Z.leb_gt in E1 | apply Z.leb_gt in E1; lia].
    replace (Z.to_nat (k - n)) with (String.length ds - Z.to_nat n) by (unfold k in *; lia).
    rewrite (shape_point neg s rest _ Hs Hrest) by (fold ds; unfold k in *; lia).
    do 3 f_equal. unfold k, ds in *. lia. }
  destruct ((-6 <? n)%Z && (n <=? 0)%Z) eqn:E3.
  { apply andb_true_iff in E3 as [H1 H2]. apply Z.ltb_lt in H1. apply Z.leb_le in H2.
    rewrite (shape_small neg s rest _ Hs Hrest). do 3 f_equal. unfold k, ds in *. lia. }
  unfold k, ds in *.
  rewrite (shape_exponent neg s rest (n - 1) Hs Hrest). do 3 f_equal. lia.
Qed.

Lemma starts_append (P : ascii -> bool) (s t : string) :
  starts P s = true -> starts P (s ++ t) = true.
Proof. destruct s; simpl; [discriminate | auto]. Qed.

Lemma render_start (s n : Z) : starts is_digit (Number.render s n) = true.
Proof.
  destruct (digits_nonempty s) as (c & r & Hds & Hc).
  unfold Number.render. cbv zeta. rewrite Hds.
  destruct ((_ <=? n)%Z && (n <=? 21)%Z).
  { simpl. exact Hc. }
  destruct ((0 <? n)%Z && (n <=? 21)%Z) eqn:E.
  { apply andb_true_iff in E as [E _]. apply Z.ltb_lt in E.
    destruct (Z.to_nat n) as [|n'] eqn:En; [lia|]. simpl. exact Hc. }
  destruct ((-6 <? n)%Z && (n <=? 0)%Z); [reflexivity|].
  destruct r; simpl; exact Hc.
Qed.

Lemma is_digit_not_minus (c : ascii) : is_digit c = true -> Ascii.eqb c "-" = false.
Proof.
  intros H. destruct (Ascii.eqb_spec c "-") as [->|_]; [discriminate H | reflexivity].
Qed.

Lemma parse_number_digit (t : string) :
  starts is_digit t = true -> parse_number t = parse_unsigned false t.
Proof.
  destruct t as [|c r]; [discriminate|]. simpl. intros H.
  now rewrite (is_digit_not_minus c H).
Qed.

(** [toString] of a Number reads as the Number. *)
Lemma parse_number_toString (x : Number.t) (rest : string) :
  Number.is_binary64 x = true -> Number.is_negative_zero x = false ->
  continues_number rest = false ->
  parse_number (Number.toString x ++ rest) = Some (JNumber x, rest).
Proof.
  intros Hx Hnz Hrest. unfold Number.toString.
  destruct (Z.eqb_spec (Number.mantissa x) 0) as [Hm|Hm].
  - destruct x as [neg m e]. simpl in Hm. subst m.
    unfold Number.is_binary64 in Hx. simpl in Hx. apply Z.eqb_eq in Hx. subst e.
    unfold Number.is_negative_zero in Hnz. simpl in Hnz. rewrite andb_true_r in Hnz.
    subst neg.
    change (parse_number ("0" ++ rest)) with (parse_unsigned false ("0" ++ rest)).
    rewrite (parse_unsigned_parts false "0" rest "" rest rest 0%Z);
      [reflexivity | reflexivity | discriminate | reflexivity | | |].
    + now apply continues_number_digit.
    + now apply read_fraction_none.
    + now apply read_exponent_none.
  - pose proof (NumberFacts.decimal_reads x Hx Hm) as Hreads.
    destruct (Number.decimal x) as [s n].
    destruct (NumberFacts.reads_as_inv x s n Hreads Hm) as [Hs Hval].
    assert (Hparse : forall neg,
               parse_unsigned neg (Number.render s n ++ rest) =
               Some (JNumber (Number.make neg (Number.mantissa x) (Number.exponent x)),
                     rest)).
    { intros neg. rewrite parse_unsigned_render by assumption.
      unfold number_value. now rewrite Hval. }
    destruct x as [[] m e]; cbn [Number.negative Number.mantissa Number.exponent] in *.
    + change (String "-" (Number.render s n) ++ rest)
        with (String "-" (Number.render s n ++ rest)).
      exact (Hparse true).
    + rewrite parse_number_digit by apply starts_append, render_start.
      exact (Hparse false).
Qed.

Lemma toString_start (x : Number.t) : starts value_start (Number.toString x) = true.
Proof.
  unfold Number.toString. destruct (_ =? _)%Z; [reflexivity|].
  destruct (Number.decimal x) as [s n]. destruct (Number.negative x); [reflexivity|].
  pose proof (render_start s n) as H.
  destruct (Number.render s n) as [|c r]; [discriminate|]. simpl in *.
  unfold value_start. rewrite H. now rewrite !orb_true_r.
Qed.

(** *** Values *)

Lemma stringify_array (l : list JsValue) :
  stringify (JArray l) = Some (String "[" (join "," (elements l) ++ "]")).
Proof.
  reflexivity.
Qed.

Lemma stringify_object (l : list (string * JsValue)) :
  stringify (JObject l) = Some (String "{" (join "," (members l) ++ "}")).
Proof.
  assert (H : (fix go (l : list (string * JsValue)) : list string :=
                 match l with
                 | [] => []
                 | (k, x) :: r =>
                     match stringify x with
                     | Some t => (quote k ++ ":" ++ t) :: go r
                     | None => go r
                     end
                 end) l = members l).
  { induction l as [|[k x] l IH]; [reflexivity|].
    rewrite IH. unfold members. simpl. destruct (stringify x); reflexivity. }
  unfold stringify at 1; fold stringify. rewrite H. reflexivity.
Qed.

Lemma serializable_array (l : list JsValue) :
  json_serializable (JArray l) = forallb json_serializable l.
Proof. induction l as [|x l IH]; simpl in *; [reflexivity | now rewrite IH]. Qed.

Lemma serializable_object (l : list (string * JsValue)) :
  json_serializable (JObject l) =
  keys_distinct l && forallb (fun kv => json_serializable (snd kv)) l.
Proof.
  simpl. f_equal. induction l as [|[k x] l IH]; simpl; [reflexivity | now rewrite IH].
Qed.

Lemma join_start (P : ascii -> bool) (sep m : string) (ms : list string) :
  starts P m = true -> starts P (join sep (m :: ms)) = true.
Proof. intros H. destruct ms; simpl; [exact H | now apply starts_append]. Qed.

Lemma stringify_start (v : JsValue) (t : string) :
  stringify v = Some t -> starts value_start t = true.
Proof.
  destruct v as [ | | [] | x | | n | s | l | l ]; simpl;
    intros H; inversion H; subst; clear H; try reflexivity.
  apply toString_start.
Qed.

Lemma value_start_not_sep (c : ascii) :
  value_start c = true ->
  is_ws c = false /\ Ascii.eqb c "]" = false /\ Ascii.eqb c "}" = false.
Proof.
  destruct c as [[] [] [] [] [] [] [] []]; intros H;
    solve [discriminate H | repeat split].
Qed.

Lemma skip_ws_start (s : string) :
  starts value_start s = true -> skip_ws s = s.
Proof.
  destruct s as [|c r]; simpl; [reflexivity|]. intros H.
  destruct (value_start_not_sep c H) as [-> _]. reflexivity.
Qed.

Lemma expect_close_start (close : ascii) (s : string) :
  (Ascii.eqb close "]" = true \/ Ascii.eqb close "}" = true) ->
  starts value_start s = true ->
  expect (String close "") (skip_ws s) = None.
Proof.
  intros Hc H. rewrite skip_ws_start by assumption.
  destruct s as [|c r]; simpl in *; [discriminate|].
  destruct (value_start_not_sep c H) as (_ & H1 & H2).
  destruct Hc as [Hc|Hc]; apply Ascii.eqb_eq in Hc; subst close.
  - rewrite Ascii.eqb_sym, H1. reflexivity.
  - rewrite Ascii.eqb_sym, H2. reflexivity.
Qed.

(** One step of [parse_value] on each kind of first character. *)
Lemma parse_value_number (f : nat) (c : ascii) (r : string) :
  (Ascii.eqb c "-" || is_digit c) = true ->
  parse_value (S f) (String c r) = parse_number (String c r).
Proof.
  destruct c as [[] [] [] [] [] [] [] []]; intros H;
    solve [discriminate H | reflexivity].
Qed.

Lemma parse_number_first (c : ascii) (r : string) (res : JsValue * string) :
  parse_number (String c r) = Some res ->
  (Ascii.eqb c "-" || is_digit c) = true.
Proof.
  destruct c as [[] [] [] [] [] [] [] []]; intros H;
    solve [reflexivity | discriminate H].
Qed.

Lemma parse_value_string (f : nat) (r : string) :
  parse_value (S f) (String DQUOTE r) =
  match parse_string_body r with
  | Some (t, r') => Some (JString t, r')
  | None => None
  end.
Proof. reflexivity. Qed.

Lemma parse_value_array (f : nat) (r : string) :
  parse_value (S f) (String "[" r) =
  match expect "]" (skip_ws r) with
  | Some r' => Some (JArray [], r')
  | None =>
      match parse_elements f r with
      | Some (l, r') => Some (JArray l, r')
      | None => None
      end
  end.
Proof. reflexivity. Qed.

Lemma parse_value_object (f : nat) (r : string) :
  parse_value (S f) (String "{" r) =
  match expect "}" (skip_ws r) with
  | Some r' => Some (JObject [], r')
  | None =>
      match parse_members f r with
      | Some (l, r') => Some (JObject (object_of_members l), r')
      | None => None
      end
  end.
Proof. reflexivity. Qed.

Lemma parse_elements_step (f : nat) (s : string) :
  parse_elements (S f) s =
  match parse_value f s with
  | None => None
  | Some (v, r) =>
      match skip_ws r with
      | EmptyString => None
      | String c r' =>
          if Ascii.eqb c "," then
            match parse_elements f r' with
            | Some (l, r'') => Some (v :: l, r'')
            | None => None
            end
          else if Ascii.eqb c "]" then Some ([v], r')
          else None
      end
  end.
Proof. reflexivity. Qed.

Lemma parse_members_step (f : nat) (s : string) :
  parse_members (S f) s =
  match expect (String DQUOTE "") (skip_ws s) with
  | None => None
  | Some s1 =>
      match parse_string_body s1 with
      | None => None
      | Some (k, s2) =>
          match expect ":" (skip_ws s2) with
          | None => None
          | Some s3 =>
              match parse_value f s3 with
              | None => None
              | Some (v, r) =>
                  match skip_ws r with
                  | EmptyString => None
                  | String c r' =>
                      if Ascii.eqb c "," then
                        match parse_members f r' with
                        | Some (l, r'') => Some ((k, v) :: l, r'')
                        | None => None
                        end
                      else if Ascii.eqb c "}" then Some ([(k, v)], r')
                      else None
                  end
              end
          end
      end
  end.
Proof. reflexivity. Qed.

Lemma need_array (l : list JsValue) : need (JArray l) = S (need_items l).
Proof. reflexivity. Qed.

Lemma need_object (l : list (string * JsValue)) : need (JObject l) = S (need_props l).
Proof.
  simpl. f_equal. induction l as [|[k x] l IH]; simpl; [reflexivity | now rewrite IH].
Qed.

Lemma need_pos (v : JsValue) : 1 <= need v.
Proof. destruct v; simpl; lia. Qed.

Lemma serializable_stringify (v : JsValue) :
  json_serializable v = true -> exists t, stringify v = Some t.
Proof. destruct v as [ | | [] | | | | | | ]; simpl; try discriminate; eauto. Qed.

Lemma parse_elements_ok (l : list JsValue) :
  Forall reads_back l -> l <> [] ->
  forallb json_serializable l = true ->
  forall f rest, need_items l <= f ->
  parse_elements f (join "," (elements l) ++ String "]" rest) = Some (l, rest).
Proof.
  induction 1 as [|x l Hx Hl IH]; [congruence|].
  intros _ Hs f rest Hf. simpl in Hs. apply andb_true_iff in Hs as [Hsx Hsl].
  destruct (serializable_stringify x Hsx) as [tx Htx].
  simpl in Hf. destruct f as [|f]; [lia|].
  rewrite parse_elements_step. unfold elements in *. simpl map. rewrite Htx. simpl default.
  destruct l as [|y l].
  - simpl join. rewrite (Hx Hsx tx Htx) by (reflexivity || lia).
    reflexivity.
  - change (join "," (tx :: map (fun x => default "null" (stringify x)) (y :: l)))
      with (tx ++ "," ++ join "," (map (fun x => default "null" (stringify x)) (y :: l))).
    rewrite append_assoc.
    change (("," ++ ?a) ++ ?b) with (String "," (a ++ b)).
    rewrite (Hx Hsx tx Htx) by (reflexivity || lia).
    simpl skip_ws. simpl Ascii.eqb. cbv iota.
    rewrite IH; [reflexivity | congruence | assumption | simpl in *; lia].
Qed.

Lemma expect_head (c : ascii) (r : string) :
  is_ws c = false -> expect (String c "") (skip_ws (String c r)) = Some r.
Proof. intros H. simpl. rewrite H. simpl. now rewrite Ascii.eqb_refl. Qed.

Lemma parse_members_ok (l : list (string * JsValue)) :
  Forall (fun kv => reads_back (snd kv)) l -> l <> [] ->
  forallb (fun kv => json_serializable (snd kv)) l = true ->
  forall f rest, need_props l <= f ->
  parse_members f (join "," (members l) ++ String "}" rest) = Some (l, rest).
Proof.
  induction 1 as [|[k x] l Hx Hl IH]; [congruence|].
  intros _ Hs f rest Hf. simpl in Hs, Hx. apply andb_true_iff in Hs as [Hsx Hsl].
  destruct (serializable_stringify x Hsx) as [tx Htx].
  simpl in Hf. destruct f as [|f]; [lia|].
  rewrite parse_members_step.
  assert (Hm : members ((k, x) :: l) = (quote k ++ ":" ++ tx) :: members l).
  { unfold members. simpl. rewrite Htx. reflexivity. }
  rewrite Hm. clear Hm.
  assert (Hhead : forall tail,
             (quote k ++ ":" ++ tx) ++ tail =
             String DQUOTE (quote_body k ++ String DQUOTE (String ":" (tx ++ tail)))).
  { intros tail. unfold quote. simpl. f_equal.
    rewrite !append_assoc. simpl. reflexivity. }
  destruct (members l) as [|m ms] eqn:El.
  - assert (l = []) as ->.
    { destruct l as [|[k' y] l]; [reflexivity|]. exfalso.
      simpl in Hsl. apply andb_true_iff in Hsl as [Hsy _].
      destruct (serializable_stringify y Hsy) as [ty Hty].
      unfold members in El. simpl in El. rewrite Hty in El. discriminate. }
    simpl join. rewrite Hhead.
    rewrite expect_head by reflexivity. cbv beta iota.
    rewrite parse_quote_body. cbv beta iota.
    rewrite (expect_head ":") by reflexivity. cbv beta iota.
    rewrite (Hx Hsx tx Htx) by (reflexivity || lia).
    reflexivity.
  - change (join "," ((quote k ++ ":" ++ tx) :: m :: ms))
      with ((quote k ++ ":" ++ tx) ++ "," ++ join "," (m :: ms)).
    rewrite append_assoc, Hhead.
    rewrite expect_head by reflexivity. cbv beta iota.
    rewrite parse_quote_body. cbv beta iota.
    rewrite (expect_head ":") by reflexivity. cbv beta iota.
    change (("," ++ ?a) ++ ?b) with (String "," (a ++ b)).
    rewrite (Hx Hsx tx Htx) by (reflexivity || lia).
    simpl skip_ws. simpl Ascii.eqb. cbv iota.
    rewrite IH; [reflexivity | | assumption | simpl in *; lia].
    intros ->. discriminate El.
Qed.

(** Distinct property names: building the object keeps the members. *)
Lemma set_prop_fresh (k : string) (v : JsValue) (o : list (string * JsValue)) :
  existsb (fun kv => String.eqb k (fst kv)) o = false ->
  set_prop k v o = (o ++ [(k, v)])%list.
Proof.
  induction o as [|[k' v'] o IH]; simpl; [reflexivity|].
  intros H. apply orb_false_iff in H as [H1 H2].
  rewrite H1, IH by assumption. reflexivity.
Qed.

Lemma keys_distinct_snoc (o : list (string * JsValue)) (k : string) (v : JsValue)
    (l : list (string * JsValue)) :
  keys_distinct (o ++ (k, v) :: l)%list = true ->
  existsb (fun kv => String.eqb k (fst kv)) o = false /\
  keys_distinct ((o ++ [(k, v)]) ++ l)%list = true.
Proof.
  intros H. split.
  - induction o as [|[k' v'] o IH]; simpl in *; [reflexivity|].
    apply andb_true_iff in H as [H1 H2].
    rewrite IH by assumption. rewrite orb_false_r.
    apply negb_true_iff in H1. rewrite existsb_app in H1.
    apply orb_false_iff in H1 as [_ H1]. simpl in H1.
    apply orb_false_iff in H1 as [H1 _].
    rewrite String.eqb_sym. exact H1.
  - rewrite <- app_assoc. exact H.
Qed.

Lemma object_of_members_distinct (l : list (string * JsValue)) :
  keys_distinct l = true -> object_of_members l = l.
Proof.
  unfold object_of_members.
  enough (G : forall o, keys_distinct (o ++ l)%list = true ->
                fold_left (fun o kv => set_prop (fst kv) (snd kv) o) l o = (o ++ l)%list)
    by (intros H; apply (G []); exact H).
  induction l as [|[k v] l IH]; intros o H; simpl.
  - now rewrite app_nil_r.
  - destruct (keys_distinct_snoc o k v l H) as [Hk Hd].
    rewrite set_prop_fresh by assumption.
    rewrite IH by assumption. now rewrite <- app_assoc.
Qed.

(** The round trip, for any text that follows the value. *)
Lemma parse_value_stringify (v : JsValue) : reads_back v.
Proof.
  induction v as [ | | b | z | | n | s | l IH | l IH ] using JsValue_ind;
    intros Hs t Ht fuel rest Hf Hrest;
    try discriminate Hs; (destruct fuel as [|f]; [simpl in Hf; lia|]).
  - inversion Ht; subst. reflexivity.
  - destruct b; inversion Ht; subst; reflexivity.
  - inversion Ht; subst. clear Ht.
    simpl in Hs. apply andb_true_iff in Hs as [Hx Hnz]. apply negb_true_iff in Hnz.
    pose proof (parse_number_toString z rest Hx Hnz Hrest) as Hn.
    destruct (Number.toString z ++ rest) as [|c r] eqn:E; [discriminate Hn|].
    rewrite parse_value_number; [exact Hn|].
    exact (parse_number_first c r _ Hn).
  - inversion Ht; subst.
    rewrite quote_append, parse_value_string, parse_quote_body.
    reflexivity.
  - rewrite stringify_array in Ht. inversion Ht; subst. clear Ht.
    rewrite serializable_array in Hs. rewrite need_array in Hf.
    rewrite (bracket_append "[" "]"), parse_value_array.
    destruct l as [|x l].
    + reflexivity.
    + rewrite expect_close_start.
      * rewrite parse_elements_ok; [reflexivity | assumption | congruence | assumption | lia].
      * left; reflexivity.
      * simpl in Hs. apply andb_true_iff in Hs as [Hsx _].
        destruct (serializable_stringify x Hsx) as [tx Htx].
        unfold elements. simpl map. rewrite Htx. simpl default.
        apply starts_append, join_start. exact (stringify_start x tx Htx).
  - rewrite stringify_object in Ht. inversion Ht; subst. clear Ht.
    rewrite serializable_object in Hs. apply andb_true_iff in Hs as [Hd Hs].
    rewrite need_object in Hf.
    rewrite (bracket_append "{" "}"), parse_value_object.
    destruct l as [|[k x] l].
    + reflexivity.
    + rewrite expect_close_start.
      * rewrite parse_members_ok; [|assumption | congruence | assumption | lia].
        rewrite object_of_members_distinct by assumption. reflexivity.
      * right; reflexivity.
      * simpl in Hs. apply andb_true_iff in Hs as [Hsx _].
        destruct (serializable_stringify x Hsx) as [tx Htx].
        replace (members ((k, x) :: l)) with ((quote k ++ ":" ++ tx) :: members l)
          by (unfold members; simpl; now rewrite Htx).
        apply starts_append, join_start. reflexivity.
Qed.

(** The text is at least as long as the fuel the value needs. *)
Lemma toString_length (x : Number.t) : 1 <= String.length (Number.toString x).
Proof.
  pose proof (toString_start x) as H.
  destruct (Number.toString x); [discriminate H | simpl; lia].
Qed.

Lemma length_cons (c : ascii) (s : string) :
  String.length (String c s) = S (String.length s).
Proof. reflexivity. Qed.

Lemma need_items_length (l : list JsValue) :
  Forall (fun v => json_serializable v = true ->
                   forall t, stringify v = Some t -> need v <= String.length t) l ->
  forallb json_serializable l = true ->
  need_items l <= String.length (join "," (elements l)) + 1.
Proof.
  induction 1 as [|x l Hx Hl IH]; intros Hs; [simpl; lia|].
  simpl in Hs. apply andb_true_iff in Hs as [Hsx Hsl].
  destruct (serializable_stringify x Hsx) as [tx Htx].
  specialize (Hx Hsx tx Htx). specialize (IH Hsl).
  unfold elements in *. simpl map. rewrite Htx. simpl default.
  destruct l as [|y l].
  - simpl. lia.
  - change (join "," (tx :: map (fun x => default "null" (stringify x)) (y :: l)))
      with (tx ++ String "," (join "," (map (fun x => default "null" (stringify x)) (y :: l)))).
    rewrite length_append.
    change (need_items (x :: y :: l)) with (S (need x + need_items (y :: l))).
    rewrite length_cons. lia.
Qed.

Lemma need_props_length (l : list (string * JsValue)) :
  Forall (fun kv => json_serializable (snd kv) = true ->
                    forall t, stringify (snd kv) = Some t ->
                    need (snd kv) <= String.length t) l ->
  forallb (fun kv => json_serializable (snd kv)) l = true ->
  need_props l <= String.length (join "," (members l)) + 1.
Proof.
  induction 1 as [|[k x] l Hx Hl IH]; intros Hs; [simpl; lia|].
  simpl in Hs, Hx. apply andb_true_iff in Hs as [Hsx Hsl].
  destruct (serializable_stringify x Hsx) as [tx Htx].
  specialize (Hx Hsx tx Htx). specialize (IH Hsl).
  replace (members ((k, x) :: l)) with ((quote k ++ ":" ++ tx) :: members l)
    by (unfold members; simpl; now rewrite Htx).
  change (need_props ((k, x) :: l)) with (S (need x + need_props l)).
  destruct (members l) as [|m ms].
  - change (join "," [quote k ++ ":" ++ tx]) with (quote k ++ ":" ++ tx).
    rewrite !length_append.
    assert (need_props l <= 1) by (simpl in IH; lia).
    unfold quote. rewrite !length_cons. lia.
  - change (join "," ((quote k ++ ":" ++ tx) :: m :: ms))
      with ((quote k ++ ":" ++ tx) ++ String "," (join "," (m :: ms))).
    rewrite !length_append. unfold quote. rewrite !length_cons. lia.
Qed.

Lemma need_le_length (v : JsValue) :
  json_serializable v = true ->
  forall t, stringify v = Some t -> need v <= String.length t.
Proof.
  induction v as [ | | b | z | | n | s | l IH | l IH ] using JsValue_ind;
    intros Hs t Ht; try discriminate Hs.
  - inversion Ht; subst. simpl. lia.
  - destruct b; inversion Ht; subst; simpl; lia.
  - inversion Ht; subst. apply toString_length.
  - inversion Ht; subst. unfold quote. simpl. lia.
  - rewrite stringify_array in Ht. inversion Ht; subst.
    rewrite serializable_array in Hs. rewrite need_array.
    pose proof (need_items_length l IH Hs).
    rewrite length_cons, length_append, length_cons. lia.
  - rewrite stringify_object in Ht. inversion Ht; subst.
    rewrite serializable_object in Hs. apply andb_true_iff in Hs as [_ Hs].
    rewrite need_object.
    pose proof (need_props_length l IH Hs).
    rewrite length_cons, length_append, length_cons. lia.
Qed.

(** [JSON.parse (JSON.stringify v)] is [v] for every value JSON represents
    exactly. *)
Lemma parse_stringify (v : JsValue) (t : string) :
  json_serializable v = true -> stringify v = Some t -> parse t = Some v.
Proof.
  intros Hs Ht. unfold parse.
  rewrite <- (append_nil_r t) at 2.
  rewrite (parse_value_stringify v Hs t Ht) by
    (reflexivity || (pose proof (need_le_length v Hs t Ht); lia)).
  reflexivity.
Qed.

(** *** The fuel does not matter *)

Lemma skip_ws_length (s : string) : String.length (skip_ws s) <= String.length s.
Proof.
  induction s as [|c s IH]; simpl; [lia|]. destruct (is_ws c); simpl; lia.
Qed.

Lemma expect_length (lit s r : string) :
  expect lit s = Some r -> String.length r <= String.length s.
Proof.
  revert s. induction lit as [|a lit IH]; intros s; simpl.
  - intros [= ->]. lia.
  - destruct s as [|b s]; [discriminate|].
    destruct (Ascii.eqb a b); [|discriminate].
    intros H. apply IH in H. simpl. lia.
Qed.

Lemma parse_string_body_length (s t r : string) :
  parse_string_body s = Some (t, r) -> String.length r < String.length s.
Proof.
  remember (String.length s) as n eqn:Hn.
  revert s t r Hn. induction n as [n IH] using lt_wf_ind. intros s t r Hn.
  destruct s as [|c s]; [discriminate|]. simpl.
  destruct (Ascii.eqb c DQUOTE); [intros [= _ ->]; simpl in Hn; lia|].
  destruct (Ascii.eqb c BACKSLASH).
  - destruct s as [|e s1]; [discriminate|].
    destruct (Ascii.eqb e "u").
    + destruct s1 as [|h1 [|h2 [|h3 [|h4 s2]]]]; try discriminate.
      destruct (hex4 h1 h2 h3 h4) as [k|]; [|discriminate].
      destruct (k <? 256)%N; [|discriminate].
      destruct (parse_string_body s2) as [[t' r']|] eqn:E; [|discriminate].
      intros [= _ ->]. simpl in Hn.
      pose proof (IH (String.length s2) ltac:(lia) s2 t' r eq_refl E). lia.
    + destruct (unescape e); [|discriminate].
      destruct (parse_string_body s1) as [[t' r']|] eqn:E; [|discriminate].
      intros [= _ ->]. simpl in Hn.
      pose proof (IH (String.length s1) ltac:(lia) s1 t' r eq_refl E). lia.
  - destruct (is_control c); [discriminate|].
    destruct (parse_string_body s) as [[t' r']|] eqn:E; [|discriminate].
    intros [= _ ->]. simpl in Hn.
    pose proof (IH (String.length s) ltac:(lia) s t' r eq_refl E). lia.
Qed.

Lemma read_digits_length (s : string) :
  String.length (snd (read_digits s)) <= String.length s /\
  (fst (read_digits s) <> "" -> String.length (snd (read_digits s)) < String.length s).
Proof.
  induction s as [|c s [IH1 IH2]]; simpl; [split; [lia | congruence]|].
  destruct (is_digit c); simpl; [|split; [lia | congruence]].
  destruct (read_digits s) as [d r]. simpl in *. split; intros; lia.
Qed.

Lemma read_fraction_length (s frac r : string) :
  read_fraction s = Some (frac, r) -> String.length r <= String.length s.
Proof.
  unfold read_fraction. destruct s as [|c s]; [intros [= _ <-]; lia|].
  destruct (Ascii.eqb c ".").
  - pose proof (read_digits_length s) as [H _].
    destruct (read_digits s) as [[|c' d] r']; [discriminate|].
    intros [= _ <-]. simpl in *. lia.
  - intros [= _ <-]. lia.
Qed.

Lemma read_exponent_length (s r : string) (e : Z) :
  read_exponent s = Some (e, r) -> String.length r <= String.length s.
Proof.
  unfold read_exponent. destruct s as [|c s]; [intros [= _ <-]; lia|].
  destruct (Ascii.eqb c "e" || Ascii.eqb c "E"); [|intros [= _ <-]; lia].
  assert (H : forall r1, String.length r1 <= String.length s ->
                match read_digits r1 with
                | (EmptyString, _) => None
                | (d, r') => Some (d, r')
                end = None \/
                String.length (snd (read_digits r1)) <= String.length s).
  { intros r1 H1. right. pose proof (read_digits_length r1) as [H _]. lia. }
  destruct s as [|c1 r1].
  - simpl. discriminate.
  - destruct (Ascii.eqb c1 "-"); [|destruct (Ascii.eqb c1 "+")].
    + pose proof (read_digits_length r1) as [H1 _].
      destruct (read_digits r1) as [[|c' d] r']; [discriminate|].
      intros [= _ <-]. simpl in *. lia.
    + pose proof (read_digits_length r1) as [H1 _].
      destruct (read_digits r1) as [[|c' d] r']; [discriminate|].
      intros [= _ <-]. simpl in *. lia.
    + pose proof (read_digits_length (String c1 r1)) as [H1 _].
      destruct (read_digits (String c1 r1)) as [[|c' d] r']; [discriminate|].
      intros [= _ <-]. simpl in *. lia.
Qed.

Lemma parse_unsigned_length (neg : bool) (s : string) (v : JsValue) (r : string) :
  parse_unsigned neg s = Some (v, r) -> String.length r < String.length s.
Proof.
  unfold parse_unsigned. pose proof (read_digits_length s) as [_ H].
  destruct (read_digits s) as [[|c d] s1]; [discriminate|]. simpl in H.
  destruct (leading_zero _); [discriminate|].
  destruct (read_fraction s1) as [[frac s2]|] eqn:Ef; [|discriminate].
  destruct (read_exponent s2) as [[e s3]|] eqn:Ee; [|discriminate].
  intros [= _ <-].
  apply read_fraction_length in Ef. apply read_exponent_length in Ee.
  specialize (H ltac:(discriminate)). lia.
Qed.

Lemma parse_number_length (s : string) (v : JsValue) (r : string) :
  parse_number s = Some (v, r) -> String.length r < String.length s.
Proof.
  unfold parse_number. destruct s as [|c s]; [discriminate|].
  destruct (Ascii.eqb c "-"); intros H; apply parse_unsigned_length in H; simpl in *; lia.
Qed.

(** What a successful step read, and from which results of the parsers
    it was given. *)
Lemma value_step_inv (e : string -> option (list JsValue * string))
    (m : string -> option (list (string * JsValue) * string))
    (s : string) (v : JsValue) (r : string) :
  value_step e m s = Some (v, r) ->
  (String.length r < String.length s /\
   forall e' m', value_step e' m' s = Some (v, r)) \/
  (exists r0 l, String.length r0 < String.length s /\ e r0 = Some (l, r) /\
     forall e' m', e' r0 = Some (l, r) -> value_step e' m' s = Some (v, r)) \/
  (exists r0 l, String.length r0 < String.length s /\ m r0 = Some (l, r) /\
     forall e' m', m' r0 = Some (l, r) -> value_step e' m' s = Some (v, r)).
Proof.
  unfold value_step. pose proof (skip_ws_length s) as Hws.
  destruct (skip_ws s) as [|c r0]; [discriminate|]. simpl in Hws.
  destruct (Ascii.eqb c "n").
  { destruct (expect "ull" r0) as [r'|] eqn:E; [|discriminate].
    intros [= <- <-]. apply expect_length in E. left. split; [lia | reflexivity]. }
  destruct (Ascii.eqb c "t").
  { destruct (expect "rue" r0) as [r'|] eqn:E; [|discriminate].
    intros [= <- <-]. apply expect_length in E. left. split; [lia | reflexivity]. }
  destruct (Ascii.eqb c "f").
  { destruct (expect "alse" r0) as [r'|] eqn:E; [|discriminate].
    intros [= <- <-]. apply expect_length in E. left. split; [lia | reflexivity]. }
  destruct (Ascii.eqb c DQUOTE).
  { destruct (parse_string_body r0) as [[t r']|] eqn:E; [|discriminate].
    intros [= <- <-]. apply parse_string_body_length in E.
    left. split; [lia | reflexivity]. }
  destruct (Ascii.eqb c "[").
  { destruct (expect "]" (skip_ws r0)) as [r'|] eqn:E.
    - intros [= <- <-]. apply expect_length in E.
      pose proof (skip_ws_length r0). left. split; [lia | reflexivity].
    - destruct (e r0) as [[l r']|] eqn:Ee; [|discriminate].
      intros [= <- <-]. right. left. exists r0, l.
      split; [lia|]. split; [exact Ee|]. intros e' m' ->. reflexivity. }
  destruct (Ascii.eqb c "{").
  { destruct (expect "}" (skip_ws r0)) as [r'|] eqn:E.
    - intros [= <- <-]. apply expect_length in E.
      pose proof (skip_ws_length r0). left. split; [lia | reflexivity].
    - destruct (m r0) as [[l r']|] eqn:Em; [|discriminate].
      intros [= <- <-]. right. right. exists r0, l.
      split; [lia|]. split; [exact Em|]. intros e' m' ->. reflexivity. }
  intros H. pose proof (parse_number_length _ _ _ H) as Hl. simpl in Hl.
  left. split; [lia | intros; exact H].
Qed.

Lemma elements_step_inv (val : string -> option (JsValue * string))
    (e : string -> option (list JsValue * string))
    (s : string) (l : list JsValue) (r : string) :
  elements_step val e s = Some (l, r) ->
  exists v r1, val s = Some (v, r1) /\
    ((String.length r < String.length r1 /\
      forall val' e', val' s = Some (v, r1) -> elements_step val' e' s = Some (l, r)) \/
     (exists r2 l', String.length r2 < String.length r1 /\ e r2 = Some (l', r) /\
        forall val' e', val' s = Some (v, r1) -> e' r2 = Some (l', r) ->
                        elements_step val' e' s = Some (l, r))).
Proof.
  unfold elements_step. destruct (val s) as [[v r1]|] eqn:Ev; [|discriminate].
  pose proof (skip_ws_length r1) as Hws.
  destruct (skip_ws r1) as [|c r2] eqn:Es; [discriminate|]. simpl in Hws.
  intros H. exists v, r1. split; [reflexivity|].
  destruct (Ascii.eqb c ",") eqn:Ec.
  - destruct (e r2) as [[l' r']|] eqn:Ee; [|discriminate].
    injection H as <- <-. right. exists r2, l'.
    split; [lia|]. split; [exact Ee|].
    intros val' e' -> He'. now rewrite Es, Ec, He'.
  - destruct (Ascii.eqb c "]") eqn:Ec'; [|discriminate].
    injection H as <- <-. left. split; [lia|].
    intros val' e' ->. now rewrite Es, Ec, Ec'.
Qed.

Lemma members_step_inv (val : string -> option (JsValue * string))
    (m : string -> option (list (string * JsValue) * string))
    (s : string) (l : list (string * JsValue)) (r : string) :
  members_step val m s = Some (l, r) ->
  exists s3 v r1, String.length s3 < String.length s /\ val s3 = Some (v, r1) /\
    ((String.length r < String.length r1 /\
      forall val' m', val' s3 = Some (v, r1) -> members_step val' m' s = Some (l, r)) \/
     (exists r2 l', String.length r2 < String.length r1 /\ m r2 = Some (l', r) /\
        forall val' m', val' s3 = Some (v, r1) -> m' r2 = Some (l', r) ->
                        members_step val' m' s = Some (l, r))).
Proof.
  unfold members_step. pose proof (skip_ws_length s) as Hws0.
  destruct (expect (String DQUOTE "") (skip_ws s)) as [s1|] eqn:E1; [|discriminate].
  destruct (parse_string_body s1) as [[k s2]|] eqn:E2; [|discriminate].
  destruct (expect ":" (skip_ws s2)) as [s3|] eqn:E3; [|discriminate].
  destruct (val s3) as [[v r1]|] eqn:Ev; [|discriminate].
  pose proof (skip_ws_length r1) as Hws.
  destruct (skip_ws r1) as [|c r2] eqn:Es; [discriminate|]. simpl in Hws.
  intros H. exists s3, v, r1.
  assert (Hlen : String.length s3 < String.length s).
  { apply expect_length in E1, E3. apply parse_string_body_length in E2.
    pose proof (skip_ws_length s2). lia. }
  split; [exact Hlen|]. split; [exact Ev|].
  destruct (Ascii.eqb c ",") eqn:Ec.
  - destruct (m r2) as [[l' r']|] eqn:Em; [|discriminate].
    injection H as <- <-. right. exists r2, l'.
    split; [lia|]. split; [exact Em|].
    intros val' m' Hv' Hm'. now rewrite Hv', Es, Ec, Hm'.
  - destruct (Ascii.eqb c "}") eqn:Ec'; [|discriminate].
    injection H as <- <-. left. split; [lia|].
    intros val' m' Hv'. now rewrite Hv', Es, Ec, Ec'.
Qed.

(** More fuel reads the same. *)
Lemma parse_fuel_S (f : nat) :
  (forall s r, parse_value f s = Some r -> parse_value (S f) s = Some r) /\
  (forall s r, parse_elements f s = Some r -> parse_elements (S f) s = Some r) /\
  (forall s r, parse_members f s = Some r -> parse_members (S f) s = Some r).
Proof.
  induction f as [|f (IHv & IHe & IHm)]; [repeat split; discriminate|].
  split; [|split]; intros s [a r] H.
  - change (value_step (parse_elements (S f)) (parse_members (S f)) s = Some (a, r)).
    change (value_step (parse_elements f) (parse_members f) s = Some (a, r)) in H.
    apply value_step_inv in H as [[_ H]|[(r0 & l & _ & He & H)|(r0 & l & _ & Hm & H)]].
    + apply H.
    + apply H, IHe, He.
    + apply H, IHm, Hm.
  - change (elements_step (parse_value (S f)) (parse_elements (S f)) s = Some (a, r)).
    change (elements_step (parse_value f) (parse_elements f) s = Some (a, r)) in H.
    apply elements_step_inv in H as (v & r1 & Hv & [[_ H]|(r2 & l' & _ & He & H)]).
    + apply H, IHv, Hv.
    + apply H; [apply IHv, Hv | apply IHe, He].
  - change (members_step (parse_value (S f)) (parse_members (S f)) s = Some (a, r)).
    change (members_step (parse_value f) (parse_members f) s = Some (a, r)) in H.
    apply members_step_inv in H as (s3 & v & r1 & _ & Hv & [[_ H]|(r2 & l' & _ & Hm & H)]).
    + apply H, IHv, Hv.
    + apply H; [apply IHv, Hv | apply IHm, Hm].
Qed.

Lemma parse_fuel_le (f f' : nat) :
  f <= f' ->
  (forall s r, parse_value f s = Some r -> parse_value f' s = Some r) /\
  (forall s r, parse_elements f s = Some r -> parse_elements f' s = Some r) /\
  (forall s r, parse_members f s = Some r -> parse_members f' s = Some r).
Proof.
  induction 1 as [|f' _ (IHv & IHe & IHm)]; [auto|].
  destruct (parse_fuel_S f') as (Sv & Se & Sm).
  split; [|split]; intros s r H; [apply Sv, IHv | apply Se, IHe | apply Sm, IHm]; exact H.
Qed.

(** A successful parse consumed text, and fuel for as many characters as
    it consumed is enough. *)
Lemma parse_fuel_consumed (f : nat) :
  (forall s v r, parse_value f s = Some (v, r) ->
     String.length r < String.length s /\
     parse_value (String.length s - String.length r) s = Some (v, r)) /\
  (forall s l r, parse_elements f s = Some (l, r) ->
     String.length r < String.length s /\
     parse_elements (String.length s - String.length r) s = Some (l, r)) /\
  (forall s l r, parse_members f s = Some (l, r) ->
     String.length r < String.length s /\
     parse_members (String.length s - String.length r) s = Some (l, r)).
Proof.
  induction f as [|f (IHv & IHe & IHm)]; [repeat split; discriminate|].
  split; [|split].
  - intros s v r H.
    change (value_step (parse_elements f) (parse_members f) s = Some (v, r)) in H.
    apply value_step_inv in H as [[Hl H]|[(r0 & l & Hl & He & H)|(r0 & l & Hl & Hm & H)]].
    + split; [exact Hl|].
      destruct (String.length s - String.length r) as [|n] eqn:En; [lia|]. apply H.
    + destruct (IHe _ _ _ He) as [Hl' He'].
      split; [lia|].
      destruct (String.length s - String.length r) as [|n] eqn:En; [lia|].
      apply H. apply (proj1 (proj2 (parse_fuel_le (String.length r0 - String.length r) n
                                      ltac:(lia)))), He'.
    + destruct (IHm _ _ _ Hm) as [Hl' Hm'].
      split; [lia|].
      destruct (String.length s - String.length r) as [|n] eqn:En; [lia|].
      apply H. apply (proj2 (proj2 (parse_fuel_le (String.length r0 - String.length r) n
                                      ltac:(lia)))), Hm'.
  - intros s l r H.
    change (elements_step (parse_value f) (parse_elements f) s = Some (l, r)) in H.
    apply elements_step_inv in H as (v & r1 & Hv & [[Hl H]|(r2 & l' & Hl & He & H)]).
    + destruct (IHv _ _ _ Hv) as [Hl1 Hv'].
      split; [lia|].
      destruct (String.length s - String.length r) as [|n] eqn:En; [lia|].
      apply H. apply (proj1 (parse_fuel_le (String.length s - String.length r1) n
                               ltac:(lia))), Hv'.
    + destruct (IHv _ _ _ Hv) as [Hl1 Hv']. destruct (IHe _ _ _ He) as [Hl2 He'].
      split; [lia|].
      destruct (String.length s - String.length r) as [|n] eqn:En; [lia|].
      apply H.
      * apply (proj1 (parse_fuel_le (String.length s - String.length r1) n ltac:(lia))), Hv'.
      * apply (proj1 (proj2 (parse_fuel_le (String.length r2 - String.length r) n
                               ltac:(lia)))), He'.
  - intros s l r H.
    change (members_step (parse_value f) (parse_members f) s = Some (l, r)) in H.
    apply members_step_inv in H
      as (s3 & v & r1 & Hl3 & Hv & [[Hl H]|(r2 & l' & Hl & Hm & H)]).
    + destruct (IHv _ _ _ Hv) as [Hl1 Hv'].
      split; [lia|].
      destruct (String.length s - String.length r) as [|n] eqn:En; [lia|].
      apply H. apply (proj1 (parse_fuel_le (String.length s3 - String.length r1) n
                               ltac:(lia))), Hv'.
    + destruct (IHv _ _ _ Hv) as [Hl1 Hv']. destruct (IHm _ _ _ Hm) as [Hl2 Hm'].
      split; [lia|].
      destruct (String.length s - String.length r) as [|n] eqn:En; [lia|].
      apply H.
      * apply (proj1 (parse_fuel_le (String.length s3 - String.length r1) n ltac:(lia))), Hv'.
      * apply (proj2 (proj2 (parse_fuel_le (String.length r2 - String.length r) n
                               ltac:(lia)))), Hm'.
Qed.

(** So [parse] fails only on a text that no amount of fuel reads. *)
Lemma parse_fuel_enough (f : nat) (text : string) (v : JsValue) (r : string) :
  parse_value f text = Some (v, r) -> skip_ws r = "" -> parse text = Some v.
Proof.
  intros H Hr. destruct (proj1 (parse_fuel_consumed f) _ _ _ H) as [Hl H'].
  unfold parse.
  rewrite (proj1 (parse_fuel_le (String.length text - String.length r)
                    (S (String.length text)) ltac:(lia)) _ _ H').
  now rewrite Hr.
Qed.

End JsonFacts.

(** * Properties of the service *)

(** ** Connection and single requests *)

Lemma ensureDB_connected (env : Env) (w : World) :
  db w = true -> ensureDB env w = (Normal tt, w).
Proof. intros H. unfold ensureDB. now rewrite H. Qed.

Lemma open_fire_None (env : Env) (id : nat) (w w' : World) :
  open_fire env id w = (None, w') ->
  db w' = true /\ localStorage w' = localStorage w /\
  next_tick w' = next_tick w /\ next_request w' = next_request w /\
  (forall m, idb_objectStore w = Some m -> idb_objectStore w' = Some m).
Proof.
  unfold open_fire. destruct (idb_fault env id); [discriminate|].
  destruct (idb_version w <? dbVersion).
  - intros [= <-]. unfold onupgradeneeded. simpl.
    destruct (idb_objectStore w) eqn:E; simpl; rewrite ?E; repeat split; auto; discriminate.
  - destruct (dbVersion <? idb_version w); [discriminate|].
    intros [= <-]. simpl. repeat split; auto.
Qed.

Lemma ensureDB_Normal (env : Env) (w w' : World) (u : unit) :
  ensureDB env w = (Normal u, w') ->
  db w' = true /\ localStorage w' = localStorage w /\
  next_tick w' = next_tick w /\
  (forall m, idb_objectStore w = Some m -> idb_objectStore w' = Some m).
Proof.
  unfold ensureDB. destruct (db w) eqn:Hdb.
  - intros [= _ <-]. auto.
  - unfold initDB, indexedDB_open.
    destruct (open_fire _ _ _) as [[name|] w1] eqn:E; [discriminate|].
    intros [= _ <-]. apply open_fire_None in E. simpl in E. tauto.
Qed.

(** An operation started before the connection is established goes on as
    it does on the page that the successful open leaves. *)
Lemma ensureDB_then {B : Type} (env : Env) (k : unit -> World -> Promise B * World)
    (w w1 : World) :
  ensureDB env w = (Normal tt, w1) ->
  and_then (ensureDB env) k w = and_then (ensureDB env) k w1.
Proof.
  intros E. pose proof (ensureDB_Normal env w w1 tt E) as (Hdb & _).
  unfold and_then. now rewrite E, (ensureDB_connected env w1 Hdb).
Qed.

Lemma transaction_Normal (mode : TxMode) (w w' : World) (u : unit) :
  transaction mode w = (Normal u, w') ->
  w' = log (ETransaction mode) w /\ exists m, idb_objectStore w = Some m.
Proof.
  unfold transaction. destruct (idb_objectStore w) as [m|]; [|discriminate].
  intros [= _ <-]. eauto.
Qed.

Lemma transaction_connected (mode : TxMode) (w : World) (m : gmap string Item.t) :
  idb_objectStore w = Some m ->
  transaction mode w = (Normal tt, log (ETransaction mode) w).
Proof. intros H. unfold transaction. now rewrite H. Qed.

(** The errors the connection can throw are the engine's. *)
Lemma ensureDB_Throw (env : Env) (w w' : World) (e : JsError) :
  ensureDB env w = (Throw e, w') -> exists name, e = DOMException name.
Proof.
  unfold ensureDB. destruct (db w); [discriminate|].
  unfold initDB, indexedDB_open.
  destruct (open_fire _ _ _) as [[name|] w1]; [|discriminate].
  intros [= <- _]. eauto.
Qed.

Lemma transaction_Throw (mode : TxMode) (w w' : World) (e : JsError) :
  transaction mode w = (Throw e, w') -> exists name, e = DOMException name.
Proof.
  unfold transaction. destruct (idb_objectStore w); [discriminate|].
  intros [= <- _]. eauto.
Qed.

(** *** Requests of a transaction *)

(** What [fire_in] gives for a transaction that is not aborted. *)
Lemma fire_in_active (env : Env) (o : option (gmap string Item.t)) (id : nat)
    (req : Request) (w : World) :
  fire_in env (mkTransaction o false) id req w =
  match idb_fault env id with
  | Some name =>
      (Some name, (mkTransaction o true, with_objectStore o (log (EError id name) w)))
  | None =>
      (None, (mkTransaction o false,
              log (ESuccess id)
                (with_objectStore (apply_request req <$> idb_objectStore w) w)))
  end.
Proof. unfold fire_in, fire. simpl. now destruct (idb_fault env id). Qed.

(** With a single request in the transaction the abort changes nothing:
    the promise and the page are those of [fire]. *)
Lemma fire_in_single (env : Env) (id : nat) (req : Request) (w w0 : World) :
  idb_objectStore w0 = idb_objectStore w ->
  fst (fire_in env (begin w0) id req w) = fst (fire env id req w) /\
  snd (snd (fire_in env (begin w0) id req w)) = snd (fire env id req w).
Proof.
  intros H. unfold begin. rewrite fire_in_active. unfold fire.
  destruct (idb_fault env id); [|split; reflexivity].
  split; [reflexivity|]. simpl. rewrite H. now destruct w.
Qed.

(** *** The keys of the store *)

Lemma keys_in_order_Permutation (m : gmap string Item.t) :
  keys_in_order m ≡ₚ (map_to_list m).*1.
Proof. apply merge_sort_Permutation. Qed.

Lemma elem_of_keys_in_order (k : string) (m : gmap string Item.t) :
  k ∈ keys_in_order m <-> is_Some (m !! k).
Proof.
  rewrite keys_in_order_Permutation, list_elem_of_fmap. split.
  - intros [[k' item] [-> Hin]]. apply elem_of_map_to_list in Hin. eauto.
  - intros [item Hk]. exists (k, item). split; [reflexivity|].
    now apply elem_of_map_to_list.
Qed.

Lemma length_keys_in_order (m : gmap string Item.t) :
  length (keys_in_order m) = size m.
Proof.
  now rewrite keys_in_order_Permutation, length_fmap, length_map_to_list.
Qed.

Lemma keys_in_order_empty : keys_in_order ∅ = [].
Proof. unfold keys_in_order. now rewrite map_to_list_empty. Qed.

#[local] Instance key_le_total : Total key_le.
Proof. intros a b. apply String.leb_total. Qed.

(** The keys are listed in ascending order. *)
Lemma keys_in_order_sorted (m : gmap string Item.t) : Sorted key_le (keys_in_order m).
Proof. apply Sorted_merge_sort, _. Qed.

(** *** getItem *)

Lemma parse_undefined : JSON_parse (ToString None) = Throw SyntaxError.
Proof. vm_compute. reflexivity. Qed.

Lemma getItem_connected (env : Env) (k : string) (w : World) (m : gmap string Item.t) :
  connected w m ->
  fst (getItem env k w) =
  match idb_fault env (next_request w) with
  | Some name => Rejected (DOMException name)
  | None =>
      match m !! k with
      | Some item => Fulfilled (decoded item)
      | None => Fulfilled JNull
      end
  end.
Proof.
  intros [Hdb Hm]. unfold getItem, and_then.
  rewrite (ensureDB_connected env w Hdb), (transaction_connected readonly w m Hm).
  unfold place, fire. simpl.
  destruct (idb_fault env (next_request w)) as [name|]; [reflexivity|].
  unfold result_get, records. simpl. rewrite Hm. simpl.
  destruct (m !! k) as [item|]; [|reflexivity].
  unfold decoded. destruct (Item.value item) as [s|].
  - unfold JSON_parse. simpl. destruct (Json.parse s); reflexivity.
  - rewrite parse_undefined. reflexivity.
Qed.

Lemma getItem_after_open (env : Env) (k : string) (w w1 : World) :
  ensureDB env w = (Normal tt, w1) -> getItem env k w = getItem env k w1.
Proof. apply ensureDB_then. Qed.

Lemma getItem_settles (env : Env) (k : string) (w : World) :
  (exists v, fst (getItem env k w) = Fulfilled v) \/
  (exists name, fst (getItem env k w) = Rejected (DOMException name)).
Proof.
  unfold getItem, and_then.
  destruct (ensureDB env w) as [[u|e] w1] eqn:E1.
  2:{ right. destruct (ensureDB_Throw _ _ _ _ E1) as [name ->]. eauto. }
  destruct (transaction readonly w1) as [[u'|e] w2] eqn:E2.
  2:{ right. destruct (transaction_Throw _ _ _ _ E2) as [name ->]. eauto. }
  unfold place, fire. simpl.
  destruct (idb_fault env (next_request w2)) as [name|]; [right; eauto|].
  left. destruct (result_get k _) as [item|]; [|eauto].
  destruct (JSON_parse _); eauto.
Qed.

(** C7.  [getItem] on an established connection whose read does not fail:
    an absent key gives [null]; a present record gives the JSON parse of
    its stored string, or the stored string itself when that does not
    parse.  On any page, [getItem] settles, and a rejection carries an
    error of the engine, never the [SyntaxError] of [JSON.parse]. *)
Theorem getItem_null_or_decoded (env : Env) (k : string) (w : World)
    (m : gmap string Item.t) :
  connected w m ->
  idb_fault env (next_request w) = None ->
  (m !! k = None -> fst (getItem env k w) = Fulfilled JNull) /\
  (forall key s t, m !! k = Some (Item.make key (Some s) t) ->
     fst (getItem env k w) =
     Fulfilled (match JSON_parse s with
                | Normal parsed => parsed
                | Throw _ => JString s
                end)) /\
  (forall item, m !! k = Some item -> fst (getItem env k w) = Fulfilled (decoded item)) /\
  (forall w0 e, fst (getItem env k w0) = Rejected e -> e <> SyntaxError) /\
  (forall w0, fst (getItem env k w0) <> Pending).
Proof.
  intros Hc Hf. pose proof (getItem_connected env k w m Hc) as H.
  rewrite Hf in H. repeat split.
  - intros Hk. now rewrite Hk in H.
  - intros key s t Hk. rewrite Hk in H. rewrite H.
    unfold decoded, JSON_parse. simpl. now destruct (Json.parse s).
  - intros item Hk. now rewrite Hk in H.
  - intros w0 e He ->.
    destruct (getItem_settles env k w0) as [[v Hv]|[name Hn]]; congruence.
  - intros w0 Hp.
    destruct (getItem_settles env k w0) as [[v Hv]|[name Hn]]; congruence.
Qed.

Lemma getItem_null_or_decoded_witness :
  fst (getItem (calm 0) "theme" (opened {[ "lang" := Item.make "lang" (Some "en") 3 ]} ∅))
  = Fulfilled JNull /\
  fst (getItem (calm 0) "lang" (opened {[ "lang" := Item.make "lang" (Some "en") 3 ]} ∅))
  = Fulfilled (JString "en").
Proof.
  pose (m := ({[ "lang" := Item.make "lang" (Some "en") 3 ]} : gmap string Item.t)).
  assert (Hc : connected (opened m ∅) m) by (split; reflexivity).
  split.
  - apply (getItem_null_or_decoded (calm 0) "theme" (opened m ∅) m Hc); reflexivity.
  - apply (proj1 (proj2 (getItem_null_or_decoded (calm 0) "lang" (opened m ∅) m Hc eq_refl))
             "lang" "en" 3%Z).
    reflexivity.
Defined.

(** *** setItem *)

Lemma setItem_Fulfilled (env : Env) (k : string) (v : JsValue) (w w1 : World) (b : bool) :
  setItem env k v w = (Fulfilled b, w1) ->
  b = true /\
  exists m, connected w1 (<[k := Item.make k (serialize v) (clock env (next_tick w))]> m).
Proof.
  unfold setItem, and_then.
  destruct (ensureDB env w) as [[u|e] w2] eqn:E1; [|discriminate].
  destruct (transaction readwrite w2) as [[u'|e] w3] eqn:E2; [|discriminate].
  apply ensureDB_Normal in E1 as (Hdb & _ & Htick & _).
  apply transaction_Normal in E2 as [-> [m Hm]].
  unfold Date_now, place, fire. simpl.
  destruct (idb_fault env (next_request w2)); [discriminate|].
  intros [= <- <-]. split; [reflexivity|].
  exists m. split; simpl; [exact Hdb|]. now rewrite Hm, Htick.
Qed.

(** C1 (as amended).  After a successful [setItem(k, v)], [getItem(k)]
    gives back [v] when [v] is not a string and is a value that JSON
    represents exactly (null, a boolean, any finite number other than
    negative zero, and arrays and objects of these and of strings), when
    [v] is [undefined], and when [v] is a string that [JSON.parse]
    refuses.  It gives [null] for [NaN] and for the infinities, and zero
    for negative zero.  The only other outcome is the engine failing the
    read. *)
Theorem setItem_getItem_roundtrip (env : Env) (k : string) (v : JsValue) (w w1 : World) :
  setItem env k v w = (Fulfilled true, w1) ->
  ((typeof_string v = false /\ json_serializable v = true) \/
   v = JUndefined \/
   (exists s, v = JString s /\ JSON_parse s = Throw SyntaxError) ->
   fst (getItem env k w1) =
   match idb_fault env (next_request w1) with
   | Some name => Rejected (DOMException name)
   | None => Fulfilled v
   end) /\
  (v = JNaN \/ (exists negative, v = JInfinity negative) ->
   fst (getItem env k w1) =
   match idb_fault env (next_request w1) with
   | Some name => Rejected (DOMException name)
   | None => Fulfilled JNull
   end) /\
  (v = JNumber (Number.make true 0 0) ->
   fst (getItem env k w1) =
   match idb_fault env (next_request w1) with
   | Some name => Rejected (DOMException name)
   | None => Fulfilled (JNumber 0)
   end).
Proof.
  intros Hset.
  apply setItem_Fulfilled in Hset as [_ [m Hc]].
  rewrite (getItem_connected env k w1 _ Hc).
  destruct (idb_fault env (next_request w1)); [repeat split; reflexivity|].
  rewrite lookup_insert_eq. unfold decoded. simpl.
  split; [|split].
  - intros Hv. f_equal. destruct Hv as [[Hns Hser]|[->|[s [-> Hs]]]].
    + destruct (JsonFacts.serializable_stringify v Hser) as [t Ht].
      assert (serialize v = Some t) as ->.
      { destruct v; try exact Ht. discriminate Hns. }
      now rewrite (JsonFacts.parse_stringify v t Hser Ht).
    + reflexivity.
    + simpl. unfold JSON_parse in Hs. now destruct (Json.parse s).
  - intros [->|[negative ->]]; reflexivity.
  - intros ->. reflexivity.
Qed.

Lemma setItem_getItem_roundtrip_witness :
  let v := JObject [("lang", JString "en"); ("ids", JArray [JNumber 1; JNumber (-20)]);
                    ("dark", JBool true); ("owner", JNull)] in
  let half := Number.make false 1 (-1) in
  let tenth := Number.make false 3602879701896397 (-55) in
  let n := JArray [JNumber half; JNumber tenth; JNumber (10 ^ 21); JNumber (2 ^ 53);
                   JNumber (Number.make true 1 (-1074))] in
  fst (getItem (calm 7) "settings" (snd (setItem (calm 7) "settings" v (first_visit ∅))))
  = Fulfilled v /\
  fst (getItem (calm 7) "note"
         (snd (setItem (calm 7) "note" (JString "hello world") (first_visit ∅))))
  = Fulfilled (JString "hello world") /\
  (Json.stringify n = Some "[0.5,0.1,1e+21,9007199254740992,-5e-324]" /\
   fst (getItem (calm 7) "numbers" (snd (setItem (calm 7) "numbers" n (first_visit ∅))))
   = Fulfilled n) /\
  fst (getItem (calm 7) "k" (snd (setItem (calm 7) "k" (JInfinity true) (first_visit ∅))))
  = Fulfilled JNull /\
  fst (getItem (calm 7) "k"
         (snd (setItem (calm 7) "k" (JNumber (Number.make true 0 0)) (first_visit ∅))))
  = Fulfilled (JNumber 0).
Proof.
  intros v half tenth n. split; [|split; [|split; [|split]]].
  - apply (setItem_getItem_roundtrip (calm 7) "settings" v (first_visit ∅)).
    + vm_compute. reflexivity.
    + left. split; vm_compute; reflexivity.
  - apply (setItem_getItem_roundtrip (calm 7) "note" (JString "hello world") (first_visit ∅)).
    + vm_compute. reflexivity.
    + right. right. exists "hello world". split; [reflexivity | vm_compute; reflexivity].
  - split; [vm_compute; reflexivity|].
    apply (setItem_getItem_roundtrip (calm 7) "numbers" n (first_visit ∅)).
    + vm_compute. reflexivity.
    + left. split; vm_compute; reflexivity.
  - apply (setItem_getItem_roundtrip (calm 7) "k" (JInfinity true) (first_visit ∅)).
    + vm_compute. reflexivity.
    + right. now exists true.
  - apply (setItem_getItem_roundtrip (calm 7) "k" (JNumber (Number.make true 0 0))
             (first_visit ∅)).
    + vm_compute. reflexivity.
    + reflexivity.
Defined.

(** C1 as stated fails: [NaN] is not a string, and it reads back as [null]. *)
Lemma setItem_getItem_NaN :
  typeof_string JNaN = false /\
  exists w1,
    setItem (calm 0) "k" JNaN (first_visit ∅) = (Fulfilled true, w1) /\
    fst (getItem (calm 0) "k" w1) = Fulfilled JNull /\
    JNull <> JNaN.
Proof.
  split; [reflexivity|].
  exists (snd (setItem (calm 0) "k" JNaN (first_visit ∅))).
  split; [vm_compute; reflexivity|].
  split; [vm_compute; reflexivity | discriminate].
Qed.

(** C9.  A batch of one item is the single write: same promise, same
    record, same effects; so whatever is read afterwards is the same. *)
Theorem setItems_singleton (env : Env) (k : string) (v : JsValue) (w : World) :
  setItems env [(k, v)] w = setItem env k v w /\
  (forall k', getItem env k' (snd (setItems env [(k, v)] w)) =
              getItem env k' (snd (setItem env k v w))) /\
  place_puts env [(k, v)] w =
    ([(next_request w, Put (Item.make k (serialize v) (clock env (next_tick w))))],
     snd (place (Put (Item.make k (serialize v) (clock env (next_tick w))))
                (snd (Date_now env w)))).
Proof.
  assert (H : setItems env [(k, v)] w = setItem env k v w).
  { unfold setItems, setItem, and_then.
    destruct (ensureDB env w) as [[u|e] w1]; [|reflexivity].
    destruct (transaction readwrite w1) as [[u'|e] w2]; [|reflexivity].
    unfold Date_now, place, begin. simpl. rewrite fire_in_active. unfold fire. simpl.
    destruct (idb_fault env (next_request w2)); [|reflexivity].
    simpl. now destruct w2. }
  split; [exact H|]. split; [intros k'; now rewrite H | reflexivity].
Qed.

(** *** The reading views *)

Lemma push_matching (p : string) (keys acc : list string) :
  fold_left (fun result key => if startsWith key p then result ++ [key] else result)
            keys acc
  = acc ++ List.filter (fun key => startsWith key p) keys.
Proof.
  revert acc. induction keys as [|key keys IH]; intros acc; simpl.
  - now rewrite app_nil_r.
  - rewrite IH. destruct (startsWith key p); [|reflexivity].
    now rewrite <- app_assoc.
Qed.

(** C8.  [getKeysByPrefix(p)] is [getAllKeys()] filtered by
    [startsWith(p)], in the same order, with the same effects, and it
    fails exactly when [getAllKeys()] fails. *)
Theorem getKeysByPrefix_filters (env : Env) (p : string) (w : World) :
  getKeysByPrefix env p w =
  (Promise_map (List.filter (fun key => String.prefix p key)) (fst (getAllKeys env w)),
   snd (getAllKeys env w)).
Proof.
  unfold getKeysByPrefix, getAllKeys, and_then.
  destruct (ensureDB env w) as [[u|e] w1]; [|reflexivity].
  destruct (transaction readonly w1) as [[u'|e] w2]; [|reflexivity].
  unfold place, fire. simpl.
  destruct (idb_fault env (next_request w2)); [reflexivity|].
  simpl. rewrite push_matching. reflexivity.
Qed.

Lemma count_only_member (k : string) (m : gmap string Item.t) :
  (0 <? match m !! k with Some _ => 1 | None => 0 end)
  = bool_decide (k ∈ keys_in_order m).
Proof.
  destruct (m !! k) as [item|] eqn:E; symmetry.
  - apply bool_decide_eq_true_2. apply elem_of_keys_in_order. eauto.
  - apply bool_decide_eq_false_2. intros H. apply elem_of_keys_in_order in H as [item H].
    congruence.
Qed.

(** C10.  On every page, [hasItem(k)] says whether [k] is among
    [getAllKeys()], and [getCount()] is the number of keys; the three fail
    together. *)
Theorem views_agree (env : Env) (k : string) (w : World) :
  fst (hasItem env k w) =
    Promise_map (fun keys => bool_decide (k ∈ keys)) (fst (getAllKeys env w)) /\
  fst (getCount env w) = Promise_map length (fst (getAllKeys env w)).
Proof.
  unfold hasItem, getCount, getAllKeys, and_then.
  destruct (ensureDB env w) as [[u|e] w1]; [|split; reflexivity].
  destruct (transaction readonly w1) as [[u'|e] w2]; [|split; reflexivity].
  unfold place, fire. simpl.
  destruct (idb_fault env (next_request w2)); [split; reflexivity|].
  unfold result_count_only, result_count, result_getAllKeys, records. simpl.
  destruct (idb_objectStore w2) as [m|]; simpl; split; f_equal;
    solve [apply count_only_member
          | now rewrite length_keys_in_order
          | reflexivity].
Qed.

(** ** Batches *)

Lemma place_puts_spec (env : Env) (items : list (string * JsValue)) (w : World) :
  place_puts env items w =
  (numbered (next_request w) (Put <$> dbItems env (next_tick w) items),
   mkWorld (db w) (idb_version w) (idb_objectStore w) (localStorage w)
           (next_request w + length items) (next_tick w + length items)
           (trace w ++ placed (next_request w) (Put <$> dbItems env (next_tick w) items))).
Proof.
  revert w. induction items as [|[k v] items IH]; intros w.
  - destruct w. simpl. now rewrite !Nat.add_0_r, app_nil_r.
  - simpl. rewrite IH. destruct w. simpl. f_equal. f_equal; try lia.
    now rewrite <- app_assoc.
Qed.

Lemma place_deletes_spec (keys : list string) (w : World) :
  place_deletes keys w =
  (numbered (next_request w) (Delete <$> keys),
   mkWorld (db w) (idb_version w) (idb_objectStore w) (localStorage w)
           (next_request w + length keys) (next_tick w)
           (trace w ++ placed (next_request w) (Delete <$> keys))).
Proof.
  revert w. induction keys as [|k keys IH]; intros w.
  - destruct w. simpl. now rewrite !Nat.add_0_r, app_nil_r.
  - simpl. rewrite IH. destruct w. simpl. f_equal. f_equal; try lia.
    now rewrite <- app_assoc.
Qed.

(** The world after the engine fired the events of an aborted
    transaction, and of one that was not aborted when it began to. *)
Lemma fire_all_world_aborted (env : Env) (n : nat) (reqs : list Request) (id : nat)
    (b : Batch bool) (o : option (gmap string Item.t)) (w : World) :
  snd (fire_all env n (numbered id reqs) b (mkTransaction o true) w) =
  mkWorld (db w) (idb_version w) (idb_objectStore w)
          (localStorage w) (next_request w) (next_tick w)
          (trace w ++ aborted_events id reqs).
Proof.
  revert id b w. induction reqs as [|req reqs IH]; intros id b w.
  - destruct w. simpl. now rewrite app_nil_r.
  - simpl. unfold fire_in. simpl. rewrite IH. destruct w. simpl.
    now rewrite <- app_assoc.
Qed.

Lemma fire_all_world (env : Env) (n : nat) (reqs : list Request) (id : nat)
    (b : Batch bool) (m0 m : gmap string Item.t) (w : World) :
  idb_objectStore w = Some m ->
  snd (fire_all env n (numbered id reqs) b (mkTransaction (Some m0) false) w) =
  mkWorld (db w) (idb_version w)
          (Some (survivors_from env m0 id reqs m))
          (localStorage w) (next_request w) (next_tick w)
          (trace w ++ events env id reqs).
Proof.
  revert id b m w. induction reqs as [|req reqs IH]; intros id b m w Hm.
  - destruct w. simpl in *. subst. now rewrite app_nil_r.
  - cbn [numbered fire_all]. rewrite fire_in_active. simpl.
    destruct (idb_fault env id) as [name|].
    + rewrite fire_all_world_aborted. destruct w. simpl. now rewrite <- app_assoc.
    + rewrite (IH _ _ (apply_request req m)) by (simpl; now rewrite Hm).
      destruct w. simpl. now rewrite <- app_assoc.
Qed.

(** Once a request has failed, the promise keeps the first error. *)
Lemma fire_all_failed (env : Env) (n : nat) (reqs : list (nat * Request))
    (c : nat) (e : JsError) (tx : Transaction) (w : World) :
  outcome (fst (fire_all env n reqs (mkBatch c true (Rejected e)) tx w)) = Rejected e.
Proof.
  revert c tx w. induction reqs as [|[id req] reqs IH]; intros c tx w; [reflexivity|].
  simpl. destruct (fire_in env tx id req w) as [[name|] [tx1 w1]].
  - apply IH.
  - unfold batch_onsuccess. simpl. rewrite andb_false_r. apply IH.
Qed.

Lemma fire_all_outcome (env : Env) (n : nat) (reqs : list Request) (id c : nat)
    (o : option (gmap string Item.t)) (w : World) :
  reqs <> [] -> c + length reqs = n ->
  outcome (fst (fire_all env n (numbered id reqs) (mkBatch c false Pending)
                  (mkTransaction o false) w)) =
  match first_fault env id (length reqs) with
  | None => Fulfilled true
  | Some name => Rejected (DOMException name)
  end.
Proof.
  revert id c w. induction reqs as [|req reqs IH]; intros id c w Hne Hn; [congruence|].
  cbn [numbered fire_all length first_fault]. rewrite fire_in_active.
  destruct (idb_fault env id) as [name|].
  - unfold batch_onerror. simpl. apply fire_all_failed.
  - unfold batch_onsuccess. cbn [completed hasError outcome negb].
    destruct reqs as [|req' reqs].
    + replace (S c =? n) with true by (symmetry; apply Nat.eqb_eq; simpl in Hn; lia).
      reflexivity.
    + replace (S c =? n) with false by (symmetry; apply Nat.eqb_neq; simpl in Hn; lia).
      cbn [andb]. apply IH; [congruence | simpl in *; lia].
Qed.

Lemma length_dbItems (env : Env) (tick : nat) (items : list (string * JsValue)) :
  length (dbItems env tick items) = length items.
Proof. revert tick. induction items; intros tick; simpl; auto. Qed.

Lemma keys_dbItems (env : Env) (tick : nat) (items : list (string * JsValue)) :
  fst <$> items = Item.key <$> dbItems env tick items.
Proof.
  revert tick. induction items as [|[k v] items IH]; intros tick; simpl;
    [reflexivity | now rewrite <- IH].
Qed.

(** [setItems] on an established connection. *)
Lemma setItems_connected (env : Env) (items : list (string * JsValue)) (w : World)
    (m : gmap string Item.t) :
  connected w m ->
  setItems env items w =
  (batch_outcome env w (length items),
   after_batch env w m (Put <$> dbItems env (next_tick w) items) (length items)).
Proof.
  intros [Hdb Hm]. unfold setItems, and_then.
  rewrite (ensureDB_connected env w Hdb), (transaction_connected readwrite w m Hm).
  unfold begin. change (idb_objectStore (log (ETransaction readwrite) w)) with (idb_objectStore w).
  rewrite Hm. cbv zeta.
  destruct items as [|item items].
  - unfold batch_outcome, after_batch. destruct w. simpl in *. subst.
    now rewrite !Nat.add_0_r.
  - change (length (item :: items) =? 0) with false. cbv iota.
    rewrite place_puts_spec.
    match goal with |- (let (b, w) := ?f in _) = _ =>
      rewrite (surjective_pairing f) end.
    f_equal.
    + cbn [fst]. rewrite fire_all_outcome;
        [| discriminate | now rewrite length_fmap, length_dbItems].
      now rewrite length_fmap, length_dbItems.
    + rewrite (fire_all_world env _ _ _ _ m m) by exact Hm.
      unfold after_batch, survivors. destruct w. simpl in *. subst.
      rewrite !length_fmap, !length_dbItems. simpl. f_equal.
      now rewrite <- !app_assoc.
Qed.

Lemma removeItems_connected (env : Env) (keys : list string) (w : World)
    (m : gmap string Item.t) :
  connected w m ->
  removeItems env keys w =
  (batch_outcome env w (length keys), after_batch env w m (Delete <$> keys) 0).
Proof.
  intros [Hdb Hm]. unfold removeItems, and_then.
  rewrite (ensureDB_connected env w Hdb), (transaction_connected readwrite w m Hm).
  unfold begin. change (idb_objectStore (log (ETransaction readwrite) w)) with (idb_objectStore w).
  rewrite Hm. cbv zeta.
  destruct keys as [|key keys].
  - unfold batch_outcome, after_batch. destruct w. simpl in *. subst.
    now rewrite !Nat.add_0_r.
  - change (length (key :: keys) =? 0) with false. cbv iota.
    rewrite place_deletes_spec.
    match goal with |- (let (b, w) := ?f in _) = _ =>
      rewrite (surjective_pairing f) end.
    f_equal.
    + cbn [fst]. rewrite fire_all_outcome;
        [| discriminate | now rewrite length_fmap].
      now rewrite length_fmap.
    + rewrite (fire_all_world env _ _ _ _ m m) by exact Hm.
      unfold after_batch, survivors. destruct w. simpl in *. subst.
      rewrite !length_fmap. simpl. rewrite Nat.add_0_r. f_equal.
      now rewrite <- !app_assoc.
Qed.

(** From a page whose connection is not established yet, [setItems] does
    what it does on the page that the successful open leaves. *)
Lemma setItems_after_open (env : Env) (items : list (string * JsValue)) (w w1 : World) :
  ensureDB env w = (Normal tt, w1) -> setItems env items w = setItems env items w1.
Proof. apply ensureDB_then. Qed.

Lemma first_fault_None (env : Env) (id n : nat) :
  first_fault env id n = None <-> forall i, i < n -> idb_fault env (id + i) = None.
Proof.
  revert id. induction n as [|n IH]; intros id; simpl.
  - split; [intros _ i Hi; lia | reflexivity].
  - destruct (idb_fault env id) as [name|] eqn:E.
    + split; [discriminate|]. intros H. specialize (H 0). rewrite Nat.add_0_r in H.
      rewrite H in E by lia. discriminate.
    + rewrite IH. split; intros H i Hi.
      * destruct i as [|i]; [now rewrite Nat.add_0_r|].
        replace (id + S i) with (S id + i) by lia. apply H. lia.
      * replace (S id + i) with (id + S i) by lia. apply H. lia.
Qed.

Lemma first_fault_Some (env : Env) (id n j : nat) (name : string) :
  j < n -> idb_fault env (id + j) = Some name ->
  (forall i, i < j -> idb_fault env (id + i) = None) ->
  first_fault env id n = Some name.
Proof.
  revert id n. induction j as [|j IH]; intros id n Hj Hname Hbefore.
  - destruct n; [lia|]. simpl. rewrite Nat.add_0_r in Hname. now rewrite Hname.
  - destruct n; [lia|]. simpl.
    assert (H0 : idb_fault env id = None)
      by (rewrite <- (Nat.add_0_r id); apply Hbefore; lia).
    rewrite H0. apply IH; [lia | | ].
    + now replace (S id + j) with (id + S j) by lia.
    + intros i Hi. replace (S id + i) with (id + S i) by lia. apply Hbefore. lia.
Qed.

(** A transaction in which no request failed applied them all; one in
    which a request failed left the records as they were when it began. *)
Lemma survivors_from_clean (env : Env) (m0 : gmap string Item.t) (reqs : list Request)
    (id : nat) (m : gmap string Item.t) :
  first_fault env id (length reqs) = None ->
  survivors_from env m0 id reqs m = applied reqs m.
Proof.
  revert id m. induction reqs as [|req reqs IH]; intros id m H; [reflexivity|].
  simpl in *. destruct (idb_fault env id); [discriminate|]. now apply IH.
Qed.

Lemma survivors_from_fault (env : Env) (m0 : gmap string Item.t) (reqs : list Request)
    (id : nat) (m : gmap string Item.t) (name : string) :
  first_fault env id (length reqs) = Some name ->
  survivors_from env m0 id reqs m = m0.
Proof.
  revert id m. induction reqs as [|req reqs IH]; intros id m H; [discriminate|].
  simpl in *. destruct (idb_fault env id); [reflexivity|]. now apply IH.
Qed.

Lemma survivors_cases (env : Env) (id : nat) (reqs : list Request)
    (m : gmap string Item.t) :
  survivors env id reqs m =
  match first_fault env id (length reqs) with
  | None => applied reqs m
  | Some _ => m
  end.
Proof.
  unfold survivors. destruct (first_fault env id (length reqs)) eqn:E.
  - now apply survivors_from_fault with (name := s).
  - now apply survivors_from_clean.
Qed.

Lemma events_clean (env : Env) (id : nat) (reqs : list Request) :
  first_fault env id (length reqs) = None ->
  events env id reqs = ESuccess <$> seq id (length reqs).
Proof.
  revert id. induction reqs as [|req reqs IH]; intros id; simpl; [reflexivity|].
  destruct (idb_fault env id); [discriminate|]. intros H. now rewrite IH.
Qed.

(** The events of a transaction up to and after the first failure. *)
Lemma events_fault (env : Env) (id : nat) (reqs : list Request) (j : nat) (name : string) :
  j < length reqs -> idb_fault env (id + j) = Some name ->
  (forall i, i < j -> idb_fault env (id + i) = None) ->
  events env id reqs =
  (ESuccess <$> seq id j) ++ EError (id + j) name
    :: ((fun i => EError i "AbortError") <$> seq (S (id + j)) (length reqs - S j)).
Proof.
  revert id reqs. induction j as [|j IH]; intros id reqs Hj Hname Hbefore.
  - destruct reqs as [|req reqs]; [simpl in Hj; lia|].
    rewrite Nat.add_0_r in *. simpl. rewrite Hname. f_equal.
    rewrite Nat.sub_0_r. clear. generalize (S id). induction reqs as [|r reqs IH];
      intros n; simpl; [reflexivity | now rewrite IH].
  - destruct reqs as [|req reqs]; [simpl in Hj; lia|].
    simpl in Hj. cbn [events length].
    assert (H0 : idb_fault env id = None)
      by (rewrite <- (Nat.add_0_r id); apply Hbefore; lia).
    rewrite H0. cbn [seq fmap list_fmap]. rewrite <- app_comm_cons. f_equal.
    replace (id + S j) with (S id + j) by lia.
    replace (length reqs - S j) with (length reqs - S j) by lia.
    apply IH; [lia | now replace (S id + j) with (id + S j) by lia |].
    intros i Hi. replace (S id + i) with (id + S i) by lia. apply Hbefore. lia.
Qed.

(** Puts of other keys leave a key as it is. *)
Lemma applied_puts_other (recs : list Item.t) (m : gmap string Item.t) (k : string) :
  (forall item, item ∈ recs -> Item.key item <> k) ->
  applied (Put <$> recs) m !! k = m !! k.
Proof.
  revert m. induction recs as [|item recs IH]; intros m H; [reflexivity|].
  unfold applied in *. simpl. rewrite IH by (intros item' Hin; apply H; now right).
  apply lookup_insert_ne, H. now left.
Qed.

Lemma survivors_puts_other (env : Env) (recs : list Item.t) (id : nat)
    (m : gmap string Item.t) (k : string) :
  (forall item, item ∈ recs -> Item.key item <> k) ->
  survivors env id (Put <$> recs) m !! k = m !! k.
Proof.
  intros H. rewrite survivors_cases.
  destruct (first_fault env id _); [reflexivity | now apply applied_puts_other].
Qed.

(** In a batch the engine let through, a put stays, unless a later put of
    the batch is for the same key. *)
Lemma applied_put_kept (recs : list Item.t) (m : gmap string Item.t) (i : nat)
    (item : Item.t) :
  recs !! i = Some item ->
  (forall i' item', i < i' -> recs !! i' = Some item' -> Item.key item' <> Item.key item) ->
  applied (Put <$> recs) m !! Item.key item = Some item.
Proof.
  revert m i. induction recs as [|r recs IH]; intros m i Hi Hlater; [discriminate|].
  destruct i as [|i]; simpl in *.
  - injection Hi as ->. change (applied (Put <$> item :: recs) m)
      with (applied (Put <$> recs) (<[Item.key item := item]> m)).
    rewrite applied_puts_other.
    + apply lookup_insert_eq.
    + intros item' Hin. apply list_elem_of_lookup in Hin as [i' Hi'].
      apply (Hlater (S i') item'); [lia | exact Hi'].
  - change (applied (Put <$> r :: recs) m)
      with (applied (Put <$> recs) (<[Item.key r := r]> m)).
    apply (IH _ i Hi).
    intros i' item' Hlt Hi'. apply (Hlater (S i') item'); [lia | exact Hi'].
Qed.

Lemma survivors_put_kept (env : Env) (recs : list Item.t) (id : nat)
    (m : gmap string Item.t) (i : nat) (item : Item.t) :
  first_fault env id (length recs) = None ->
  recs !! i = Some item ->
  (forall i' item', i < i' -> recs !! i' = Some item' -> Item.key item' <> Item.key item) ->
  survivors env id (Put <$> recs) m !! Item.key item = Some item.
Proof.
  intros Hclean Hi Hlater. rewrite survivors_cases, length_fmap, Hclean.
  now apply applied_put_kept with (i := i).
Qed.

(** C4 (as amended).  [setItems] on an established connection opens one
    [readwrite] transaction and places one [put] per item, in order, and
    nothing else; it fulfils exactly when the engine fails none of them,
    and then every item has its record (unless a later put of the batch
    went to the same key).  The first error of the engine rejects it with
    that error and aborts the transaction: the puts before the failing one
    have had their success events and are undone, the requests after it
    fail with [AbortError], and the records are what they were before the
    batch.  An empty batch, for [setItems] and for [removeItems], fulfils
    with a transaction and no request. *)
Theorem setItems_batch (env : Env) (items : list (string * JsValue)) (w : World)
    (m : gmap string Item.t) :
  connected w m ->
  let recs := dbItems env (next_tick w) items in
  let id := next_request w in
  let r := setItems env items w in
  (trace (snd r) =
     trace w ++ ETransaction readwrite
       :: placed id (Put <$> recs) ++ events env id (Put <$> recs)
   /\ length recs = length items
   /\ fst <$> items = Item.key <$> recs) /\
  (fst r = Fulfilled true <-> forall i, i < length items -> idb_fault env (id + i) = None) /\
  (fst r = Fulfilled true ->
   events env id (Put <$> recs) = ESuccess <$> seq id (length items) /\
   idb_objectStore (snd r) = Some (applied (Put <$> recs) m) /\
   forall i item,
     recs !! i = Some item ->
     (forall i' item', i < i' -> recs !! i' = Some item' -> Item.key item' <> Item.key item) ->
     idb_objectStore (snd r) ≫= (.!! Item.key item) = Some item) /\
  (forall j name,
      j < length items -> idb_fault env (id + j) = Some name ->
      (forall i, i < j -> idb_fault env (id + i) = None) ->
      fst r = Rejected (DOMException name) /\
      events env id (Put <$> recs) =
        (ESuccess <$> seq id j) ++ EError (id + j) name
          :: ((fun i => EError i "AbortError") <$> seq (S (id + j)) (length items - S j)) /\
      idb_objectStore (snd r) = Some m) /\
  (forall e, fst r = Rejected e -> idb_objectStore (snd r) = Some m) /\
  fst r <> Pending /\
  setItems env [] w = (Fulfilled true, log (ETransaction readwrite) w) /\
  removeItems env [] w = (Fulfilled true, log (ETransaction readwrite) w).
Proof.
  intros Hc recs id r.
  assert (Hr : r = (batch_outcome env w (length items),
                    after_batch env w m (Put <$> recs) (length items)))
    by (apply setItems_connected; exact Hc).
  assert (Hlen : length (Put <$> recs) = length items)
    by (unfold recs; now rewrite length_fmap, length_dbItems).
  rewrite Hr. cbn [fst snd]. unfold batch_outcome. fold id.
  change (idb_objectStore (after_batch env w m (Put <$> recs) (length items)))
    with (Some (survivors env id (Put <$> recs) m)).
  rewrite survivors_cases, Hlen.
  split; [|split; [|split; [|split; [|split; [|split; [|split]]]]]].
  - split; [reflexivity|]. split; [apply length_dbItems | apply keys_dbItems].
  - rewrite <- first_fault_None.
    destruct (first_fault env id (length items)); split; congruence.
  - intros Hok.
    destruct (first_fault env id (length items)) eqn:Hclean; [discriminate|].
    split; [rewrite events_clean; now rewrite Hlen|].
    split; [reflexivity|].
    intros i item Hi Hlater. simpl. now apply applied_put_kept with (i := i).
  - intros j name Hj Hname Hbefore.
    rewrite (first_fault_Some env id (length items) j name Hj Hname Hbefore).
    split; [reflexivity|]. split; [|reflexivity].
    rewrite <- Hlen in *. now apply events_fault.
  - intros e He. destruct (first_fault env id (length items)); [reflexivity|discriminate].
  - destruct (first_fault env id (length items)); discriminate.
  - destruct Hc as [Hdb Hm]. unfold setItems, and_then.
    now rewrite (ensureDB_connected env w Hdb), (transaction_connected readwrite w m Hm).
  - destruct Hc as [Hdb Hm]. unfold removeItems, and_then.
    now rewrite (ensureDB_connected env w Hdb), (transaction_connected readwrite w m Hm).
Qed.

Lemma setItems_batch_witness :
  let items := [("a", JNumber 1); ("b", JNumber 2); ("c", JNumber 3)] in
  let r := setItems (quota_at 1) items (opened ∅ ∅) in
  fst r = Rejected (DOMException "QuotaExceededError") /\
  idb_objectStore (snd r) = Some ∅ /\
  idb_objectStore (snd (setItems (calm 0) items (opened ∅ ∅))) ≫= (.!! "a")
  = Some (Item.make "a" (Some "1") 0).
Proof.
  intros items r.
  destruct (setItems_batch (quota_at 1) items (opened ∅ ∅) ∅ (conj eq_refl eq_refl))
    as (_ & _ & _ & Hfirst & _).
  destruct (Hfirst 1 "QuotaExceededError") as (Hrej & _ & Hback);
    [simpl; lia | reflexivity | intros i Hi; destruct i; [reflexivity | lia] |].
  split; [exact Hrej|]. split; [exact Hback|].
  destruct (setItems_batch (calm 0) items (opened ∅ ∅) ∅ (conj eq_refl eq_refl))
    as (_ & Hiff & Hok & _).
  destruct Hok as (_ & _ & Hkept); [apply Hiff; intros i _; reflexivity|].
  apply (Hkept 0 (Item.make "a" (Some "1") 0)); [reflexivity|].
  intros i' item' Hi' Hitem. destruct i' as [|[|[|i']]]; try lia;
    simpl in Hitem; inversion Hitem; discriminate.
Defined.

(** C4 as stated fails: the first put of a batch had its success event,
    the second failed, and the write that had been applied is not there
    afterwards: the store is as it was before the batch, and the third
    request failed with [AbortError]. *)
Lemma setItems_rolls_back :
  let items := [("a", JNumber 1); ("b", JNumber 2); ("c", JNumber 3)] in
  let r := setItems (quota_at 1) items (opened ∅ ∅) in
  fst r = Rejected (DOMException "QuotaExceededError") /\
  trace (snd r) =
    [ETransaction readwrite;
     ERequest 0 (Put (Item.make "a" (Some "1") 0));
     ERequest 1 (Put (Item.make "b" (Some "2") 0));
     ERequest 2 (Put (Item.make "c" (Some "3") 0));
     ESuccess 0; EError 1 "QuotaExceededError"; EError 2 "AbortError"] /\
  idb_objectStore (snd r) ≫= (.!! "a") = None /\
  idb_objectStore (snd r) = Some ∅.
Proof. vm_compute. repeat split; reflexivity. Qed.

(** ** Migration *)

(** The effects of [ensureDB]: opening, perhaps creating the store, and
    the event of the open request. *)
Lemma ensureDB_effects (env : Env) (w : World) :
  exists added,
    trace (snd (ensureDB env w)) = trace w ++ added /\
    Forall (fun e => is_legacy_removal e = false /\ is_request e = false) added /\
    (forall u, fst (ensureDB env w) = Normal u -> Forall (fun e => is_error e = false) added) /\
    localStorage (snd (ensureDB env w)) = localStorage w.
Proof.
  unfold ensureDB, initDB, indexedDB_open, open_fire, onupgradeneeded.
  destruct w as [dbf ver st ls nr nt tr]. simpl.
  destruct dbf; [exists []; simpl; rewrite app_nil_r; auto|].
  destruct (idb_fault env nr) as [name|];
    [|destruct (ver <? dbVersion);
      [destruct st|destruct (dbVersion <? ver)]];
    simpl; rewrite <- ?app_assoc; simpl;
    (eexists; split; [reflexivity|]);
    (split; [repeat constructor|]);
    (split; [intros u Hu; first [discriminate Hu | repeat constructor] | reflexivity]).
Qed.

(** [setItems] on any page: the connection first, then the batch. *)
Lemma setItems_any (env : Env) (items : list (string * JsValue)) (w : World) :
  match ensureDB env w with
  | (Throw e, w1) => setItems env items w = (Rejected e, w1)
  | (Normal _, w1) =>
      match idb_objectStore w1 with
      | None => setItems env items w = (Rejected (DOMException "NotFoundError"), w1)
      | Some m =>
          connected w1 m /\
          setItems env items w =
          (batch_outcome env w1 (length items),
           after_batch env w1 m (Put <$> dbItems env (next_tick w1) items) (length items))
      end
  end.
Proof.
  destruct (ensureDB env w) as [[[]|e] w1] eqn:E.
  2:{ unfold setItems, and_then. now rewrite E. }
  pose proof (ensureDB_Normal env w w1 tt E) as (Hdb & _).
  assert (Hsame : setItems env items w = setItems env items w1).
  { unfold setItems, and_then. now rewrite E, (ensureDB_connected env w1 Hdb). }
  destruct (idb_objectStore w1) as [m|] eqn:Hm.
  - split; [split; assumption|]. rewrite Hsame.
    apply setItems_connected. split; assumption.
  - rewrite Hsame. unfold setItems, and_then, transaction.
    now rewrite (ensureDB_connected env w1 Hdb), Hm.
Qed.

Lemma placed_ids (id : nat) (reqs : list Request) (i : nat) (req : Request) :
  ERequest i req ∈ placed id reqs -> i ∈ seq id (length reqs).
Proof.
  revert id. induction reqs as [|r reqs IH]; intros id; simpl.
  - intros H. inversion H.
  - intros H. apply elem_of_cons in H as [[= -> ->]|H]; [now left|].
    right. now apply IH.
Qed.

Lemma placed_kinds (id : nat) (reqs : list Request) :
  Forall (fun e => is_legacy_removal e = false /\ is_error e = false) (placed id reqs).
Proof. revert id. induction reqs; intros id; simpl; constructor; auto. Qed.

Lemma aborted_events_kinds (id : nat) (reqs : list Request) :
  Forall (fun e => is_legacy_removal e = false /\ is_request e = false)
         (aborted_events id reqs).
Proof. revert id. induction reqs; intros id; simpl; constructor; auto. Qed.

Lemma events_kinds (env : Env) (id : nat) (reqs : list Request) :
  Forall (fun e => is_legacy_removal e = false /\ is_request e = false) (events env id reqs).
Proof.
  revert id. induction reqs; intros id; simpl; [constructor|].
  destruct (idb_fault env id); constructor; auto. apply aborted_events_kinds.
Qed.

(** The removals of [clearLocalStorage] touch nothing but the legacy
    store and the trace. *)
Lemma remove_each_trace (keys : list string) (w : World) :
  trace (fold_left (fun w key => localStorage_removeItem key w) keys w)
  = trace w ++ (ELsRemoveItem <$> keys).
Proof.
  revert w. induction keys as [|key keys IH]; intros w; simpl.
  - now rewrite app_nil_r.
  - rewrite IH. simpl. now rewrite <- app_assoc.
Qed.

Lemma clear_source_trace (keys : option (list string)) (w : World) :
  trace (if keys_given keys
         then fold_left (fun w key => localStorage_removeItem key w) (default [] keys) w
         else localStorage_clear w)
  = trace w ++ removals keys.
Proof.
  unfold removals. destruct (keys_given keys); [apply remove_each_trace | reflexivity].
Qed.

(** A removal can only sit behind a stretch of the trace without one. *)
Lemma removal_after (front back pre post : list Effect) (e : Effect) :
  Forall (fun e => is_legacy_removal e = false) front ->
  front ++ back = pre ++ e :: post ->
  is_legacy_removal e = true ->
  exists mid, pre = front ++ mid.
Proof.
  revert pre. induction front as [|x front IH]; intros pre Hfront Heq He.
  - exists pre. reflexivity.
  - inversion Hfront as [|? ? Hx Hrest]; subst.
    destruct pre as [|y pre]; simpl in Heq.
    + injection Heq as -> _. congruence.
    + injection Heq as <- Heq.
      destruct (IH pre Hrest Heq He) as [mid ->]. now exists mid.
Qed.

(** *** What is read from the legacy store *)

Lemma collect_keys (w : World) (keys : list string) (acc : list (string * JsValue)) :
  fold_left (migrate_key w) keys acc = acc ++ items_of_keys (localStorage w) keys.
Proof.
  revert acc. induction keys as [|key keys IH]; intros acc; simpl.
  - now rewrite app_nil_r.
  - rewrite IH. unfold migrate_key, localStorage_getItem.
    destruct (localStorage w !! key); simpl; [now rewrite <- app_assoc | reflexivity].
Qed.

Lemma collect_indices (w : World) (pre suf : list (string * string))
    (acc : list (string * JsValue)) :
  map_to_list (localStorage w) = pre ++ suf ->
  Forall (fun kv => fst kv <> "") suf ->
  fold_left (migrate_index w) (seq (length pre) (length suf)) acc
  = acc ++ ((fun kv => (fst kv, parse_or_raw (snd kv))) <$> suf).
Proof.
  revert pre acc. induction suf as [|[k v] suf IH]; intros pre acc HL Hne; simpl.
  - now rewrite app_nil_r.
  - inversion Hne as [|? ? Hk Hrest]; subst. simpl in Hk.
    assert (Hkey : localStorage_key (length pre) w = Some k).
    { unfold localStorage_key. rewrite HL, fmap_app. simpl.
      rewrite lookup_app_r by (rewrite length_fmap; lia).
      now rewrite length_fmap, Nat.sub_diag. }
    assert (Hget : localStorage_getItem k w = Some v).
    { unfold localStorage_getItem. apply elem_of_map_to_list. rewrite HL.
      apply elem_of_app. right. now left. }
    unfold migrate_index at 2. rewrite Hkey. simpl.
    replace (String.eqb k "") with false
      by (symmetry; now apply String.eqb_neq).
    simpl. unfold migrate_key. rewrite Hget.
    replace (S (length pre)) with (length (pre ++ [(k, v)]))
      by (rewrite length_app; simpl; lia).
    rewrite IH; [now rewrite <- app_assoc | now rewrite <- app_assoc | assumption].
Qed.

Lemma collect_items_spec (env : Env) (keys : option (list string)) (w : World) :
  localStorage_fault env = None ->
  (keys_given keys = true ->
   collect_items env keys w = Normal (items_of_keys (localStorage w) (default [] keys))) /\
  (keys_given keys = false -> localStorage w !! "" = None ->
   collect_items env keys w = Normal (items_of_all (localStorage w))).
Proof.
  intros Hf. unfold collect_items, localStorage_access. rewrite Hf. split.
  - intros ->. now rewrite collect_keys.
  - intros -> Hempty. unfold localStorage_length.
    rewrite <- length_map_to_list.
    rewrite (collect_indices w [] (map_to_list (localStorage w))); [reflexivity..|].
    apply Forall_forall. intros [k v] Hin Hk. simpl in Hk. subst k.
    apply elem_of_map_to_list in Hin. congruence.
Qed.

Lemma collect_items_Throw (env : Env) (keys : option (list string)) (w : World)
    (e : JsError) :
  collect_items env keys w = Throw e ->
  exists name, localStorage_fault env = Some name /\ e = DOMException name.
Proof.
  unfold collect_items, localStorage_access.
  destruct (localStorage_fault env) as [name|].
  - intros [= <-]. eauto.
  - destruct (keys_given keys); discriminate.
Qed.

(** *** The trace of a migration *)

Lemma puts_app (a b : list Effect) : puts (a ++ b) = puts a ++ puts b.
Proof. unfold puts. apply omap_app. Qed.

Lemma puts_placed (id : nat) (recs : list Item.t) : puts (placed id (Put <$> recs)) = recs.
Proof.
  revert id. induction recs as [|r recs IH]; intros id; simpl; [reflexivity|].
  unfold puts in *. simpl. now rewrite IH.
Qed.

Lemma puts_no_request (t : list Effect) :
  Forall (fun e => is_request e = false) t -> puts t = [].
Proof.
  induction 1 as [|e t He Ht IH]; [reflexivity|].
  unfold puts in *. destruct e; simpl in *; solve [discriminate He | exact IH].
Qed.

Lemma removals_kinds (keys : option (list string)) :
  Forall (fun e => is_request e = false /\ is_error e = false) (removals keys).
Proof.
  unfold removals. destruct (keys_given keys).
  - induction (default [] keys); simpl; constructor; auto.
  - repeat constructor.
Qed.

Lemma request_success (env : Env) (id : nat) (reqs : list Request) (i : nat)
    (req : Request) :
  first_fault env id (length reqs) = None ->
  ERequest i req ∈ placed id reqs -> ESuccess i ∈ events env id reqs.
Proof.
  intros Hclean Hin. rewrite events_clean by assumption.
  apply list_elem_of_fmap. exists i. split; [reflexivity|].
  exact (placed_ids id reqs i req Hin).
Qed.

Lemma batch_effects_kinds (env : Env) (id : nat) (reqs : list Request) :
  Forall (fun e => is_legacy_removal e = false) (batch_effects env id reqs).
Proof.
  unfold batch_effects. constructor; [reflexivity|]. apply Forall_app. split.
  - eapply Forall_impl; [apply placed_kinds|]. now intros e [H _].
  - eapply Forall_impl; [apply events_kinds|]. now intros e [H _].
Qed.

Lemma batch_effects_clean (env : Env) (id : nat) (reqs : list Request) :
  first_fault env id (length reqs) = None ->
  Forall (fun e => is_error e = false) (batch_effects env id reqs) /\
  (forall i req, ERequest i req ∈ batch_effects env id reqs ->
                 ERequest i req ∈ placed id reqs /\
                 ESuccess i ∈ batch_effects env id reqs).
Proof.
  intros Hclean. unfold batch_effects. split.
  - constructor; [reflexivity|]. apply Forall_app. split.
    + eapply Forall_impl; [apply placed_kinds|]. now intros e [_ H].
    + rewrite events_clean by assumption. apply Forall_fmap, Forall_true. reflexivity.
  - intros i req Hin. apply elem_of_cons in Hin as [Hin|Hin]; [discriminate|].
    apply elem_of_app in Hin as [Hin|Hin].
    + split; [exact Hin|]. right. apply elem_of_app. right.
      now apply request_success with (req := req).
    + exfalso. pose proof (events_kinds env id reqs) as Hk.
      rewrite Forall_forall in Hk. destruct (Hk _ Hin) as [_ Hr]. discriminate Hr.
Qed.

(** The three ways a migration can go. *)
Lemma migrate_cases (env : Env) (keys : option (list string)) (clearLocalStorage : bool)
    (w : World) :
  let r := migrateFromLocalStorage env keys clearLocalStorage w in
  (exists e, collect_items env keys w = Throw e /\ r = (Rejected e, w)) \/
  (collect_items env keys w = Normal [] /\ r = (Fulfilled 0, w)) \/
  (exists items front,
     collect_items env keys w = Normal items /\ items <> [] /\
     Forall (fun e => is_legacy_removal e = false) front /\
     ((exists e,
         fst (setItems env items w) = Rejected e /\ fst r = Rejected e /\
         trace (snd r) = trace w ++ front /\
         localStorage (snd r) = localStorage w) \/
      (fst (setItems env items w) = Fulfilled true /\
       fst r = Fulfilled (length items) /\
       trace (snd r) =
         trace w ++ front ++ (if clearLocalStorage then removals keys else []) /\
       Forall (fun e => is_error e = false) front /\
       (exists id req, ERequest id req ∈ front) /\
       (forall id req, ERequest id req ∈ front -> ESuccess id ∈ front)))).
Proof.
  intros r. subst r. unfold migrateFromLocalStorage.
  destruct (collect_items env keys w) as [items|e] eqn:Ec; [|left; eauto].
  right. destruct items as [|item items]; [left; auto|].
  right. change (length (item :: items) =? 0) with false. cbv iota.
  set (its := item :: items) in *.
  pose proof (setItems_any env its w) as Hset.
  destruct (ensureDB_effects env w) as (A & HA & HAk & HAerr & HAls).
  assert (HAr : Forall (fun e => is_legacy_removal e = false) A)
    by (eapply Forall_impl; [exact HAk|]; now intros e [H _]).
  destruct (ensureDB env w) as [[u|e] w1] eqn:Ee; simpl in HA, HAls, HAerr.
  2:{ rewrite Hset. exists its, A.
      split; [reflexivity|]. split; [discriminate|]. split; [exact HAr|].
      left. exists e. rewrite Hset. simpl. auto. }
  destruct (idb_objectStore w1) as [m|] eqn:Hm.
  2:{ rewrite Hset. exists its, A.
      split; [reflexivity|]. split; [discriminate|]. split; [exact HAr|].
      left. eexists. rewrite Hset. simpl. auto. }
  destruct Hset as [Hc Hset]. rewrite Hset. unfold batch_outcome.
  set (reqs := Put <$> dbItems env (next_tick w1) its).
  assert (Hlen : length reqs = length its)
    by (unfold reqs; now rewrite length_fmap, length_dbItems).
  exists its, (A ++ batch_effects env (next_request w1) reqs).
  split; [reflexivity|]. split; [discriminate|].
  split; [apply Forall_app; split; [exact HAr | apply batch_effects_kinds]|].
  rewrite Hset. cbn [fst]. unfold batch_outcome.
  destruct (first_fault env (next_request w1) (length its)) as [name|] eqn:Hff.
  - left. exists (DOMException name). simpl.
    split; [reflexivity|]. split; [reflexivity|]. split; [|exact HAls].
    now rewrite HA, <- app_assoc.
  - right. rewrite <- Hlen in Hff.
    destruct (batch_effects_clean env (next_request w1) reqs Hff) as [Hclean Hreq].
    split; [reflexivity|]. split; [reflexivity|]. split; [|split; [|split]].
    + cbn [snd]. destruct clearLocalStorage.
      * rewrite clear_source_trace. simpl. rewrite HA.
        now rewrite <- !app_assoc.
      * simpl. rewrite HA, app_nil_r. now rewrite <- !app_assoc.
    + apply Forall_app. split; [apply (HAerr u); reflexivity | exact Hclean].
    + exists (next_request w1), (Put (Item.make (fst item) (serialize (snd item))
                                               (clock env (next_tick w1)))).
      apply elem_of_app. right. unfold batch_effects. right. left.
    + intros id req Hin. apply elem_of_app in Hin as [Hin|Hin].
      * exfalso. rewrite Forall_forall in HAk. destruct (HAk _ Hin) as [_ Hr]. discriminate Hr.
      * apply elem_of_app. right. now apply (Hreq id req).
Qed.

(** C3.  [migrateFromLocalStorage(keys, true)]: whatever is removed from
    the legacy store is removed after every [put] of the batch was placed
    and had its success event, with no error before it; a migration that
    does not fulfil removes nothing; and when the batch write is rejected
    the migration is rejected with the same error and the legacy store is
    as it was. *)
Theorem migrate_clears_after_write (env : Env) (keys : option (list string)) (w : World) :
  let r := migrateFromLocalStorage env keys true w in
  exists added,
    trace (snd r) = trace w ++ added /\
    ((forall n, fst r <> Fulfilled n) ->
     localStorage (snd r) = localStorage w /\
     Forall (fun e => is_legacy_removal e = false) added) /\
    (forall items e,
       collect_items env keys w = Normal items -> items <> [] ->
       fst (setItems env items w) = Rejected e ->
       fst r = Rejected e /\ localStorage (snd r) = localStorage w) /\
    (forall pre e post,
       added = pre ++ e :: post -> is_legacy_removal e = true ->
       (exists items,
          collect_items env keys w = Normal items /\
          fst (setItems env items w) = Fulfilled true /\
          fst r = Fulfilled (length items)) /\
       Forall (fun e => is_error e = false) pre /\
       (exists id req, ERequest id req ∈ pre) /\
       (forall id req, ERequest id req ∈ added ->
                       ERequest id req ∈ pre /\ ESuccess id ∈ pre)).
Proof.
  intros r.
  destruct (migrate_cases env keys true w) as
    [(e & Hc & Hr) | [(Hc & Hr) | (items & front & Hc & Hne & Hfront & Hcase)]];
    fold r in Hr || fold r in Hcase.
  - exists []. rewrite Hr, app_nil_r. simpl.
    split; [reflexivity|]. split; [auto|]. split.
    + intros items e' Hc'. congruence.
    + intros pre e' post Heq. now destruct pre.
  - exists []. rewrite Hr, app_nil_r. simpl.
    split; [reflexivity|]. split; [auto|]. split.
    + intros items e' Hc' Hne. congruence.
    + intros pre e' post Heq. now destruct pre.
  - destruct Hcase as [(e & Hset & Hrej & Htr & Hls) | (Hset & Hful & Htr & Hclean & Hex & Hsucc)].
    + exists front. split; [exact Htr|]. split; [auto|]. split.
      * intros items' e' Hc' _ Hset'. assert (items' = items) as -> by congruence.
        split; [congruence | exact Hls].
      * intros pre e' post Heq He. exfalso.
        rewrite Forall_forall in Hfront.
        assert (Hin : e' ∈ front) by (rewrite Heq; apply elem_of_app; right; now left).
        specialize (Hfront _ Hin). congruence.
    + exists (front ++ removals keys). split; [exact Htr|]. split; [|split].
      * intros Hnot. now destruct (Hnot (length items)).
      * intros items' e' Hc' _ Hset'. assert (items' = items) as -> by congruence.
        congruence.
      * intros pre e' post Heq He.
        destruct (removal_after front (removals keys) pre post e' Hfront Heq He) as [mid ->].
        rewrite <- app_assoc in Heq. apply app_inv_head in Heq.
        pose proof (removals_kinds keys) as Hk. rewrite Heq in Hk.
        apply Forall_app in Hk as [Hmid _].
        split; [exists items; auto|]. split; [|split].
        -- apply Forall_app. split; [exact Hclean|].
           eapply Forall_impl; [exact Hmid|]. now intros x [_ H].
        -- destruct Hex as (id & req & Hin). exists id, req.
           apply elem_of_app. now left.
        -- intros id req Hin. apply elem_of_app in Hin as [Hin|Hin].
           ++ split; apply elem_of_app; left; [exact Hin | now apply (Hsucc id req)].
           ++ exfalso. pose proof (removals_kinds keys) as Hk'.
              rewrite Forall_forall in Hk'. destruct (Hk' _ Hin) as [Hr _]. discriminate Hr.
Qed.

Lemma migrate_clears_after_write_witness :
  let ls : gmap string string := <["lang" := "en"]> (<["count" := "12"]> ∅) in
  let r := migrateFromLocalStorage (quota_at 1) None true (opened ∅ ls) in
  fst r = Rejected (DOMException "QuotaExceededError") /\
  localStorage (snd r) = ls.
Proof.
  intros ls r.
  destruct (migrate_clears_after_write (quota_at 1) None (opened ∅ ls))
    as (added & _ & _ & Hfail & _).
  apply (Hfail (items_of_all ls));
    [vm_compute; reflexivity | vm_compute; discriminate | vm_compute; reflexivity].
Defined.

Lemma keys_of_items_of_keys (ls : gmap string string) (keys : list string) :
  fst <$> items_of_keys ls keys = filter (fun key => is_Some (ls !! key)) keys.
Proof.
  induction keys as [|key keys IH]; [reflexivity|].
  destruct (ls !! key) as [v|] eqn:E.
  - rewrite filter_cons_True by (rewrite E; eauto). rewrite <- IH.
    unfold items_of_keys. simpl. now rewrite E.
  - rewrite filter_cons_False by (rewrite E; intros [v Hv]; discriminate).
    rewrite <- IH. unfold items_of_keys. simpl. now rewrite E.
Qed.

Lemma keys_of_items_of_all (ls : gmap string string) :
  fst <$> items_of_all ls = (map_to_list ls).*1.
Proof.
  unfold items_of_all. rewrite <- list_fmap_compose. reflexivity.
Qed.

Lemma puts_batch_effects (env : Env) (id : nat) (recs : list Item.t) :
  puts (batch_effects env id (Put <$> recs)) = recs.
Proof.
  unfold batch_effects.
  change (puts (ETransaction readwrite :: ?t)) with (puts t).
  rewrite puts_app, puts_placed, puts_no_request, app_nil_r; [reflexivity|].
  eapply Forall_impl; [apply events_kinds|]. now intros e [_ H].
Qed.

(** C6 (as amended).  On an established connection, with the legacy
    store readable: when [keys] is given and not empty, the entries
    migrated are those of [keys] that the legacy store holds, in the order
    of [keys]; when [keys] is omitted or empty, they are all the entries
    of the legacy store (a legacy store with the empty string as a key
    aside).  One [put] is placed for each of them and no other; a
    fulfilled migration returns their number; and with nothing to migrate
    it fulfils with 0 and has no effect at all. *)
Theorem migrate_selected_keys (env : Env) (keys : option (list string))
    (clearLocalStorage : bool) (w : World) (m : gmap string Item.t) :
  connected w m ->
  localStorage_fault env = None ->
  keys_given keys = true \/ localStorage w !! "" = None ->
  let r := migrateFromLocalStorage env keys clearLocalStorage w in
  let items :=
    if keys_given keys
    then items_of_keys (localStorage w) (default [] keys)
    else items_of_all (localStorage w) in
  collect_items env keys w = Normal items /\
  fst <$> items =
    (if keys_given keys
     then filter (fun key => is_Some (localStorage w !! key)) (default [] keys)
     else (map_to_list (localStorage w)).*1) /\
  (exists added,
     trace (snd r) = trace w ++ added /\
     puts added = dbItems env (next_tick w) items) /\
  (forall n, fst r = Fulfilled n -> n = length items) /\
  (items = [] -> r = (Fulfilled 0, w)).
Proof.
  intros Hc Hf Hk r items.
  destruct (collect_items_spec env keys w Hf) as [Hgiven Hall].
  assert (Hcol : collect_items env keys w = Normal items).
  { subst items. destruct (keys_given keys) eqn:Eg; [now apply Hgiven|].
    apply Hall; [reflexivity|]. destruct Hk as [Hk|Hk]; [discriminate | exact Hk]. }
  split; [exact Hcol|]. split.
  { subst items. destruct (keys_given keys);
      [apply keys_of_items_of_keys | apply keys_of_items_of_all]. }
  subst r. unfold migrateFromLocalStorage. rewrite Hcol.
  destruct items as [|item items'] eqn:Ei.
  { simpl. split; [exists []; now rewrite app_nil_r|]. split; [congruence | reflexivity]. }
  rewrite <- Ei. replace (length items =? 0) with false by (now rewrite Ei).
  rewrite (setItems_connected env items w m Hc). unfold batch_outcome.
  fold (batch_effects env (next_request w) (Put <$> dbItems env (next_tick w) items)).
  destruct (first_fault env (next_request w) (length items)).
  - simpl. split; [|split; [discriminate | congruence]].
    eexists. split; [reflexivity|]. apply puts_batch_effects.
  - cbn [resolve fst snd]. split; [|split; [congruence | congruence]].
    exists (batch_effects env (next_request w) (Put <$> dbItems env (next_tick w) items)
              ++ (if clearLocalStorage then removals keys else [])).
    split.
    + destruct clearLocalStorage.
      * rewrite clear_source_trace. simpl. unfold batch_effects.
        rewrite <- app_assoc. reflexivity.
      * simpl. now rewrite app_nil_r.
    + rewrite puts_app, puts_batch_effects.
      rewrite puts_no_request; [apply app_nil_r|].
      destruct clearLocalStorage; [|constructor].
      eapply Forall_impl; [apply removals_kinds|]. now intros e [H _].
Qed.

Lemma migrate_selected_keys_witness :
  let ls : gmap string string := <["lang" := "en"]> (<["count" := "12"]> ∅) in
  (forall n,
     fst (migrateFromLocalStorage (calm 0) (Some ["lang"; "zoom"]) false (opened ∅ ls))
     = Fulfilled n -> n = 1) /\
  collect_items (calm 0) None (opened ∅ ls) = Normal (items_of_all ls).
Proof.
  intros ls. split.
  - intros n Hn.
    destruct (migrate_selected_keys (calm 0) (Some ["lang"; "zoom"]) false (opened ∅ ls) ∅
                (conj eq_refl eq_refl) eq_refl (or_introl eq_refl))
      as (_ & _ & _ & Hcount & _).
    exact (Hcount n Hn).
  - destruct (migrate_selected_keys (calm 0) None true (opened ∅ ls) ∅
                (conj eq_refl eq_refl) eq_refl (or_intror eq_refl))
      as (Hcol & _).
    exact Hcol.
Defined.

(** C6 as stated fails: with [keys] given as the empty array, nothing
    should be migrated, yet the whole legacy store is. *)
Lemma migrate_empty_keys_migrates_all :
  let w := opened ∅ {[ "a" := "1" ]} in
  let r := migrateFromLocalStorage (calm 0) (Some []) false w in
  items_of_keys (localStorage w) [] = [] /\
  fst r = Fulfilled 1 /\
  Item.key <$> puts (trace (snd r)) = ["a"].
Proof. vm_compute. repeat split; reflexivity. Qed.

(** The legacy store may hold the empty string as a key; the loop over
    all keys passes over it. *)
Lemma migrate_passes_over_empty_key :
  let w := opened ∅ {[ "" := "x" ]} in
  migrateFromLocalStorage (calm 0) None false w = (Fulfilled 0, w).
Proof. vm_compute. reflexivity. Qed.

(** ** Automatic migration *)

(** [getCount] on any page: it reads, and changes neither store. *)
Lemma getCount_any (env : Env) (w : World) :
  let r := getCount env w in
  localStorage (snd r) = localStorage w /\
  (forall m, idb_objectStore w = Some m -> idb_objectStore (snd r) = Some m) /\
  (exists added,
     trace (snd r) = trace w ++ added /\
     (forall id req, ERequest id req ∈ added -> req = Count) /\
     Forall (fun e => is_legacy_removal e = false) added /\
     (forall n, fst r = Fulfilled n -> Forall (fun e => is_error e = false) added)) /\
  ((exists name, fst r = Rejected (DOMException name)) \/
   (exists m, fst r = Fulfilled (size m) /\ connected (snd r) m /\
              (forall m0, idb_objectStore w = Some m0 -> m0 = m))).
Proof.
  assert (Hreq : forall (t : list Effect) id req,
             Forall (fun e => match e with ERequest _ r => r = Count | _ => True end) t ->
             ERequest id req ∈ t -> req = Count).
  { intros t id req Ht Hin. rewrite Forall_forall in Ht. exact (Ht _ Hin). }
  unfold getCount, and_then, ensureDB, initDB, indexedDB_open, open_fire,
    onupgradeneeded, transaction, place, fire, result_count, records, connected.
  destruct w as [dbf ver st ls nr nt tr]. simpl.
  destruct dbf;
    [|destruct (idb_fault env nr) as [name|];
      [|destruct (ver <? dbVersion); [|destruct (dbVersion <? ver)]]];
    simpl; try destruct st as [m|]; simpl;
    try destruct (idb_fault env nr) as [name'|]; simpl;
    try destruct (idb_fault env (S nr)) as [name''|]; simpl;
    rewrite <- ?app_assoc; simpl;
    (split; [reflexivity|]);
    (split; [intros m0 Hm0; first [exact Hm0 | discriminate Hm0]|]);
    (split;
     [eexists; split; [first [reflexivity | symmetry; apply app_nil_r]|];
      split; [intros id req Hin; apply (Hreq _ id req) in Hin; [exact Hin|];
              repeat constructor|];
      split; [repeat constructor|];
      intros n Hn; first [discriminate Hn | repeat constructor]|]);
    first [left; eexists; reflexivity
          | right; eexists; split; [reflexivity|]; split; [split; reflexivity|];
            intros m0 Hm0; congruence].
Qed.

Lemma puts_only_counts (t : list Effect) :
  (forall id req, ERequest id req ∈ t -> req = Count) -> puts t = [].
Proof.
  induction t as [|e t IH]; intros H; [reflexivity|].
  assert (Ht : puts t = []) by (apply IH; intros id req Hin; apply (H id req); now right).
  unfold puts in *. destruct e as [ | | |id req| | | | ]; simpl; try exact Ht.
  rewrite (H id req) by now left. exact Ht.
Qed.

Lemma migrate_settles (env : Env) (keys : option (list string)) (clearLocalStorage : bool)
    (w : World) :
  fst (migrateFromLocalStorage env keys clearLocalStorage w) <> Pending.
Proof.
  destruct (migrate_cases env keys clearLocalStorage w) as
    [(e & _ & ->) | [(_ & ->) | (items & front & _ & _ & _ & Hcase)]];
    [discriminate | discriminate |].
  destruct Hcase as [(e & _ & -> & _) | (_ & -> & _)]; discriminate.
Qed.

(** C2.  [autoMigrateFromLocalStorage] always fulfils, never rejects.  With
    a record in the destination it gives [false], and the only request it
    places is the count: both stores are as they were.  With an empty
    legacy store it gives [false].  It gives [false] as well when the count
    is rejected, when the legacy store cannot be touched, and when the
    migration is rejected; so an answer of [true] means no request had an
    error event. *)
Theorem autoMigrate_best_effort (env : Env) (w : World) :
  let r := autoMigrateFromLocalStorage env w in
  (exists b, fst r = Fulfilled b) /\
  (forall m, idb_objectStore w = Some m -> size m <> 0 ->
     fst r = Fulfilled false /\
     idb_objectStore (snd r) = Some m /\
     localStorage (snd r) = localStorage w /\
     exists added,
       trace (snd r) = trace w ++ added /\ puts added = [] /\
       (forall id req, ERequest id req ∈ added -> req = Count)) /\
  (size (localStorage w) = 0 -> fst r = Fulfilled false) /\
  (forall e, fst (getCount env w) = Rejected e -> fst r = Fulfilled false) /\
  (forall name, localStorage_fault env = Some name -> fst r = Fulfilled false) /\
  (forall e,
     fst (migrateFromLocalStorage env None false (snd (getCount env w))) = Rejected e ->
     fst r = Fulfilled false) /\
  (fst r = Fulfilled true ->
   exists added,
     trace (snd r) = trace w ++ added /\ Forall (fun e => is_error e = false) added).
Proof.
  intros r. subst r. unfold autoMigrateFromLocalStorage.
  destruct (getCount_any env w) as (Hls & Hst & (added & Htr & Hreq & _ & Herr) & Hres).
  destruct (getCount env w) as [p w1] eqn:Eg. cbn [fst snd] in *.
  (* what holds whenever the answer is [false] in the world after the count *)
  assert (Hquiet : forall m, idb_objectStore w = Some m ->
             idb_objectStore w1 = Some m /\ localStorage w1 = localStorage w /\
             exists added, trace w1 = trace w ++ added /\ puts added = [] /\
                           (forall id req, ERequest id req ∈ added -> req = Count)).
  { intros m Hm. split; [now apply Hst|]. split; [exact Hls|].
    exists added. split; [exact Htr|]. split; [now apply puts_only_counts | exact Hreq]. }
  destruct Hres as [[name ->] | (m & -> & Hc & Hm)].
  { simpl. split; [eauto|]. split; [intros m Hm _; split; [reflexivity | now apply Hquiet]|].
    repeat split; auto; discriminate. }
  destruct (0 <? size m) eqn:Epos.
  { simpl. split; [eauto|]. split; [intros m0 Hm0 _; split; [reflexivity | now apply Hquiet]|].
    repeat split; auto; discriminate. }
  assert (Hzero : size m = 0) by (apply Nat.ltb_ge in Epos; lia).
  assert (Hnone : forall m0, idb_objectStore w = Some m0 -> size m0 <> 0 -> False).
  { intros m0 Hm0 Hsz. rewrite (Hm m0 Hm0) in Hsz. contradiction. }
  unfold localStorage_access.
  destruct (localStorage_fault env) as [name|] eqn:Ef.
  { simpl. split; [eauto|]. split; [intros m0 Hm0 Hsz; destruct (Hnone m0 Hm0 Hsz)|].
    repeat split; auto; discriminate. }
  unfold localStorage_length. rewrite Hls.
  destruct (size (localStorage w) =? 0) eqn:Elen.
  { simpl. split; [eauto|]. split; [intros m0 Hm0 Hsz; destruct (Hnone m0 Hm0 Hsz)|].
    repeat split; auto; discriminate. }
  apply Nat.eqb_neq in Elen.
  pose proof (migrate_settles env None false w1) as Hsettle.
  pose proof (migrate_cases env None false w1) as Hcases. cbv zeta in Hcases.
  destruct (migrateFromLocalStorage env None false w1) as [q w2] eqn:Em.
  cbn [fst snd] in *.
  destruct q as [|n|e]; [contradiction| |].
  2:{ simpl. split; [eauto|]. split; [intros m0 Hm0 Hsz; destruct (Hnone m0 Hm0 Hsz)|].
      repeat split; auto; discriminate. }
  cbn [resolve fst snd].
  split; [eauto|]. split; [intros m0 Hm0 Hsz; destruct (Hnone m0 Hm0 Hsz)|].
  split; [intros H; contradiction|]. split; [discriminate|].
  split; [discriminate|]. split; [discriminate|].
  intros Htrue.
  destruct Hcases as [(e & _ & [= ]) | [(_ & [= -> ->]) | (items & front & _ & _ & _ & Hcase)]];
    [discriminate Htrue|].
  destruct Hcase as [(e & _ & [= ] & _) | (_ & _ & Htr2 & Hclean & _)].
  exists (added ++ front). split.
  - rewrite Htr2, Htr, app_nil_r. now rewrite <- app_assoc.
  - apply Forall_app. split; [now apply (Herr (size m)) | exact Hclean].
Qed.

Lemma autoMigrate_best_effort_witness :
  let m : gmap string Item.t := {[ "theme" := Item.make "theme" (Some "dark") 1 ]} in
  let ls : gmap string string := {[ "lang" := "en" ]} in
  let r := autoMigrateFromLocalStorage (calm 0) (opened m ls) in
  fst r = Fulfilled false /\ idb_objectStore (snd r) = Some m /\
  fst (autoMigrateFromLocalStorage (quota_at 1) (opened ∅ ls)) = Fulfilled false.
Proof.
  intros m ls r.
  destruct (autoMigrate_best_effort (calm 0) (opened m ls)) as (_ & Hfull & _).
  destruct (Hfull m eq_refl) as (Hf & Hs & _); [vm_compute; discriminate|].
  split; [exact Hf|]. split; [exact Hs|].
  destruct (autoMigrate_best_effort (quota_at 1) (opened ∅ ls)) as (_ & _ & _ & _ & _ & Hmig & _).
  apply (Hmig (DOMException "QuotaExceededError")). vm_compute. reflexivity.
Defined.

(** ** The connection *)

Module ConnectionFacts.
Import Connection.

Lemma opens_log (e : Effect) (w : World) :
  opens (log e w) = opens w + (if is_open e then 1 else 0).
Proof.
  unfold opens. simpl. rewrite filter_app, length_app. f_equal.
  destruct e; reflexivity.
Qed.

Lemma creations_log (e : Effect) (w : World) :
  creations (log e w) = creations w + (if is_create e then 1 else 0).
Proof.
  unfold creations. simpl. rewrite filter_app, length_app. f_equal.
  destruct e; reflexivity.
Qed.

(** Placing an open request. *)
Lemma indexedDB_open_facts (w : World) :
  let w' := snd (indexedDB_open w) in
  opens w' = S (opens w) /\ creations w' = creations w /\
  db w' = db w /\ idb_objectStore w' = idb_objectStore w.
Proof.
  unfold indexedDB_open. cbn [snd].
  change (opens (bump_request ?x)) with (opens x).
  change (creations (bump_request ?x)) with (creations x).
  rewrite opens_log, creations_log. simpl. repeat split; lia.
Qed.

(** Completing one: no open is placed, [db] is never unset, and the store
    is created only when there is none. *)
Lemma open_fire_facts (env : Env) (id : nat) (w : World) :
  let w' := snd (open_fire env id w) in
  opens w' = opens w /\
  (db w = true -> db w' = true) /\
  (forall m, idb_objectStore w = Some m ->
             idb_objectStore w' = Some m /\ creations w' = creations w) /\
  (idb_objectStore w = None ->
   (idb_objectStore w' = None /\ creations w' = creations w) \/
   (is_Some (idb_objectStore w') /\ creations w' = S (creations w))).
Proof.
  unfold open_fire, onupgradeneeded.
  destruct (idb_fault env id) as [name|]; cbn [snd].
  { rewrite opens_log, creations_log. simpl. rewrite !Nat.add_0_r.
    repeat split; auto. }
  destruct (idb_version w <? dbVersion); [|destruct (dbVersion <? idb_version w)]; cbn [snd].
  - change (opens (with_db true ?x)) with (opens x).
    change (creations (with_db true ?x)) with (creations x).
    rewrite opens_log, creations_log.
    change (opens (with_version ?n ?x)) with (opens x).
    change (creations (with_version ?n ?x)) with (creations x).
    destruct (idb_objectStore w) as [m|] eqn:E; simpl.
    + rewrite E, !Nat.add_0_r. repeat split; auto; try discriminate.
      all: intros m0 [= <-]; auto.
    + rewrite opens_log, creations_log.
      change (opens (with_objectStore ?o ?x)) with (opens x).
      change (creations (with_objectStore ?o ?x)) with (creations x).
      simpl. rewrite !Nat.add_0_r. repeat split; auto; try discriminate.
      intros _. right. split; [eauto | lia].
  - rewrite opens_log, creations_log. simpl. rewrite !Nat.add_0_r. repeat split; auto.
  - change (opens (with_db true ?x)) with (opens x).
    change (creations (with_db true ?x)) with (creations x).
    rewrite opens_log, creations_log. simpl. rewrite !Nat.add_0_r. repeat split; auto.
Qed.

Ltac same_state :=
  split;
  [ intros ?; split; [assumption | reflexivity]
  | split; [ intros ?; assumption
           | intros ?; split; [assumption | reflexivity] ] ].

(** After the rest of an operation ran on a connection. *)
Lemma rest_facts (rest : World -> World) (w : World) (c0 : nat) :
  keeps_connection rest -> db w = true ->
  (db (rest w) = true /\ opens (rest w) = opens w) /\
  (settled_from c0 w -> settled_from c0 (rest w)) /\
  (is_Some (idb_objectStore w) ->
   is_Some (idb_objectStore (rest w)) /\ creations (rest w) = creations w).
Proof.
  intros Hk Hdb. destruct (Hk w Hdb) as (Hd & Ho & Hc & Hs).
  split; [auto|]. split.
  - intros [Hn Hle]. unfold settled_from. rewrite Hc. split; [|exact Hle].
    intros Hnone. apply Hn. destruct (idb_objectStore w) as [m|] eqn:E; [|reflexivity].
    assert (Hsome : is_Some (idb_objectStore (rest w))) by (apply Hs; eauto).
    rewrite Hnone in Hsome. now destruct Hsome.
  - intros Hsome. split; [now apply Hs | exact Hc].
Qed.

Lemma step_facts (env : Env) (s : State) (ev : Event) (c0 : nat) :
  well_behaved ev -> waiting_ok s ->
  let s' := step env s ev in
  waiting_ok s' /\
  (db (world s) = true -> db (world s') = true /\ opens (world s') = opens (world s)) /\
  (settled_from c0 (world s) -> settled_from c0 (world s')) /\
  (is_Some (idb_objectStore (world s)) ->
   is_Some (idb_objectStore (world s')) /\ creations (world s') = creations (world s)).
Proof.
  intros Hev Hwait. destruct ev as [rest|]; simpl.
  - unfold call. destruct (db (world s)) eqn:Hdb.
    + split; [exact Hwait|]. cbn [world].
      destruct (rest_facts rest (world s) c0 Hev Hdb) as (H1 & H2 & H3). auto.
    + pose proof (indexedDB_open_facts (world s)) as (Ho & Hc & Hd & Hs).
      destruct (indexedDB_open (world s)) as [rq w1]. simpl in *.
      split.
      { unfold waiting_ok. simpl. apply Forall_app. split; [exact Hwait|].
        constructor; [exact Hev | constructor]. }
      split; [discriminate|]. unfold settled_from. rewrite Hc, Hs. auto.
  - unfold open_done. destruct (in_flight s) as [|[rq who] later] eqn:Hq.
    { split; [exact Hwait|]. same_state. }
    assert (Hlater : Forall (fun x => match snd x with
                                      | Operation rest => keeps_connection rest
                                      | Constructor => True
                                      end) later).
    { unfold waiting_ok in Hwait. rewrite Hq in Hwait. now inversion Hwait. }
    assert (Hwho : match who with
                   | Operation rest => keeps_connection rest
                   | Constructor => True
                   end).
    { unfold waiting_ok in Hwait. rewrite Hq in Hwait. now inversion Hwait. }
    pose proof (open_fire_facts env rq (world s)) as (Ho & Hd & Hsome & Hnone).
    cbv zeta in *.
    (* the page after the open request was completed *)
    assert (Hopen :
              (db (world s) = true ->
               db (snd (open_fire env rq (world s))) = true /\
               opens (snd (open_fire env rq (world s))) = opens (world s)) /\
              (settled_from c0 (world s) ->
               settled_from c0 (snd (open_fire env rq (world s)))) /\
              (is_Some (idb_objectStore (world s)) ->
               is_Some (idb_objectStore (snd (open_fire env rq (world s)))) /\
               creations (snd (open_fire env rq (world s))) = creations (world s))).
    { split; [auto|]. split.
      - intros [Hn Hle]. unfold settled_from.
        destruct (idb_objectStore (world s)) as [m|] eqn:E.
        + destruct (Hsome m eq_refl) as [Hs Hc]. rewrite Hs, Hc.
          split; [discriminate | exact Hle].
        + destruct (Hnone eq_refl) as [[Hs Hc]|[Hs Hc]]; rewrite Hc, (Hn eq_refl).
          * split; [reflexivity | lia].
          * split; [|lia]. intros Hcontra. rewrite Hcontra in Hs. now destruct Hs.
      - intros [m Hm]. destruct (Hsome m Hm) as [Hs Hc]. rewrite Hs. eauto. }
    destruct (open_fire env rq (world s)) as [[error|] w1] eqn:Efire; cbn [snd] in *.
    + destruct who as [|rest]; cbn [world]; (split; [exact Hlater | exact Hopen]).
    + destruct who as [|rest]; cbn [world]; (split; [exact Hlater|]); [exact Hopen|].
      assert (Hdb1 : db w1 = true) by (apply open_fire_None in Efire; tauto).
      destruct (rest_facts rest w1 c0 Hwho Hdb1) as ((R1 & R1') & R2 & R3).
      destruct Hopen as (O1 & O2 & O3).
      split; [|split].
      * intros Hdb. destruct (O1 Hdb) as [_ Ho1]. split; [exact R1 | congruence].
      * auto.
      * intros Hs. destruct (O3 Hs) as [Hs1 Hc1]. destruct (R3 Hs1) as [Hs2 Hc2].
        split; [exact Hs2 | congruence].
Qed.

Lemma run_facts (env : Env) (events : list Event) (s : State) (c0 : nat) :
  Forall well_behaved events -> waiting_ok s ->
  let s' := run env s events in
  waiting_ok s' /\
  (db (world s) = true -> db (world s') = true /\ opens (world s') = opens (world s)) /\
  (settled_from c0 (world s) -> settled_from c0 (world s')) /\
  (is_Some (idb_objectStore (world s)) ->
   is_Some (idb_objectStore (world s')) /\ creations (world s') = creations (world s)).
Proof.
  intros Hevs. revert s. induction Hevs as [|ev events Hev Hevs IH]; intros s Hwait; simpl.
  - split; [exact Hwait|]. same_state.
  - pose proof (step_facts env s ev c0 Hev Hwait) as (H0 & H1 & H2 & H3).
    pose proof (IH (step env s ev) H0) as (I0 & I1 & I2 & I3). cbv zeta in *.
    split; [exact I0|]. split; [|split].
    + intros Hdb. destruct (H1 Hdb) as [Hd Ho]. destruct (I1 Hd) as [Hd' Ho'].
      split; [exact Hd' | congruence].
    + auto.
    + intros Hs. destruct (H3 Hs) as [Hs' Hc]. destruct (I3 Hs') as [Hs'' Hc'].
      split; [exact Hs'' | congruence].
Qed.

(** The open requests are completed oldest first: after a run the queue
    is what is left of the old one, followed by the newcomers. *)
Lemma run_queue (env : Env) (events : list Event) (s : State) :
  completions events <= length (in_flight s) ->
  exists more,
    in_flight (run env s events) = drop (completions events) (in_flight s) ++ more.
Proof.
  revert s. induction events as [|ev events IH]; intros s Hle.
  - exists []. simpl. now rewrite app_nil_r.
  - destruct ev as [rest|].
    + change (completions (Call rest :: events)) with (completions events) in *.
      cbn [run fold_left step]. fold (run env (call rest s) events).
      unfold call. destruct (db (world s)).
      * apply (IH (mkState (rest (world s)) (in_flight s) (rejected s))). exact Hle.
      * destruct (indexedDB_open (world s)) as [rq w1].
        destruct (IH (mkState w1 (in_flight s ++ [(rq, Operation rest)]) (rejected s)))
          as [more Hmore].
        { simpl. rewrite length_app. simpl. lia. }
        simpl in Hmore. exists ((rq, Operation rest) :: more).
        rewrite Hmore, drop_app_le by exact Hle.
        now rewrite <- app_assoc.
    + change (completions (OpenDone :: events)) with (S (completions events)) in *.
      cbn [run fold_left step]. fold (run env (open_done env s) events).
      unfold open_done. destruct (in_flight s) as [|[rq who] later] eqn:Hq;
        [simpl in Hle; lia|].
      simpl in Hle.
      assert (Hq' : forall w rj, in_flight (mkState w later rj) = later) by reflexivity.
      destruct (open_fire env rq (world s)) as [[error|] w1]; destruct who as [|rest];
        match goal with |- context [run env ?s' events] =>
          destruct (IH s') as [more Hmore]; [simpl; lia|];
          exists more; rewrite Hmore; reflexivity
        end.
Qed.

(** With nothing in between, an early operation is [ensureDB] followed
    by the rest of the operation, as the sequential operations have it. *)
Lemma call_alone (env : Env) (s : State) (rest : World -> World) :
  db (world s) = false -> in_flight s = [] ->
  let s' := run env s [Call rest; OpenDone] in
  in_flight s' = [] /\
  match ensureDB env (world s) with
  | (Normal _, w) => world s' = rest w /\ rejected s' = rejected s
  | (Throw (DOMException error), w) =>
      world s' = w /\ rejected s' = rejected s ++ [(next_request (world s), error)]
  | (Throw _, _) => False
  end.
Proof.
  intros Hdb Hq. unfold run, ensureDB, initDB. cbn [fold_left step].
  unfold call. rewrite Hdb, Hq.
  unfold indexedDB_open. unfold open_done. cbn [in_flight app world rejected].
  destruct (open_fire env (next_request (world s)) _) as [[error|] w1];
    cbn [in_flight world rejected]; auto.
Qed.

End ConnectionFacts.

(** The rest of [setItem] keeps the connection. *)
Lemma setItem_keeps_connection (env : Env) (k : string) (v : JsValue) :
  Connection.keeps_connection (fun w => snd (setItem env k v w)).
Proof.
  intros w Hdb. unfold setItem, and_then. rewrite (ensureDB_connected env w Hdb).
  unfold transaction. destruct (idb_objectStore w) as [m|] eqn:Hm.
  2:{ cbn [snd]. rewrite Hm. tauto. }
  unfold Date_now, place, fire. simpl.
  destruct (idb_fault env (next_request w)); cbn [snd];
    unfold Connection.opens, Connection.creations; simpl;
    rewrite ?Hm, ?filter_app, ?length_app; simpl;
    (split; [exact Hdb|]); (split; [lia|]); (split; [lia|]); split; eauto.
Qed.

(** C5 (as amended).  The constructor places the open request, before
    any operation.  With [db] set, an operation goes on at once and
    places no open request, in any continuation.  An operation invoked
    while [db] is not yet set places one more open request of its own and
    awaits that one: it stays in the queue until the engine has completed
    the requests before its own, whatever becomes of [db] meanwhile, and
    when its own request is completed it goes on if the request
    succeeded and is rejected with the error of the request if it
    failed.  In every interleaving (of operations that leave the
    connection alone once they run) the object store is created at most
    once, and never when it exists already. *)
Theorem connection_setup (env : Env) (w0 : World) (events : list Connection.Event) :
  Forall Connection.well_behaved events ->
  let s0 := Connection.constructor w0 in
  let s := Connection.run env s0 events in
  (Connection.opens (Connection.world s0) = S (Connection.opens w0) /\
   Connection.in_flight s0 = [(next_request w0, Connection.Constructor)]) /\
  (forall s1 rest, db (Connection.world s1) = true ->
     Connection.step env s1 (Connection.Call rest)
     = Connection.mkState (rest (Connection.world s1))
         (Connection.in_flight s1) (Connection.rejected s1)) /\
  (forall s1 rest, db (Connection.world s1) = false ->
     Connection.step env s1 (Connection.Call rest)
     = Connection.mkState (snd (indexedDB_open (Connection.world s1)))
         (Connection.in_flight s1
            ++ [(next_request (Connection.world s1), Connection.Operation rest)])
         (Connection.rejected s1) /\
     Connection.opens (Connection.world (Connection.step env s1 (Connection.Call rest)))
     = S (Connection.opens (Connection.world s1))) /\
  (forall s1 rest evs,
     db (Connection.world s1) = false ->
     Connection.completions evs = length (Connection.in_flight s1) ->
     let r := next_request (Connection.world s1) in
     let s2 := Connection.run env (Connection.step env s1 (Connection.Call rest)) evs in
     exists later,
       Connection.in_flight s2 = (r, Connection.Operation rest) :: later /\
       Connection.step env s2 Connection.OpenDone =
       match open_fire env r (Connection.world s2) with
       | (None, w) => Connection.mkState (rest w) later (Connection.rejected s2)
       | (Some error, w) =>
           Connection.mkState w later (Connection.rejected s2 ++ [(r, error)])
       end) /\
  (db (Connection.world s) = true ->
   forall more, Forall Connection.well_behaved more ->
     db (Connection.world (Connection.run env s more)) = true /\
     Connection.opens (Connection.world (Connection.run env s more))
     = Connection.opens (Connection.world s)) /\
  Connection.creations (Connection.world s) <= S (Connection.creations w0) /\
  (is_Some (idb_objectStore w0) ->
   Connection.creations (Connection.world s) = Connection.creations w0).
Proof.
  intros Hevs s0 s.
  pose proof (ConnectionFacts.indexedDB_open_facts w0) as (Ho & Hc & Hd & Hs).
  assert (Hw0 : Connection.world s0 = snd (indexedDB_open w0)) by reflexivity.
  assert (Hwait0 : Connection.waiting_ok s0)
    by (repeat constructor).
  cbv zeta in *. rewrite <- Hw0 in *.
  pose proof (ConnectionFacts.run_facts env events s0 (Connection.creations w0) Hevs Hwait0)
    as (Hwait & _ & Hset & Hsome).
  split; [split; [exact Ho | reflexivity]|].
  split.
  { intros s1 rest H1. simpl. unfold Connection.call. now rewrite H1. }
  split.
  { intros s1 rest H1. simpl. unfold Connection.call. rewrite H1.
    pose proof (ConnectionFacts.indexedDB_open_facts (Connection.world s1)) as (Ho1 & _).
    unfold indexedDB_open in *. simpl in *. auto. }
  split.
  { intros s1 rest evs H1 Hn.
    destruct (ConnectionFacts.run_queue env evs
                (Connection.step env s1 (Connection.Call rest))) as [more Hmore].
    { simpl. unfold Connection.call. rewrite H1. simpl. rewrite length_app. simpl. lia. }
    assert (Hq : Connection.in_flight
                   (Connection.run env (Connection.step env s1 (Connection.Call rest)) evs)
                 = (next_request (Connection.world s1), Connection.Operation rest) :: more).
    { rewrite Hmore. simpl. unfold Connection.call. rewrite H1. simpl.
      rewrite Hn, drop_app_length. reflexivity. }
    set (s2 := Connection.run env (Connection.step env s1 (Connection.Call rest)) evs) in *.
    exists more. split; [exact Hq|].
    cbn [Connection.step]. unfold Connection.open_done. rewrite Hq.
    now destruct (open_fire env _ (Connection.world s2)) as [[error|] w1]. }
  split.
  { intros Hdb more Hmore.
    exact (proj1 (proj2 (ConnectionFacts.run_facts env more s 0 Hmore Hwait)) Hdb). }
  split.
  - apply Hset. unfold settled_from. rewrite Hc. auto.
  - intros Hw. rewrite Hs in Hsome. destruct (Hsome Hw) as [_ Hc'].
    unfold s. rewrite Hc'. exact Hc.
Qed.

Lemma connection_setup_witness :
  let write := fun w => snd (setItem (calm 0) "lang" (JString "en") w) in
  let s := Connection.run (calm 0) (Connection.constructor (first_visit ∅))
             [Connection.Call write; Connection.OpenDone] in
  Connection.opens
    (Connection.world
       (Connection.run (calm 0) s [Connection.Call write; Connection.OpenDone;
                                   Connection.Call write]))
  = Connection.opens (Connection.world s) /\
  Connection.creations (Connection.world s) <= 1.
Proof.
  intros write s.
  assert (Hw : Connection.keeps_connection write) by apply setItem_keeps_connection.
  destruct (connection_setup (calm 0) (first_visit ∅)
              [Connection.Call write; Connection.OpenDone])
    as (_ & _ & _ & _ & Hafter & Hcreate & _).
  { constructor; [exact Hw|]. constructor; [exact I | constructor]. }
  split; [|exact Hcreate].
  apply (Hafter eq_refl [Connection.Call write; Connection.OpenDone; Connection.Call write]).
  constructor; [exact Hw|]. constructor; [exact I|]. constructor; [exact Hw | constructor].
Defined.

(** C5 as stated fails: two operations invoked before the constructor's
    open request completes place an open request each, and each awaits
    its own. *)
Lemma early_callers_open_again :
  let read := fun w => snd (getItem (calm 0) "lang" w) in
  let s := Connection.run (calm 0) (Connection.constructor (first_visit ∅))
             [Connection.Call read; Connection.Call read] in
  trace (Connection.world s) = [EOpen 0; EOpen 1; EOpen 2] /\
  fst <$> Connection.in_flight s = [0; 1; 2] /\
  Connection.opens (Connection.world s) = 3.
Proof. vm_compute. repeat split; reflexivity. Qed.

(** * Further properties of the service *)

(** ** How an operation starts *)

(** Every operation first makes sure of the connection and opens its
    transaction.  Either the connection fails and the operation is rejected
    with the error of the engine, or the store is missing, or the body runs
    on an established connection right after the transaction was opened. *)
Lemma operation_cases {B : Type} (env : Env) (mode : TxMode)
    (body : World -> Promise B * World) (w : World) :
  let op := and_then (ensureDB env) (fun _ => and_then (transaction mode) (fun _ => body)) in
  (exists name w1, ensureDB env w = (Throw (DOMException name), w1) /\
                   op w = (Rejected (DOMException name), w1)) \/
  (exists w1, ensureDB env w = (Normal tt, w1) /\ idb_objectStore w1 = None /\
              op w = (Rejected (DOMException "NotFoundError"), w1)) \/
  (exists w1 m, ensureDB env w = (Normal tt, w1) /\ connected w1 m /\
                op w = body (log (ETransaction mode) w1)).
Proof.
  intros op. unfold op, and_then.
  destruct (ensureDB env w) as [[[]|e] w1] eqn:E1.
  - pose proof (ensureDB_Normal env w w1 tt E1) as (Hdb & _).
    unfold transaction. destruct (idb_objectStore w1) as [m|] eqn:Hm.
    + right. right. exists w1, m. repeat split; auto.
    + right. left. exists w1. auto.
  - left. destruct (ensureDB_Throw _ _ _ _ E1) as [name ->]. eauto.
Qed.

Lemma operation_connected {B : Type} (env : Env) (mode : TxMode)
    (body : World -> Promise B * World) (w : World) (m : gmap string Item.t) :
  connected w m ->
  and_then (ensureDB env) (fun _ => and_then (transaction mode) (fun _ => body)) w
  = body (log (ETransaction mode) w).
Proof.
  intros [Hdb Hm]. unfold and_then.
  now rewrite (ensureDB_connected env w Hdb), (transaction_connected mode w m Hm).
Qed.

(** An operation that fulfils ran its body on an established connection;
    the records it found there are those of the page it started on, or
    none when the store had to be created. *)
Lemma operation_Fulfilled {B : Type} (env : Env) (mode : TxMode)
    (body : World -> Promise B * World) (w w' : World) (b : B) :
  and_then (ensureDB env) (fun _ => and_then (transaction mode) (fun _ => body)) w
  = (Fulfilled b, w') ->
  exists w1 m,
    connected w1 m /\ body (log (ETransaction mode) w1) = (Fulfilled b, w') /\
    localStorage w1 = localStorage w /\ next_tick w1 = next_tick w /\
    (forall m0, idb_objectStore w = Some m0 -> m0 = m).
Proof.
  intros H.
  destruct (operation_cases env mode body w) as
    [(name & w1 & _ & E) | [(w1 & _ & _ & E) | (w1 & m & E1 & Hc & E)]];
    cbv zeta in E; rewrite E in H; try discriminate.
  exists w1, m. pose proof (ensureDB_Normal env w w1 tt E1) as (_ & Hls & Htick & Hst).
  split; [exact Hc|]. split; [exact H|]. split; [exact Hls|]. split; [exact Htick|].
  intros m0 Hm0. specialize (Hst m0 Hm0). destruct Hc as [_ Hm]. congruence.
Qed.

(** ** The single requests on an established connection *)

Lemma hasItem_connected (env : Env) (k : string) (w : World) (m : gmap string Item.t) :
  connected w m ->
  fst (hasItem env k w) =
  match idb_fault env (next_request w) with
  | Some name => Rejected (DOMException name)
  | None => Fulfilled (bool_decide (is_Some (m !! k)))
  end.
Proof.
  intros Hc. unfold hasItem. rewrite (operation_connected env readonly _ w m Hc).
  destruct Hc as [_ Hm]. unfold place, fire. simpl.
  destruct (idb_fault env (next_request w)); [reflexivity|].
  unfold result_count_only, records. simpl. rewrite Hm. simpl.
  destruct (m !! k) as [item|]; reflexivity.
Qed.

Lemma getCount_connected (env : Env) (w : World) (m : gmap string Item.t) :
  connected w m ->
  fst (getCount env w) =
  match idb_fault env (next_request w) with
  | Some name => Rejected (DOMException name)
  | None => Fulfilled (size m)
  end.
Proof.
  intros Hc. unfold getCount. rewrite (operation_connected env readonly _ w m Hc).
  destruct Hc as [_ Hm]. unfold place, fire. simpl.
  destruct (idb_fault env (next_request w)); [reflexivity|].
  unfold result_count, records. simpl. now rewrite Hm.
Qed.

Lemma getAllKeys_connected (env : Env) (w : World) (m : gmap string Item.t) :
  connected w m ->
  fst (getAllKeys env w) =
  match idb_fault env (next_request w) with
  | Some name => Rejected (DOMException name)
  | None => Fulfilled (keys_in_order m)
  end.
Proof.
  intros Hc. unfold getAllKeys. rewrite (operation_connected env readonly _ w m Hc).
  destruct Hc as [_ Hm]. unfold place, fire. simpl.
  destruct (idb_fault env (next_request w)); [reflexivity|].
  unfold result_getAllKeys, records. simpl. now rewrite Hm.
Qed.

(** A write that fulfils leaves an established connection whose records
    are those found with the request applied; the legacy store is not
    touched. *)
Lemma write_Fulfilled (env : Env) (req : Request) (w w' : World) (b : bool) :
  and_then (ensureDB env) (fun _ => and_then (transaction readwrite) (fun _ w =>
    let (request, w) := place req w in
    match fire env request req w with
    | (None, w) => (resolve true Pending, w)
    | (Some error, w) => (reject (DOMException error) Pending, w)
    end)) w = (Fulfilled b, w') ->
  b = true /\
  localStorage w' = localStorage w /\
  exists m, connected w' (apply_request req m) /\
            (forall m0, idb_objectStore w = Some m0 -> m0 = m).
Proof.
  intros H. apply operation_Fulfilled in H as (w1 & m & [Hdb Hm] & H & Hls & _ & Hst).
  unfold place, fire in H. simpl in H.
  destruct (idb_fault env (next_request w1)); [discriminate|].
  injection H as <- <-. split; [reflexivity|]. split; [exact Hls|].
  exists m. split; [|exact Hst]. split; simpl; [exact Hdb | now rewrite Hm].
Qed.

(** ** removeItem *)

(** X1.  After a [removeItem(k)] that fulfilled (it fulfils with [true]),
    [getItem(k)] gives [null] and [hasItem(k)] gives [false], unless the
    engine fails the read; the records are those there were without the
    one of [k], so every other key reads as before; and the legacy store
    is as it was. *)
Theorem removeItem_then_absent (env : Env) (k : string) (w w1 : World) (b : bool) :
  removeItem env k w = (Fulfilled b, w1) ->
  b = true /\
  fst (getItem env k w1) =
    match idb_fault env (next_request w1) with
    | Some name => Rejected (DOMException name)
    | None => Fulfilled JNull
    end /\
  fst (hasItem env k w1) =
    match idb_fault env (next_request w1) with
    | Some name => Rejected (DOMException name)
    | None => Fulfilled false
    end /\
  (forall m, idb_objectStore w = Some m ->
     idb_objectStore w1 = Some (delete k m) /\
     forall k', k' <> k -> idb_objectStore w1 ≫= (.!! k') = m !! k') /\
  localStorage w1 = localStorage w.
Proof.
  intros H. apply (write_Fulfilled env (Delete k)) in H as (-> & Hls & m & Hc & Hst).
  simpl in Hc. split; [reflexivity|].
  rewrite (getItem_connected env k w1 _ Hc), (hasItem_connected env k w1 _ Hc).
  rewrite lookup_delete_eq.
  split; [reflexivity|]. split.
  { destruct (idb_fault env (next_request w1)); reflexivity. }
  split; [|exact Hls].
  intros m0 Hm0. rewrite (Hst m0 Hm0). destruct Hc as [_ ->].
  split; [reflexivity|]. intros k' Hk'. simpl. now apply lookup_delete_ne.
Qed.

Lemma removeItem_then_absent_witness :
  let m : gmap string Item.t :=
    <["lang" := Item.make "lang" (Some "en") 1]>
      (<["zoom" := Item.make "zoom" (Some "2") 2]> ∅) in
  let w1 := snd (removeItem (calm 0) "lang" (opened m ∅)) in
  fst (getItem (calm 0) "lang" w1) = Fulfilled JNull /\
  fst (hasItem (calm 0) "lang" w1) = Fulfilled false /\
  idb_objectStore w1 ≫= (.!! "zoom") = Some (Item.make "zoom" (Some "2") 2).
Proof.
  intros m w1.
  assert (H : removeItem (calm 0) "lang" (opened m ∅) = (Fulfilled true, w1))
    by (vm_compute; reflexivity).
  destruct (removeItem_then_absent (calm 0) "lang" (opened m ∅) w1 true H)
    as (_ & Hget & Hhas & Hrest & _).
  split; [exact Hget|]. split; [exact Hhas|].
  destruct (Hrest m eq_refl) as [_ Hother].
  rewrite (Hother "zoom") by discriminate. vm_compute. reflexivity.
Defined.

(** X2.  Removing a key that has no record is no error: on an established
    connection [removeItem] fulfils with [true] exactly when the engine
    does not fail the request, whether or not the key is there, and with
    no record of the key the records stay exactly as they were. *)
Theorem removeItem_absent_key (env : Env) (k : string) (w : World)
    (m : gmap string Item.t) :
  connected w m ->
  fst (removeItem env k w) =
    match idb_fault env (next_request w) with
    | Some name => Rejected (DOMException name)
    | None => Fulfilled true
    end /\
  (m !! k = None -> idb_objectStore (snd (removeItem env k w)) = Some m).
Proof.
  intros Hc. unfold removeItem. rewrite (operation_connected env readwrite _ w m Hc).
  destruct Hc as [_ Hm]. unfold place, fire. simpl.
  destruct (idb_fault env (next_request w)); simpl; (split; [reflexivity|]);
    intros Hk; rewrite Hm; simpl; [reflexivity|].
  now rewrite delete_id.
Qed.

Lemma removeItem_absent_key_witness :
  let m : gmap string Item.t := {[ "lang" := Item.make "lang" (Some "en") 1 ]} in
  fst (removeItem (calm 0) "theme" (opened m ∅)) = Fulfilled true /\
  idb_objectStore (snd (removeItem (calm 0) "theme" (opened m ∅))) = Some m.
Proof.
  intros m.
  destruct (removeItem_absent_key (calm 0) "theme" (opened m ∅) m (conj eq_refl eq_refl))
    as [Hf Hs].
  split; [exact Hf|]. apply Hs. vm_compute. reflexivity.
Defined.

(** ** clear *)

(** X3.  After a [clear()] that fulfilled, the store is empty: [getCount]
    gives 0, [getAllKeys] gives no key, [getItem] gives [null] and
    [hasItem] gives [false] for every key (unless the engine fails the
    read).  [clear] empties the object store only: the legacy store is as
    it was. *)
Theorem clear_then_empty (env : Env) (w w1 : World) (b : bool) :
  clear env w = (Fulfilled b, w1) ->
  b = true /\ connected w1 ∅ /\
  (idb_fault env (next_request w1) = None ->
   fst (getCount env w1) = Fulfilled 0 /\
   fst (getAllKeys env w1) = Fulfilled [] /\
   forall k, fst (getItem env k w1) = Fulfilled JNull /\
             fst (hasItem env k w1) = Fulfilled false) /\
  localStorage w1 = localStorage w.
Proof.
  intros H. apply (write_Fulfilled env Clear) in H as (-> & Hls & m & Hc & _).
  simpl in Hc. split; [reflexivity|]. split; [exact Hc|]. split; [|exact Hls].
  intros Hf.
  rewrite (getCount_connected env w1 _ Hc), (getAllKeys_connected env w1 _ Hc), Hf.
  split; [now rewrite map_size_empty|]. split; [now rewrite keys_in_order_empty|].
  intros k. rewrite (getItem_connected env k w1 _ Hc), (hasItem_connected env k w1 _ Hc), Hf.
  rewrite lookup_empty. split; reflexivity.
Qed.

Lemma clear_then_empty_witness :
  let m : gmap string Item.t := {[ "lang" := Item.make "lang" (Some "en") 1 ]} in
  let ls : gmap string string := {[ "old" := "1" ]} in
  let w1 := snd (clear (calm 0) (opened m ls)) in
  fst (getCount (calm 0) w1) = Fulfilled 0 /\
  fst (getItem (calm 0) "lang" w1) = Fulfilled JNull /\
  localStorage w1 = ls.
Proof.
  intros m ls w1.
  assert (H : clear (calm 0) (opened m ls) = (Fulfilled true, w1))
    by (vm_compute; reflexivity).
  destruct (clear_then_empty (calm 0) (opened m ls) w1 true H) as (_ & _ & Hread & Hls).
  destruct (Hread eq_refl) as (Hcount & _ & Hk).
  split; [exact Hcount|]. split; [exact (proj1 (Hk "lang")) | exact Hls].
Defined.

(** ** setItem *)

(** X4.  [setItem] keeps one record per key.  After a [setItem(k, v)] that
    fulfilled on an established connection holding [m], the store holds
    as many records as before when [k] had one, and one more when it had
    none; [hasItem(k)] gives [true], whatever [v] is (also when [v] is
    [null] or [undefined], which [getItem] cannot tell from an absent
    key); the record of [k] is the new one, stamped with the clock; and
    the record of every other key is as it was. *)
Theorem setItem_one_record_per_key (env : Env) (k : string) (v : JsValue)
    (w w1 : World) (m : gmap string Item.t) :
  connected w m ->
  setItem env k v w = (Fulfilled true, w1) ->
  fst (getCount env w1) =
    match idb_fault env (next_request w1) with
    | Some name => Rejected (DOMException name)
    | None => Fulfilled (if bool_decide (is_Some (m !! k)) then size m else S (size m))
    end /\
  fst (hasItem env k w1) =
    match idb_fault env (next_request w1) with
    | Some name => Rejected (DOMException name)
    | None => Fulfilled true
    end /\
  idb_objectStore w1 ≫= (.!! k) = Some (Item.make k (serialize v) (clock env (next_tick w))) /\
  (forall k', k' <> k -> idb_objectStore w1 ≫= (.!! k') = m !! k').
Proof.
  intros [Hdb Hm] H.
  apply operation_Fulfilled in H as (w0 & m0 & [Hdb0 Hm0] & H & _ & Htick & Hst).
  rewrite <- (Hst m Hm) in Hm0. clear Hst.
  unfold Date_now, place, fire in H. simpl in H.
  destruct (idb_fault env (next_request w0)); [discriminate|].
  injection H as <-.
  match goal with |- context [getCount env ?w'] =>
    assert (Hc : connected w' (<[k := Item.make k (serialize v) (clock env (next_tick w))]> m))
  end.
  { split; simpl; [exact Hdb0 | now rewrite Hm0, Htick]. }
  rewrite (getCount_connected env _ _ Hc), (hasItem_connected env k _ _ Hc).
  destruct Hc as [_ ->]. simpl.
  split; [|split; [|split]].
  - destruct (idb_fault env _); [reflexivity|]. f_equal.
    destruct (m !! k) as [item|] eqn:E.
    + rewrite bool_decide_eq_true_2 by eauto. apply map_size_insert_Some. eauto.
    + rewrite bool_decide_eq_false_2 by (intros [x Hx]; discriminate).
      now apply map_size_insert_None.
  - destruct (idb_fault env _); [reflexivity|]. f_equal.
    apply bool_decide_eq_true_2. rewrite lookup_insert_eq. eauto.
  - apply lookup_insert_eq.
  - intros k' Hk'. now apply lookup_insert_ne.
Qed.

Lemma setItem_one_record_per_key_witness :
  let m : gmap string Item.t := {[ "lang" := Item.make "lang" (Some "en") 1 ]} in
  fst (getCount (calm 5) (snd (setItem (calm 5) "lang" (JString "de") (opened m ∅))))
  = Fulfilled 1 /\
  fst (getCount (calm 5) (snd (setItem (calm 5) "zoom" JNull (opened m ∅))))
  = Fulfilled 2 /\
  fst (hasItem (calm 5) "zoom" (snd (setItem (calm 5) "zoom" JNull (opened m ∅))))
  = Fulfilled true.
Proof.
  intros m.
  assert (Hc : connected (opened m ∅) m) by (split; reflexivity).
  split.
  - destruct (setItem_one_record_per_key (calm 5) "lang" (JString "de") (opened m ∅)
                (snd (setItem (calm 5) "lang" (JString "de") (opened m ∅))) m Hc)
      as (Hcount & _); [vm_compute; reflexivity|].
    rewrite Hcount. vm_compute. reflexivity.
  - destruct (setItem_one_record_per_key (calm 5) "zoom" JNull (opened m ∅)
                (snd (setItem (calm 5) "zoom" JNull (opened m ∅))) m Hc)
      as (Hcount & Hhas & _); [vm_compute; reflexivity|].
    rewrite Hcount, Hhas. vm_compute. split; reflexivity.
Defined.

(** X5.  A string is stored as it is, and read back through [JSON.parse]:
    a string that is itself JSON text does not come back as that string
    but as the value it denotes. *)
Theorem setItem_string_reads_parsed (env : Env) (k s : string) (v : JsValue)
    (w w1 : World) :
  setItem env k (JString s) w = (Fulfilled true, w1) ->
  JSON_parse s = Normal v ->
  fst (getItem env k w1) =
  match idb_fault env (next_request w1) with
  | Some name => Rejected (DOMException name)
  | None => Fulfilled v
  end.
Proof.
  intros Hset Hs. apply setItem_Fulfilled in Hset as [_ [m Hc]].
  rewrite (getItem_connected env k w1 _ Hc).
  destruct (idb_fault env (next_request w1)); [reflexivity|].
  rewrite lookup_insert_eq. f_equal. unfold decoded. simpl.
  unfold JSON_parse in Hs. destruct (Json.parse s); congruence.
Qed.

Lemma setItem_string_reads_parsed_witness :
  fst (getItem (calm 0) "zip" (snd (setItem (calm 0) "zip" (JString "12345") (first_visit ∅))))
  = Fulfilled (JNumber 12345) /\
  fst (getItem (calm 0) "flag" (snd (setItem (calm 0) "flag" (JString "true") (first_visit ∅))))
  = Fulfilled (JBool true).
Proof.
  split.
  - apply (setItem_string_reads_parsed (calm 0) "zip" "12345" (JNumber 12345) (first_visit ∅));
      vm_compute; reflexivity.
  - apply (setItem_string_reads_parsed (calm 0) "flag" "true" (JBool true) (first_visit ∅));
      vm_compute; reflexivity.
Defined.

(** ** removeItems *)

Lemma applied_deletes_other (keys : list string) (m : gmap string Item.t) (k : string) :
  k ∉ keys -> applied (Delete <$> keys) m !! k = m !! k.
Proof.
  revert m. induction keys as [|key keys IH]; intros m Hk; [reflexivity|].
  apply not_elem_of_cons in Hk as [Hne Hk]. unfold applied in *. simpl.
  rewrite IH by exact Hk. now apply lookup_delete_ne.
Qed.

(** A delete never brings a record back. *)
Lemma applied_deletes_None (keys : list string) (m : gmap string Item.t) (k : string) :
  m !! k = None -> applied (Delete <$> keys) m !! k = None.
Proof.
  revert m. induction keys as [|key keys IH]; intros m Hk; [exact Hk|].
  unfold applied in *. simpl. apply IH. apply lookup_delete_None. now right.
Qed.

Lemma applied_deletes_gone (keys : list string) (m : gmap string Item.t) (k : string) :
  k ∈ keys -> applied (Delete <$> keys) m !! k = None.
Proof.
  revert m. induction keys as [|key keys IH]; intros m Hk; [inversion Hk|].
  change (applied (Delete <$> key :: keys) m) with (applied (Delete <$> keys) (delete key m)).
  destruct (decide (k = key)) as [->|Hne].
  - apply applied_deletes_None, lookup_delete_eq.
  - apply IH. apply elem_of_cons in Hk as [Hk|Hk]; [contradiction | exact Hk].
Qed.

Lemma survivors_deletes_other (env : Env) (keys : list string) (id : nat)
    (m : gmap string Item.t) (k : string) :
  k ∉ keys -> survivors env id (Delete <$> keys) m !! k = m !! k.
Proof.
  intros Hk. rewrite survivors_cases.
  destruct (first_fault env id _); [reflexivity | now apply applied_deletes_other].
Qed.

Lemma survivors_deletes_None (env : Env) (keys : list string) (id : nat)
    (m : gmap string Item.t) (k : string) :
  m !! k = None -> survivors env id (Delete <$> keys) m !! k = None.
Proof.
  intros Hk. rewrite survivors_cases.
  destruct (first_fault env id _); [exact Hk | now apply applied_deletes_None].
Qed.

Lemma survivors_deletes_gone (env : Env) (keys : list string) (id : nat)
    (m : gmap string Item.t) (k : string) :
  first_fault env id (length keys) = None -> k ∈ keys ->
  survivors env id (Delete <$> keys) m !! k = None.
Proof.
  intros Hclean Hk. rewrite survivors_cases, length_fmap, Hclean.
  now apply applied_deletes_gone.
Qed.

(** X6.  [removeItems] on an established connection opens one [readwrite]
    transaction and places one [delete] per key, in order, and nothing
    else; it fulfils (with [true]) exactly when the engine fails none of
    them, and the first error of the engine rejects it.  When it fulfils,
    no key of the batch has a record any more; in every case the records
    of the keys outside the batch, and the legacy store, are as they
    were. *)
Theorem removeItems_batch (env : Env) (keys : list string) (w : World)
    (m : gmap string Item.t) :
  connected w m ->
  let id := next_request w in
  let r := removeItems env keys w in
  trace (snd r) =
    trace w ++ ETransaction readwrite
      :: placed id (Delete <$> keys) ++ events env id (Delete <$> keys) /\
  (fst r = Fulfilled true <-> forall i, i < length keys -> idb_fault env (id + i) = None) /\
  (forall j name,
      j < length keys -> idb_fault env (id + j) = Some name ->
      (forall i, i < j -> idb_fault env (id + i) = None) ->
      fst r = Rejected (DOMException name)) /\
  fst r <> Pending /\
  (fst r = Fulfilled true ->
   forall k, k ∈ keys -> idb_objectStore (snd r) ≫= (.!! k) = None) /\
  (forall k, k ∉ keys -> idb_objectStore (snd r) ≫= (.!! k) = m !! k) /\
  localStorage (snd r) = localStorage w.
Proof.
  intros Hc id r.
  assert (Hr : r = (batch_outcome env w (length keys),
                    after_batch env w m (Delete <$> keys) 0))
    by (apply removeItems_connected; exact Hc).
  rewrite Hr. cbn [fst snd]. unfold batch_outcome. fold id.
  split; [reflexivity|].
  split.
  { rewrite <- first_fault_None.
    destruct (first_fault env id (length keys)); split; congruence. }
  split.
  { intros j name Hj Hname Hbefore.
    now rewrite (first_fault_Some env id (length keys) j name Hj Hname Hbefore). }
  split; [destruct (first_fault env id (length keys)); discriminate|].
  split.
  { intros Hok k Hk. simpl.
    assert (Hclean : first_fault env id (length keys) = None)
      by (destruct (first_fault env id (length keys)); [discriminate | reflexivity]).
    now apply survivors_deletes_gone. }
  split; [|reflexivity].
  intros k Hk. simpl. now apply survivors_deletes_other.
Qed.

Lemma removeItems_batch_witness :
  let m : gmap string Item.t :=
    <["a" := Item.make "a" (Some "1") 0]>
      (<["b" := Item.make "b" (Some "2") 0]>
         (<["c" := Item.make "c" (Some "3") 0]> ∅)) in
  let r := removeItems (calm 0) ["a"; "c"; "x"] (opened m ∅) in
  fst r = Fulfilled true /\
  idb_objectStore (snd r) ≫= (.!! "a") = None /\
  idb_objectStore (snd r) ≫= (.!! "b") = Some (Item.make "b" (Some "2") 0) /\
  fst (removeItems (quota_at 1) ["a"; "c"; "x"] (opened m ∅))
  = Rejected (DOMException "QuotaExceededError").
Proof.
  intros m r.
  destruct (removeItems_batch (calm 0) ["a"; "c"; "x"] (opened m ∅) m (conj eq_refl eq_refl))
    as (_ & Hok & _ & _ & Hgone & Hkept & _).
  assert (Hf : fst r = Fulfilled true) by (apply Hok; intros i _; reflexivity).
  split; [exact Hf|]. split.
  - apply (Hgone Hf "a"). repeat constructor.
  - split.
    + unfold r. rewrite (Hkept "b"); [vm_compute; reflexivity|].
      intros H. repeat (apply elem_of_cons in H as [H|H]; [discriminate|]). inversion H.
    + destruct (removeItems_batch (quota_at 1) ["a"; "c"; "x"] (opened m ∅) m
                  (conj eq_refl eq_refl)) as (_ & _ & Hfirst & _).
      apply (Hfirst 1 "QuotaExceededError"); [simpl; lia | reflexivity |].
      intros i Hi. destruct i; [reflexivity | lia].
Defined.

(** ** removeItemsByPrefix *)

Lemma keys_with_prefix_spec (p : string) (m : gmap string Item.t) (k : string) :
  k ∈ keys_with_prefix p m <-> is_Some (m !! k) /\ startsWith k p = true.
Proof.
  unfold keys_with_prefix. rewrite list_elem_of_In, filter_In, <- list_elem_of_In.
  now rewrite elem_of_keys_in_order.
Qed.

(** [getKeysByPrefix] on an established connection: the promise and the
    page it leaves. *)
Lemma getKeysByPrefix_connected (env : Env) (p : string) (w : World)
    (m : gmap string Item.t) :
  connected w m ->
  getKeysByPrefix env p w =
  (match idb_fault env (next_request w) with
   | Some name => Rejected (DOMException name)
   | None => Fulfilled (keys_with_prefix p m)
   end,
   mkWorld (db w) (idb_version w) (Some m) (localStorage w)
           (S (next_request w)) (next_tick w)
           (trace w ++ [ETransaction readonly; ERequest (next_request w) GetAllKeys;
                        match idb_fault env (next_request w) with
                        | Some name => EError (next_request w) name
                        | None => ESuccess (next_request w)
                        end])).
Proof.
  intros Hc. unfold getKeysByPrefix. rewrite (operation_connected env readonly _ w m Hc).
  destruct Hc as [_ Hm]. unfold place, fire.
  destruct w as [dbf ver st ls nr nt tr]. simpl in *. subst st.
  destruct (idb_fault env nr); unfold log; simpl; rewrite <- !app_assoc; simpl.
  - reflexivity.
  - rewrite push_matching. reflexivity.
Qed.

(** X7.  [removeItemsByPrefix(p)] on an established connection first lists
    the keys in a [readonly] transaction, then deletes those that start
    with [p] in a [readwrite] transaction of its own.  When the listing
    fails the operation is rejected with that error and nothing is
    deleted or even requested.  It fulfils (with [true]) exactly when the
    engine fails neither the listing nor a delete, and then no key that
    starts with [p] has a record any more; with the empty prefix that is
    every key, and the store is left empty.  In every case the records
    of the keys that do not start with [p] are as they were. *)
Theorem removeItemsByPrefix_removes (env : Env) (p : string) (w : World)
    (m : gmap string Item.t) :
  connected w m ->
  let id := next_request w in
  let keys := keys_with_prefix p m in
  let r := removeItemsByPrefix env p w in
  (forall name, idb_fault env id = Some name ->
     fst r = Rejected (DOMException name) /\
     idb_objectStore (snd r) = Some m /\
     trace (snd r) =
       trace w ++ [ETransaction readonly; ERequest id GetAllKeys; EError id name]) /\
  (idb_fault env id = None ->
     trace (snd r) =
       trace w ++ [ETransaction readonly; ERequest id GetAllKeys; ESuccess id]
         ++ ETransaction readwrite
              :: placed (S id) (Delete <$> keys) ++ events env (S id) (Delete <$> keys)) /\
  (fst r = Fulfilled true <-> forall i, i <= length keys -> idb_fault env (id + i) = None) /\
  (fst r = Fulfilled true ->
   forall k, startsWith k p = true -> idb_objectStore (snd r) ≫= (.!! k) = None) /\
  (forall k, startsWith k p = false -> idb_objectStore (snd r) ≫= (.!! k) = m !! k) /\
  fst r <> Pending /\
  (fst r = Fulfilled true -> p = "" -> idb_objectStore (snd r) = Some ∅).
Proof.
  intros Hc id keys r.
  pose proof (getKeysByPrefix_connected env p w m Hc) as Hlist. fold id keys in Hlist.
  unfold r, removeItemsByPrefix. rewrite Hlist. clear Hlist.
  destruct (idb_fault env id) as [name|] eqn:Hid.
  - cbn [fst snd].
    split; [intros name' [= <-]; auto|].
    split; [discriminate|].
    split.
    { split; [discriminate|]. intros H. specialize (H 0). rewrite Nat.add_0_r in H.
      rewrite H in Hid by lia. discriminate. }
    split; [discriminate|].
    split; [|split; discriminate].
    intros k _. destruct Hc as [_ Hm]. reflexivity.
  - match goal with |- context [removeItems env keys ?w0] => set (w1 := w0) end.
    assert (Hc1 : connected w1 m) by (split; [exact (proj1 Hc) | reflexivity]).
    rewrite (removeItems_connected env keys w1 m Hc1).
    cbn [fst snd]. unfold batch_outcome.
    change (next_request w1) with (S id).
    split; [discriminate|].
    split.
    { intros _. unfold after_batch. simpl. now rewrite <- app_assoc. }
    assert (Hall : first_fault env (S id) (length keys) = None <->
                   forall i, i <= length keys -> idb_fault env (id + i) = None).
    { rewrite first_fault_None. split; intros H i Hi.
      - destruct i as [|i]; [now rewrite Nat.add_0_r|].
        replace (id + S i) with (S id + i) by lia. apply H. lia.
      - replace (S id + i) with (id + S i) by lia. apply H. lia. }
    split.
    { rewrite <- Hall. destruct (first_fault env (S id) (length keys)); split; congruence. }
    split.
    { intros Hok k Hk. simpl.
      assert (Hclean : first_fault env (S id) (length keys) = None)
        by (destruct (first_fault env (S id) (length keys)); [discriminate | reflexivity]).
      destruct (m !! k) as [item|] eqn:Hmk.
      - assert (Hin : k ∈ keys) by (apply keys_with_prefix_spec; eauto).
        now apply survivors_deletes_gone.
      - now apply survivors_deletes_None. }
    split.
    { intros k Hk. simpl. apply survivors_deletes_other.
      intros Hin. apply keys_with_prefix_spec in Hin as [_ Hp]. congruence. }
    split; [destruct (first_fault env (S id) (length keys)); discriminate|].
    intros Hok ->. simpl. f_equal. apply map_eq. intros k. rewrite lookup_empty.
    assert (Hclean : first_fault env (S id) (length keys) = None)
      by (destruct (first_fault env (S id) (length keys)); [discriminate | reflexivity]).
    destruct (m !! k) as [item|] eqn:Hmk; [|now apply survivors_deletes_None].
    assert (Hin : k ∈ keys)
      by (apply keys_with_prefix_spec; split; [eauto | now destruct k]).
    now apply survivors_deletes_gone.
Qed.

Lemma removeItemsByPrefix_removes_witness :
  let m : gmap string Item.t :=
    <["view.a" := Item.make "view.a" (Some "1") 0]>
      (<["view.b" := Item.make "view.b" (Some "2") 0]>
         (<["lang" := Item.make "lang" (Some "en") 0]> ∅)) in
  let r := removeItemsByPrefix (calm 0) "view." (opened m ∅) in
  fst r = Fulfilled true /\
  idb_objectStore (snd r) ≫= (.!! "view.a") = None /\
  idb_objectStore (snd r) ≫= (.!! "lang") = Some (Item.make "lang" (Some "en") 0).
Proof.
  intros m r.
  destruct (removeItemsByPrefix_removes (calm 0) "view." (opened m ∅) m (conj eq_refl eq_refl))
    as (_ & _ & Hok & Hgone & Hkept & _).
  assert (Hf : fst r = Fulfilled true) by (apply Hok; intros i _; reflexivity).
  split; [exact Hf|]. split.
  - apply (Hgone Hf "view.a"). reflexivity.
  - unfold r. rewrite (Hkept "lang") by reflexivity. vm_compute. reflexivity.
Defined.

(** ** getItems *)

Lemma place_gets_spec (keys : list string) (w : World) :
  place_gets keys w =
  (numbered_keys (next_request w) keys,
   mkWorld (db w) (idb_version w) (idb_objectStore w) (localStorage w)
           (next_request w + length keys) (next_tick w)
           (trace w ++ placed (next_request w) (Get <$> keys))).
Proof.
  revert w. induction keys as [|k keys IH]; intros w.
  - destruct w. simpl. now rewrite !Nat.add_0_r, app_nil_r.
  - simpl. rewrite IH. destruct w. simpl. f_equal. f_equal; try lia.
    now rewrite <- app_assoc.
Qed.

(** What a successful read adds to the [Map] is what [getItem] would
    give for the record. *)
Lemma get_onsuccess_spec (n : nat) (key : string) (item : option Item.t)
    (result : gmap string JsValue) (b : Batch (gmap string JsValue)) :
  get_onsuccess n key item (result, b) =
  let result' :=
    match item with
    | Some item => <[key := decoded item]> result
    | None => result
    end in
  (result',
   mkBatch (S (completed b)) (hasError b)
     (if (S (completed b) =? n) && negb (hasError b)
      then resolve result' (outcome b) else outcome b)).
Proof.
  unfold get_onsuccess. destruct item as [item|]; [|reflexivity].
  unfold decoded. destruct (Item.value item) as [s|].
  - unfold JSON_parse. simpl. destruct (Json.parse s); reflexivity.
  - rewrite parse_undefined. reflexivity.
Qed.

(** The reads change nothing but the trace, also when the transaction is
    aborted. *)
Lemma fire_gets_world_aborted (env : Env) (n : nat) (keys : list string) (id : nat)
    (st : Reads) (o : option (gmap string Item.t)) (w : World) :
  snd (fire_gets env n (numbered_keys id keys) st (mkTransaction o true) w) =
  mkWorld (db w) (idb_version w) (idb_objectStore w) (localStorage w)
          (next_request w) (next_tick w)
          (trace w ++ aborted_events id (Get <$> keys)).
Proof.
  revert id st w. induction keys as [|k keys IH]; intros id st w.
  - destruct w. simpl. now rewrite app_nil_r.
  - simpl. unfold fire_in. simpl. rewrite IH. destruct w. simpl.
    now rewrite <- app_assoc.
Qed.

Lemma fire_gets_world (env : Env) (n : nat) (keys : list string) (id : nat)
    (st : Reads) (o : option (gmap string Item.t)) (w : World) :
  o = idb_objectStore w ->
  snd (fire_gets env n (numbered_keys id keys) st (mkTransaction o false) w) =
  mkWorld (db w) (idb_version w) (idb_objectStore w) (localStorage w)
          (next_request w) (next_tick w)
          (trace w ++ events env id (Get <$> keys)).
Proof.
  revert id st w. induction keys as [|k keys IH]; intros id st w Ho.
  - destruct w. simpl. now rewrite app_nil_r.
  - cbn [numbered_keys fire_gets]. rewrite fire_in_active. simpl.
    destruct (idb_fault env id) as [name|].
    + rewrite fire_gets_world_aborted. subst o. destruct w. simpl.
      now rewrite <- app_assoc.
    + rewrite IH by (subst o; destruct w as [? ? [m|] ? ? ? ?]; reflexivity).
      destruct w as [? ? [m|] ? ? ? ?]; simpl; now rewrite <- app_assoc.
Qed.

Lemma fire_gets_failed (env : Env) (n : nat) (reqs : list (nat * string))
    (result : gmap string JsValue) (c : nat) (e : JsError) (tx : Transaction) (w : World) :
  outcome (snd (fst (fire_gets env n reqs (result, mkBatch c true (Rejected e)) tx w)))
  = Rejected e.
Proof.
  revert result c tx w.
  induction reqs as [|[id k] reqs IH]; intros result c tx w; [reflexivity|].
  cbn [fire_gets]. destruct (fire_in env tx id (Get k) w) as [[name|] [tx1 w1]].
  - apply IH.
  - rewrite get_onsuccess_spec. cbn [completed hasError outcome negb].
    rewrite andb_false_r. apply IH.
Qed.

Lemma fire_gets_outcome (env : Env) (n : nat) (keys : list string) (id c : nat)
    (result : gmap string JsValue) (o : option (gmap string Item.t)) (w : World)
    (m : gmap string Item.t) :
  idb_objectStore w = Some m ->
  keys <> [] -> c + length keys = n ->
  outcome (snd (fst (fire_gets env n (numbered_keys id keys)
                       (result, mkBatch c false Pending) (mkTransaction o false) w))) =
  match first_fault env id (length keys) with
  | None => Fulfilled (read_all m keys result)
  | Some name => Rejected (DOMException name)
  end.
Proof.
  revert id c result w.
  induction keys as [|k keys IH]; intros id c result w Hm Hne Hn; [congruence|].
  cbn [numbered_keys fire_gets length first_fault]. rewrite fire_in_active.
  destruct (idb_fault env id) as [name|].
  - unfold get_onerror. simpl. apply fire_gets_failed.
  - rewrite get_onsuccess_spec. cbn [completed hasError outcome negb].
    assert (Hget : result_get k
                     (log (ESuccess id)
                        (with_objectStore (apply_request (Get k) <$> idb_objectStore w) w))
                   = m !! k).
    { unfold result_get, records. simpl. now rewrite Hm. }
    rewrite Hget.
    change (read_all m (k :: keys) result)
      with (read_all m keys match m !! k with
                            | Some item => <[k := decoded item]> result
                            | None => result
                            end).
    destruct keys as [|k' keys].
    + replace (S c =? n) with true by (symmetry; apply Nat.eqb_eq; simpl in Hn; lia).
      reflexivity.
    + replace (S c =? n) with false by (symmetry; apply Nat.eqb_neq; simpl in Hn; lia).
      cbn [andb]. cbv zeta. apply IH; [simpl; now rewrite Hm | congruence | simpl in *; lia].
Qed.

Lemma read_all_lookup (m : gmap string Item.t) (keys : list string)
    (result : gmap string JsValue) (k : string) :
  read_all m keys result !! k =
  if bool_decide (k ∈ keys)
  then match m !! k with Some item => Some (decoded item) | None => result !! k end
  else result !! k.
Proof.
  revert result. induction keys as [|key keys IH]; intros result.
  - rewrite bool_decide_eq_false_2 by apply not_elem_of_nil. reflexivity.
  - change (read_all m (key :: keys) result)
      with (read_all m keys match m !! key with
                            | Some item => <[key := decoded item]> result
                            | None => result
                            end).
    rewrite IH.
    destruct (decide (k = key)) as [->|Hne].
    + rewrite (bool_decide_eq_true_2 (key ∈ key :: keys)) by now left.
      destruct (m !! key) as [item|] eqn:E.
      * rewrite lookup_insert_eq. now destruct (bool_decide (key ∈ keys)).
      * now destruct (bool_decide (key ∈ keys)).
    + assert (Hiff : k ∈ key :: keys <-> k ∈ keys).
      { rewrite elem_of_cons. tauto. }
      rewrite (bool_decide_ext _ _ Hiff).
      destruct (m !! key) as [item|]; [|reflexivity].
      rewrite lookup_insert_ne by congruence. reflexivity.
Qed.

(** [getItems] on an established connection. *)
Lemma getItems_connected (env : Env) (keys : list string) (w : World)
    (m : gmap string Item.t) :
  connected w m ->
  getItems env keys w =
  (match first_fault env (next_request w) (length keys) with
   | None => Fulfilled (read_all m keys ∅)
   | Some name => Rejected (DOMException name)
   end,
   after_reads env w keys).
Proof.
  intros Hc. unfold getItems. rewrite (operation_connected env readonly _ w m Hc).
  destruct Hc as [_ Hm]. unfold begin. cbv zeta.
  destruct keys as [|key keys].
  - unfold after_reads. destruct w. simpl. now rewrite !Nat.add_0_r.
  - change (length (key :: keys) =? 0) with false. cbv iota.
    rewrite place_gets_spec.
    match goal with |- (let (st, w) := ?f in _) = _ =>
      rewrite (surjective_pairing f) end.
    f_equal.
    + rewrite fire_gets_outcome with (m := m); [reflexivity | exact Hm | discriminate | reflexivity].
    + rewrite fire_gets_world by reflexivity.
      unfold after_reads. destruct w. simpl in *.
      f_equal. now rewrite <- !app_assoc.
Qed.

(** X8.  [getItems] on an established connection opens one [readonly]
    transaction and places one [get] per key, in order, and nothing else;
    the records and the legacy store are as they were.  When the engine
    fails none of the reads it fulfils with a map that holds, for every
    key of the batch that has a record, what the record reads back as; a
    key without a record is not in the map (it is not mapped to [null]).
    The first error of the engine rejects it.  With no key it fulfils
    with the empty map, with a transaction and no request. *)
Theorem getItems_batch (env : Env) (keys : list string) (w : World)
    (m : gmap string Item.t) :
  connected w m ->
  let id := next_request w in
  let r := getItems env keys w in
  (trace (snd r) =
     trace w ++ ETransaction readonly
       :: placed id (Get <$> keys) ++ events env id (Get <$> keys) /\
   idb_objectStore (snd r) = Some m /\
   localStorage (snd r) = localStorage w) /\
  ((forall i, i < length keys -> idb_fault env (id + i) = None) ->
   exists result,
     fst r = Fulfilled result /\
     forall k, result !! k = if bool_decide (k ∈ keys) then decoded <$> m !! k else None) /\
  (forall j name,
      j < length keys -> idb_fault env (id + j) = Some name ->
      (forall i, i < j -> idb_fault env (id + i) = None) ->
      fst r = Rejected (DOMException name)) /\
  fst r <> Pending /\
  getItems env [] w = (Fulfilled ∅, log (ETransaction readonly) w).
Proof.
  intros Hc id r.
  assert (Hr : r = (match first_fault env id (length keys) with
                    | None => Fulfilled (read_all m keys ∅)
                    | Some name => Rejected (DOMException name)
                    end, after_reads env w keys))
    by (apply getItems_connected; exact Hc).
  rewrite Hr. cbn [fst snd].
  split.
  { split; [reflexivity|]. split; [exact (proj2 Hc) | reflexivity]. }
  split.
  { intros Hok. apply first_fault_None in Hok. rewrite Hok.
    exists (read_all m keys ∅). split; [reflexivity|].
    intros k. rewrite read_all_lookup, lookup_empty.
    destruct (bool_decide (k ∈ keys)); [|reflexivity].
    now destruct (m !! k). }
  split.
  { intros j name Hj Hname Hbefore.
    now rewrite (first_fault_Some env id (length keys) j name Hj Hname Hbefore). }
  split; [destruct (first_fault env id (length keys)); discriminate|].
  unfold getItems. now rewrite (operation_connected env readonly _ w m Hc).
Qed.

Lemma getItems_batch_witness :
  let m : gmap string Item.t :=
    <["lang" := Item.make "lang" (Some "en") 0]>
      (<["zoom" := Item.make "zoom" (Some "2") 0]> ∅) in
  (exists result,
     fst (getItems (calm 0) ["zoom"; "theme"; "lang"] (opened m ∅)) = Fulfilled result /\
     result !! "zoom" = Some (JNumber 2) /\
     result !! "lang" = Some (JString "en") /\
     result !! "theme" = None) /\
  fst (getItems (quota_at 1) ["zoom"; "theme"; "lang"] (opened m ∅))
  = Rejected (DOMException "QuotaExceededError").
Proof.
  intros m.
  destruct (getItems_batch (calm 0) ["zoom"; "theme"; "lang"] (opened m ∅) m
              (conj eq_refl eq_refl)) as (_ & Hok & _).
  destruct Hok as (result & Hres & Hlook); [intros i _; reflexivity|].
  split.
  - exists result. split; [exact Hres|].
    rewrite !Hlook. vm_compute. repeat split; reflexivity.
  - destruct (getItems_batch (quota_at 1) ["zoom"; "theme"; "lang"] (opened m ∅) m
                (conj eq_refl eq_refl)) as (_ & _ & Hfirst & _).
    apply (Hfirst 1 "QuotaExceededError"); [simpl; lia | reflexivity |].
    intros i Hi. destruct i; [reflexivity | lia].
Defined.

(** X9.  [getItems] agrees with [getItem]: when [getItems(keys)] fulfils
    on an established connection, [getItem(k)] on the same page gives,
    for every key of the batch, the entry of the map, and [null] where
    the map has none. *)
Theorem getItems_agrees_with_getItem (env : Env) (keys : list string) (w : World)
    (m : gmap string Item.t) (result : gmap string JsValue) :
  connected w m ->
  fst (getItems env keys w) = Fulfilled result ->
  forall k, k ∈ keys -> fst (getItem env k w) = Fulfilled (default JNull (result !! k)).
Proof.
  intros Hc Hres k Hk.
  rewrite (getItems_connected env keys w m Hc) in Hres. cbn [fst] in Hres.
  destruct (first_fault env (next_request w) (length keys)) eqn:Hclean; [discriminate|].
  injection Hres as <-.
  rewrite (getItem_connected env k w m Hc).
  assert (H0 : idb_fault env (next_request w) = None).
  { rewrite <- (Nat.add_0_r (next_request w)).
    apply (proj1 (first_fault_None env _ _) Hclean).
    destruct keys; [inversion Hk | simpl; lia]. }
  rewrite H0, read_all_lookup, lookup_empty, bool_decide_eq_true_2 by exact Hk.
  now destruct (m !! k).
Qed.

Lemma getItems_agrees_with_getItem_witness :
  let m : gmap string Item.t := {[ "lang" := Item.make "lang" (Some "en") 0 ]} in
  let w := opened m ∅ in
  fst (getItem (calm 0) "lang" w) = Fulfilled (JString "en") /\
  fst (getItem (calm 0) "theme" w) = Fulfilled JNull.
Proof.
  intros m w.
  pose (result := read_all m ["lang"; "theme"] ∅).
  assert (Hres : fst (getItems (calm 0) ["lang"; "theme"] w) = Fulfilled result)
    by (vm_compute; reflexivity).
  pose proof (getItems_agrees_with_getItem (calm 0) ["lang"; "theme"] w m result
                (conj eq_refl eq_refl) Hres) as H.
  split.
  - rewrite (H "lang") by (repeat constructor). vm_compute. reflexivity.
  - rewrite (H "theme") by (repeat constructor). vm_compute. reflexivity.
Defined.

(** ** Writing a batch and reading it back *)

Lemma decoded_serialize (k : string) (v : JsValue) (t : Z) :
  round_trips v -> decoded (Item.make k (serialize v) t) = v.
Proof.
  unfold decoded. simpl. intros [[Hns Hser]|[->|[s [-> Hs]]]].
  - destruct (JsonFacts.serializable_stringify v Hser) as [s Hs].
    assert (serialize v = Some s) as ->.
    { destruct v; try exact Hs. discriminate Hns. }
    now rewrite (JsonFacts.parse_stringify v s Hser Hs).
  - reflexivity.
  - simpl. unfold JSON_parse in Hs. now destruct (Json.parse s).
Qed.

Lemma dbItems_lookup (env : Env) (tick : nat) (items : list (string * JsValue))
    (i : nat) (k : string) (v : JsValue) :
  items !! i = Some (k, v) ->
  dbItems env tick items !! i = Some (Item.make k (serialize v) (clock env (tick + i))).
Proof.
  revert tick i. induction items as [|item items IH]; intros tick i Hi; [discriminate|].
  destruct i as [|i]; simpl in *.
  - injection Hi as ->. now rewrite Nat.add_0_r.
  - rewrite (IH (S tick) i Hi). now replace (S tick + i) with (tick + S i) by lia.
Qed.

(** After a batch whose puts all succeeded and whose keys are distinct,
    every item has its record. *)
Lemma survivors_puts_distinct (env : Env) (tick id : nat)
    (items : list (string * JsValue)) (m : gmap string Item.t)
    (i : nat) (k : string) (v : JsValue) :
  NoDup (fst <$> items) ->
  first_fault env id (length items) = None ->
  items !! i = Some (k, v) ->
  survivors env id (Put <$> dbItems env tick items) m !! k
  = Some (Item.make k (serialize v) (clock env (tick + i))).
Proof.
  intros Hnd Hclean Hi.
  pose proof (dbItems_lookup env tick items i k v Hi) as Hrec.
  apply (survivors_put_kept env (dbItems env tick items) id m i
           (Item.make k (serialize v) (clock env (tick + i))));
    [now rewrite length_dbItems | exact Hrec |].
  intros i' item' Hlt Hi' Hkey.
  { simpl in Hkey.
    assert (Hk' : (fst <$> items) !! i' = Some k).
    { rewrite (keys_dbItems env tick items), list_lookup_fmap, Hi'. simpl. now rewrite Hkey. }
    assert (Hk : (fst <$> items) !! i = Some k)
      by (rewrite list_lookup_fmap, Hi; reflexivity).
    pose proof (NoDup_lookup _ _ _ _ Hnd Hk Hk'). lia. }
Qed.

(** X10.  What [setItems] wrote, [getItems] reads: after a [setItems] that
    fulfilled, for items with distinct keys and values that the store
    gives back as they were written, [getItems] of their keys gives the
    map of the items, unless the engine fails one of the reads. *)
Theorem setItems_getItems_roundtrip (env : Env) (items : list (string * JsValue))
    (w w1 : World) :
  setItems env items w = (Fulfilled true, w1) ->
  NoDup (fst <$> items) ->
  Forall (fun item => round_trips (snd item)) items ->
  fst (getItems env (fst <$> items) w1) =
  match first_fault env (next_request w1) (length items) with
  | None => Fulfilled (list_to_map items)
  | Some name => Rejected (DOMException name)
  end.
Proof.
  intros Hset Hnd Hvals.
  pose proof (setItems_any env items w) as H.
  destruct (ensureDB env w) as [[u|e] w0]; [|rewrite H in Hset; discriminate].
  destruct (idb_objectStore w0) as [m|] eqn:Hm; [|rewrite H in Hset; discriminate].
  destruct H as [Hc0 H]. rewrite H in Hset. injection Hset as Hout <-.
  unfold batch_outcome in Hout.
  destruct (first_fault env (next_request w0) (length items)) eqn:Hclean; [discriminate|].
  clear Hout H.
  set (m' := survivors env (next_request w0) (Put <$> dbItems env (next_tick w0) items) m).
  assert (Hc : connected (after_batch env w0 m (Put <$> dbItems env (next_tick w0) items)
                            (length items)) m')
    by (split; [exact (proj1 Hc0) | reflexivity]).
  rewrite (getItems_connected env _ _ m' Hc), length_fmap. cbn [fst].
  match goal with |- match ?f with _ => _ end = _ => destruct f; [reflexivity|] end.
  f_equal. apply map_eq. intros k. rewrite read_all_lookup, lookup_empty.
  destruct (decide (k ∈ fst <$> items)) as [Hin|Hout].
  - rewrite bool_decide_eq_true_2 by exact Hin.
    apply list_elem_of_fmap in Hin as [[k' v] [-> Hin]]. simpl.
    apply list_elem_of_lookup in Hin as [i Hi].
    unfold m'. rewrite (survivors_puts_distinct env _ _ items m i k' v Hnd Hclean Hi).
    rewrite decoded_serialize.
    + symmetry. apply elem_of_list_to_map_1; [exact Hnd|].
      apply list_elem_of_lookup. eauto.
    + rewrite Forall_forall in Hvals. apply (Hvals (k', v)).
      apply list_elem_of_lookup. eauto.
  - rewrite bool_decide_eq_false_2 by exact Hout.
    symmetry. now apply not_elem_of_list_to_map_1.
Qed.

Lemma setItems_getItems_roundtrip_witness :
  let items := [("lang", JString "en"); ("zoom", JNumber 2);
                ("panel", JObject [("open", JBool true)])] in
  fst (getItems (calm 0) ["lang"; "zoom"; "panel"]
         (snd (setItems (calm 0) items (first_visit ∅))))
  = Fulfilled (list_to_map items).
Proof.
  intros items.
  apply (setItems_getItems_roundtrip (calm 0) items (first_visit ∅)).
  - vm_compute. reflexivity.
  - repeat constructor; vm_compute; intros H; inversion H; subst;
      repeat match goal with
             | H : _ ∈ _ |- _ => inversion H; clear H; subst
             end.
  - constructor; [|constructor; [|constructor; [|constructor]]].
    + right. right. exists "en". split; [reflexivity | vm_compute; reflexivity].
    + left. split; vm_compute; reflexivity.
    + left. split; vm_compute; reflexivity.
Defined.

(** ** When the connection cannot be established *)

(** X11.  When the database cannot be opened, because the engine fails
    the open request or because the database on disk is newer than
    version 1, each of [setItem], [getItem], [removeItem], [clear],
    [getAllKeys], [hasItem], [getCount], [getAllItems], [setItems],
    [getItems], [removeItems], [getKeysByPrefix], [removeItemsByPrefix],
    [setItemSync], [getItemSync] and [removeItemSync] is rejected with
    that error, without opening a transaction or placing a request: all
    that happened is the open request and its error event.  Both stores
    are as they were, [db] stays unset, so the next operation asks
    again.  [migrateFromLocalStorage] reads the legacy store first: with
    something to migrate it is rejected with the same error, with nothing
    to migrate it fulfils with 0 and does not ask for the database, and
    when the legacy store cannot be read it is rejected with that error
    instead.  The automatic migration answers [false]. *)
Theorem connection_failure (env : Env) (w w1 : World) (e : JsError) :
  ensureDB env w = (Throw e, w1) ->
  (exists name,
     e = DOMException name /\
     (idb_fault env (next_request w) = Some name \/
      name = "VersionError" /\ dbVersion < idb_version w) /\
     trace w1 = trace w ++ [EOpen (next_request w); EError (next_request w) name]) /\
  (db w1 = false /\ idb_objectStore w1 = idb_objectStore w /\
   localStorage w1 = localStorage w) /\
  ((forall k v, setItem env k v w = (Rejected e, w1)) /\
   (forall k, getItem env k w = (Rejected e, w1)) /\
   (forall k, removeItem env k w = (Rejected e, w1)) /\
   clear env w = (Rejected e, w1) /\
   getAllKeys env w = (Rejected e, w1) /\
   (forall k, hasItem env k w = (Rejected e, w1)) /\
   getCount env w = (Rejected e, w1) /\
   getAllItems env w = (Rejected e, w1)) /\
  ((forall items, setItems env items w = (Rejected e, w1)) /\
   (forall keys, getItems env keys w = (Rejected e, w1)) /\
   (forall keys, removeItems env keys w = (Rejected e, w1)) /\
   (forall p, getKeysByPrefix env p w = (Rejected e, w1)) /\
   (forall p, removeItemsByPrefix env p w = (Rejected e, w1))) /\
  ((forall k v, setItemSync env k v w = (Rejected e, w1)) /\
   (forall k, getItemSync env k w = (Rejected e, w1)) /\
   (forall k, removeItemSync env k w = (Rejected e, w1))) /\
  (forall keys clearLocalStorage,
     match collect_items env keys w with
     | Normal [] =>
         migrateFromLocalStorage env keys clearLocalStorage w = (Fulfilled 0, w)
     | Normal (_ :: _) =>
         migrateFromLocalStorage env keys clearLocalStorage w = (Rejected e, w1)
     | Throw err =>
         migrateFromLocalStorage env keys clearLocalStorage w = (Rejected err, w)
     end) /\
  autoMigrateFromLocalStorage env w = (Fulfilled false, w1).
Proof.
  intros E.
  assert (Hop : forall (B : Type) (k : unit -> World -> Promise B * World),
             and_then (ensureDB env) k w = (Rejected e, w1))
    by (intros B k; unfold and_then; now rewrite E).
  split; [|split]; [| |repeat split; intros; try apply Hop].
  - unfold ensureDB in E. destruct (db w) eqn:Hdb; [discriminate|].
    unfold initDB, indexedDB_open, open_fire in E. simpl in E.
    destruct (idb_fault env (next_request w)) as [name|] eqn:Hf.
    + injection E as <- <-. exists name. split; [reflexivity|]. split; [now left|].
      simpl. now rewrite <- app_assoc.
    + destruct (idb_version w <? dbVersion); [discriminate|].
      destruct (dbVersion <? idb_version w) eqn:Hv; [|discriminate].
      injection E as <- <-. exists "VersionError". split; [reflexivity|].
      split; [right; split; [reflexivity | now apply Nat.ltb_lt]|].
      simpl. now rewrite <- app_assoc.
  - unfold ensureDB in E. destruct (db w) eqn:Hdb; [discriminate|].
    unfold initDB, indexedDB_open, open_fire in E. simpl in E.
    destruct (idb_fault env (next_request w)) as [name|].
    + injection E as <- <-. simpl. auto.
    + destruct (idb_version w <? dbVersion); [discriminate|].
      destruct (dbVersion <? idb_version w); [|discriminate].
      injection E as <- <-. simpl. auto.
  - unfold removeItemsByPrefix, getKeysByPrefix. now rewrite Hop.
  - unfold migrateFromLocalStorage.
    destruct (collect_items env keys w) as [[|item items]|err]; try reflexivity.
    change (length (item :: items) =? 0) with false. cbv iota.
    unfold setItems. now rewrite Hop.
  - unfold autoMigrateFromLocalStorage, getCount. now rewrite Hop.
Qed.

Lemma connection_failure_witness :
  let env := mkEnv (fun _ => 0%Z)
                   (fun id => if id =? 0 then Some "UnknownError" else None) None in
  let w := first_visit {[ "lang" := "en" ]} in
  fst (setItem env "zoom" (JNumber 2) w) = Rejected (DOMException "UnknownError") /\
  trace (snd (setItem env "zoom" (JNumber 2) w)) = [EOpen 0; EError 0 "UnknownError"] /\
  fst (autoMigrateFromLocalStorage env w) = Fulfilled false.
Proof.
  intros env w.
  assert (E : ensureDB env w = (Throw (DOMException "UnknownError"), snd (ensureDB env w)))
    by (vm_compute; reflexivity).
  destruct (connection_failure env w _ _ E)
    as ((name & _ & _ & Htrace) & _ & (Hset & _) & _ & _ & _ & Hauto).
  rewrite (Hset "zoom" (JNumber 2)), Hauto. cbn [fst snd].
  split; [reflexivity|]. split; [|reflexivity].
  vm_compute. reflexivity.
Defined.

(** ** Migration and the legacy store *)

Lemma setItems_localStorage (env : Env) (items : list (string * JsValue)) (w : World) :
  localStorage (snd (setItems env items w)) = localStorage w.
Proof.
  pose proof (setItems_any env items w) as H.
  destruct (ensureDB_effects env w) as (_ & _ & _ & _ & Hls).
  destruct (ensureDB env w) as [[u|e] w1]; simpl in Hls.
  - destruct (idb_objectStore w1) as [m|].
    + destruct H as [_ ->]. exact Hls.
    + now rewrite H.
  - now rewrite H.
Qed.

Lemma setItems_effects (env : Env) (items : list (string * JsValue)) (w : World) :
  exists added,
    trace (snd (setItems env items w)) = trace w ++ added /\
    Forall (fun e => is_legacy_removal e = false) added.
Proof.
  pose proof (setItems_any env items w) as H.
  destruct (ensureDB_effects env w) as (A & HA & HAk & _ & _).
  assert (HAr : Forall (fun e => is_legacy_removal e = false) A)
    by (eapply Forall_impl; [exact HAk|]; now intros e [He _]).
  destruct (ensureDB env w) as [[u|e] w1]; simpl in HA.
  - destruct (idb_objectStore w1) as [m|].
    + destruct H as [_ ->].
      exists (A ++ batch_effects env (next_request w1)
                     (Put <$> dbItems env (next_tick w1) items)).
      split; [simpl; rewrite HA; now rewrite <- app_assoc|].
      apply Forall_app. split; [exact HAr | apply batch_effects_kinds].
    + rewrite H. eauto.
  - rewrite H. eauto.
Qed.

(** Without clearing, a migration touches the legacy store at no point. *)
Lemma migrate_false_frame (env : Env) (keys : option (list string)) (w : World) :
  let r := migrateFromLocalStorage env keys false w in
  localStorage (snd r) = localStorage w /\
  exists added,
    trace (snd r) = trace w ++ added /\
    Forall (fun e => is_legacy_removal e = false) added.
Proof.
  cbv zeta.
  assert (Hsnd : snd (migrateFromLocalStorage env keys false w) = w \/
                 exists items, snd (migrateFromLocalStorage env keys false w)
                               = snd (setItems env items w)).
  { unfold migrateFromLocalStorage.
    destruct (collect_items env keys w) as [items|e]; [|now left].
    destruct (length items =? 0); [now left|]. right. exists items.
    now destruct (setItems env items w) as [[|b|e] w1]. }
  destruct Hsnd as [-> | [items ->]].
  - split; [reflexivity|]. exists []. now rewrite app_nil_r.
  - split; [apply setItems_localStorage | apply setItems_effects].
Qed.

(** X12.  A migration that is not asked to clear the legacy store leaves
    it as it was, whatever happens, and never calls [removeItem] or
    [clear] on it; the automatic migration is such a migration. *)
Theorem migration_keeps_source (env : Env) (keys : option (list string)) (w : World) :
  (let r := migrateFromLocalStorage env keys false w in
   localStorage (snd r) = localStorage w /\
   exists added,
     trace (snd r) = trace w ++ added /\
     Forall (fun e => is_legacy_removal e = false) added) /\
  (let r := autoMigrateFromLocalStorage env w in
   localStorage (snd r) = localStorage w /\
   exists added,
     trace (snd r) = trace w ++ added /\
     Forall (fun e => is_legacy_removal e = false) added).
Proof.
  split; [apply migrate_false_frame|]. cbv zeta.
  destruct (getCount_any env w) as (Hls & _ & (A & HA & _ & HAr & _) & _).
  assert (Hcount : localStorage (snd (getCount env w)) = localStorage w /\
                   exists added,
                     trace (snd (getCount env w)) = trace w ++ added /\
                     Forall (fun e => is_legacy_removal e = false) added) by eauto.
  assert (Hsnd : snd (autoMigrateFromLocalStorage env w) = snd (getCount env w) \/
                 snd (autoMigrateFromLocalStorage env w)
                 = snd (migrateFromLocalStorage env None false (snd (getCount env w)))).
  { unfold autoMigrateFromLocalStorage.
    destruct (getCount env w) as [[|count|e] w1]; cbn [snd]; [now left| |now left].
    destruct (0 <? count); [now left|].
    destruct (localStorage_access env); [|now left].
    destruct (localStorage_length w1 =? 0); [now left|]. right.
    now destruct (migrateFromLocalStorage env None false w1) as [[|n|e] w2]. }
  destruct Hsnd as [-> | ->]; [exact Hcount|].
  destruct (migrate_false_frame env None (snd (getCount env w))) as (Hls2 & B & HB & HBr).
  split; [now rewrite Hls2|].
  exists (A ++ B). split; [rewrite HB, HA; now rewrite <- app_assoc|].
  apply Forall_app. split; assumption.
Qed.

(** [migrateFromLocalStorage] on an established connection with something
    to migrate. *)
Lemma migrate_connected (env : Env) (keys : option (list string))
    (clearLocalStorage : bool) (w : World) (m : gmap string Item.t)
    (items : list (string * JsValue)) :
  connected w m ->
  collect_items env keys w = Normal items -> items <> [] ->
  migrateFromLocalStorage env keys clearLocalStorage w =
  let w' := after_batch env w m (Put <$> dbItems env (next_tick w) items) (length items) in
  match first_fault env (next_request w) (length items) with
  | Some name => (Rejected (DOMException name), w')
  | None =>
      (Fulfilled (length items),
       if clearLocalStorage then
         if keys_given keys
         then fold_left (fun w key => localStorage_removeItem key w) (default [] keys) w'
         else localStorage_clear w'
       else w')
  end.
Proof.
  intros Hc Hitems Hne. unfold migrateFromLocalStorage. rewrite Hitems.
  destruct items as [|item items]; [congruence|].
  change (length (item :: items) =? 0) with false. cbv iota.
  rewrite (setItems_connected env _ w m Hc). unfold batch_outcome.
  destruct (first_fault env (next_request w) (length (item :: items))); reflexivity.
Qed.

Lemma remove_each_localStorage (keys : list string) (w : World) (k : string) :
  localStorage (fold_left (fun w key => localStorage_removeItem key w) keys w) !! k
  = if bool_decide (k ∈ keys) then None else localStorage w !! k.
Proof.
  revert w. induction keys as [|key keys IH]; intros w.
  - rewrite bool_decide_eq_false_2 by apply not_elem_of_nil. reflexivity.
  - simpl. rewrite IH. simpl.
    destruct (decide (k = key)) as [->|Hne].
    + rewrite (bool_decide_eq_true_2 (key ∈ key :: keys)) by now left.
      rewrite lookup_delete_eq. now destruct (bool_decide (key ∈ keys)).
    + assert (Hiff : k ∈ key :: keys <-> k ∈ keys) by (rewrite elem_of_cons; tauto).
      rewrite (bool_decide_ext _ _ Hiff).
      rewrite lookup_delete_ne by congruence. reflexivity.
Qed.

(** The loop over all keys collects no item under the empty key. *)
Lemma migrate_index_keys (w : World) (indices : list nat)
    (acc : list (string * JsValue)) :
  Forall (fun item => fst item <> "") acc ->
  Forall (fun item => fst item <> "") (fold_left (migrate_index w) indices acc).
Proof.
  revert acc. induction indices as [|i indices IH]; intros acc Hacc; [exact Hacc|].
  simpl. apply IH. unfold migrate_index.
  destruct (localStorage_key i w) as [key|]; simpl; [|exact Hacc].
  destruct (String.eqb key "") eqn:Ek; simpl; [exact Hacc|].
  unfold migrate_key. destruct (localStorage_getItem key w); [|exact Hacc].
  apply Forall_app. split; [exact Hacc|]. constructor; [|constructor].
  simpl. intros ->. now rewrite String.eqb_refl in Ek.
Qed.

(** X13.  What a fulfilled [migrateFromLocalStorage(keys, true)] removes
    from the legacy store, on an established connection.  Having found
    nothing to migrate it removes nothing (the page is as it was).
    Otherwise, with [keys] given, exactly the entries of [keys] are
    removed; with [keys] omitted or empty the whole legacy store is
    emptied, while no record is ever written under the empty key: an
    entry under the empty key is removed without having been migrated. *)
Theorem migrate_clears_source (env : Env) (keys : option (list string)) (w : World)
    (m : gmap string Item.t) (n : nat) :
  connected w m ->
  fst (migrateFromLocalStorage env keys true w) = Fulfilled n ->
  let r := migrateFromLocalStorage env keys true w in
  (n = 0 -> snd r = w) /\
  (0 < n -> keys_given keys = true ->
   forall k, localStorage (snd r) !! k =
             if bool_decide (k ∈ default [] keys) then None else localStorage w !! k) /\
  (0 < n -> keys_given keys = false ->
   localStorage (snd r) = ∅ /\
   exists added,
     trace (snd r) = trace w ++ added /\ "" ∉ Item.key <$> puts added).
Proof.
  intros Hc Hn r. subst r.
  destruct (collect_items env keys w) as [items|e] eqn:Hitems.
  2:{ unfold migrateFromLocalStorage in Hn. rewrite Hitems in Hn. discriminate. }
  destruct (decide (items = [])) as [->|Hne].
  { unfold migrateFromLocalStorage in *. rewrite Hitems in *. simpl in *.
    injection Hn as <-. split; [reflexivity|]. split; intros H; lia. }
  rewrite (migrate_connected env keys true w m items Hc Hitems Hne) in *. cbv zeta in *.
  destruct (first_fault env (next_request w) (length items)) eqn:Hclean; [discriminate|].
  cbn [fst snd] in *. injection Hn as <-.
  assert (Hlen : length items <> 0) by (destruct items; [congruence | discriminate]).
  split; [intros H; contradiction|].
  split.
  - intros _ Hk k. rewrite Hk. now rewrite remove_each_localStorage.
  - intros _ Hk. rewrite Hk. split; [reflexivity|].
    exists (batch_effects env (next_request w) (Put <$> dbItems env (next_tick w) items)
            ++ [ELsClear]).
    split; [unfold batch_effects; simpl; now rewrite <- app_assoc|].
    rewrite puts_app, puts_batch_effects. simpl. rewrite app_nil_r.
    rewrite <- keys_dbItems.
    unfold collect_items in Hitems.
    destruct (localStorage_access env); [|discriminate]. rewrite Hk in Hitems.
    injection Hitems as <-.
    intros Hin. apply list_elem_of_fmap in Hin as [item [Hkey Hin]].
    assert (Hall : Forall (fun item : string * JsValue => fst item <> "")
                     (fold_left (migrate_index w) (seq 0 (localStorage_length w)) []))
      by (apply migrate_index_keys; constructor).
    rewrite Forall_forall in Hall. now apply (Hall item Hin).
Qed.

Lemma migrate_clears_source_witness :
  let ls : gmap string string := <["" := "x"]> (<["lang" := "en"]> ∅) in
  let r := migrateFromLocalStorage (calm 0) None true (opened ∅ ls) in
  fst r = Fulfilled 1 /\ localStorage (snd r) = ∅ /\
  let r' := migrateFromLocalStorage (calm 0) (Some ["lang"; "zoom"]) true (opened ∅ ls) in
  localStorage (snd r') !! "lang" = None /\ localStorage (snd r') !! "" = Some "x".
Proof.
  intros ls r.
  assert (Hn : fst r = Fulfilled 1) by (vm_compute; reflexivity).
  destruct (migrate_clears_source (calm 0) None (opened ∅ ls) ∅ 1 (conj eq_refl eq_refl) Hn)
    as (_ & _ & Hall).
  split; [exact Hn|]. split; [apply Hall; [lia | reflexivity]|].
  intros r'.
  assert (Hn' : fst r' = Fulfilled 1) by (vm_compute; reflexivity).
  destruct (migrate_clears_source (calm 0) (Some ["lang"; "zoom"]) (opened ∅ ls) ∅ 1
              (conj eq_refl eq_refl) Hn') as (_ & Hkeys & _).
  unfold r'. rewrite !Hkeys by (lia || reflexivity). vm_compute. split; reflexivity.
Defined.

(** ** The first automatic migration *)

(** [getCount] on an established connection: the promise and the page it
    leaves. *)
Lemma getCount_connected_pair (env : Env) (w : World) (m : gmap string Item.t) :
  connected w m ->
  getCount env w =
  (match idb_fault env (next_request w) with
   | Some name => Rejected (DOMException name)
   | None => Fulfilled (size m)
   end,
   mkWorld (db w) (idb_version w) (Some m) (localStorage w)
           (S (next_request w)) (next_tick w)
           (trace w ++ [ETransaction readonly; ERequest (next_request w) Count;
                        match idb_fault env (next_request w) with
                        | Some name => EError (next_request w) name
                        | None => ESuccess (next_request w)
                        end])).
Proof.
  intros Hc. unfold getCount. rewrite (operation_connected env readonly _ w m Hc).
  destruct Hc as [_ Hm]. unfold place, fire.
  destruct w as [dbf ver st ls nr nt tr]. simpl in *. subst st.
  destruct (idb_fault env nr); unfold log; simpl; rewrite <- !app_assoc; reflexivity.
Qed.

(** With a record in the store the automatic migration answers [false]. *)
Lemma autoMigrate_nonempty (env : Env) (w : World) (m : gmap string Item.t) :
  connected w m -> size m <> 0 ->
  fst (autoMigrateFromLocalStorage env w) = Fulfilled false.
Proof.
  intros Hc Hsize. unfold autoMigrateFromLocalStorage.
  rewrite (getCount_connected_pair env w m Hc).
  destruct (idb_fault env (next_request w)); [reflexivity|].
  destruct (0 <? size m) eqn:E; [reflexivity|].
  apply Nat.ltb_ge in E. lia.
Qed.

Lemma items_of_all_lookup (ls : gmap string string) (k s : string) :
  ls !! k = Some s -> exists i, items_of_all ls !! i = Some (k, parse_or_raw s).
Proof.
  intros Hk. apply elem_of_map_to_list in Hk. apply list_elem_of_lookup in Hk as [i Hi].
  exists i. unfold items_of_all. now rewrite list_lookup_fmap, Hi.
Qed.

(** X14.  The first automatic migration.  On a page whose connection can
    be established and whose store is empty, with a legacy store that can
    be read, is not empty and has no entry under the empty key, and an
    engine that fails none of the requests, [autoMigrateFromLocalStorage]
    answers [true]; the legacy store is as it was; the object store then
    holds one record for every legacy entry, under the same key, and
    nothing else; an entry whose value the store gives back as written
    reads back through [getItem] as the parse of the legacy string, or
    as the string itself when it is not JSON text; and a second automatic
    migration answers [false]. *)
Theorem autoMigrate_first_run (env : Env) (w w0 : World) :
  ensureDB env w = (Normal tt, w0) -> connected w0 ∅ ->
  localStorage_fault env = None ->
  localStorage w <> ∅ -> localStorage w !! "" = None ->
  (forall i, i <= size (localStorage w) -> idb_fault env (next_request w0 + i) = None) ->
  let r := autoMigrateFromLocalStorage env w in
  fst r = Fulfilled true /\
  localStorage (snd r) = localStorage w /\
  (exists m',
     connected (snd r) m' /\
     (forall k s, localStorage w !! k = Some s ->
        exists t, m' !! k = Some (Item.make k (serialize (parse_or_raw s)) t)) /\
     (forall k, localStorage w !! k = None -> m' !! k = None)) /\
  (forall k s,
     localStorage w !! k = Some s -> round_trips (parse_or_raw s) ->
     idb_fault env (next_request (snd r)) = None ->
     fst (getItem env k (snd r)) = Fulfilled (parse_or_raw s)) /\
  fst (autoMigrateFromLocalStorage env (snd r)) = Fulfilled false.
Proof.
  intros E0 Hc0 Hlsf Hne Hempty Hok r.
  pose proof (ensureDB_Normal env w w0 tt E0) as (_ & Hls0 & _ & _).
  set (ls := localStorage w) in *.
  set (items := items_of_all ls).
  assert (Hlen : length items = size ls)
    by (unfold items, items_of_all; now rewrite length_fmap, length_map_to_list).
  assert (Hsize : size ls <> 0) by now apply map_size_non_empty_iff.
  (* the count *)
  assert (Hcount : getCount env w = getCount env w0)
    by (unfold getCount; now apply ensureDB_then).
  pose proof (getCount_connected_pair env w0 ∅ Hc0) as Hpair.
  assert (H0 : idb_fault env (next_request w0) = None)
    by (rewrite <- (Nat.add_0_r (next_request w0)); apply Hok; lia).
  rewrite H0, map_size_empty in Hpair.
  match type of Hpair with _ = (_, ?w') => set (w1 := w') in * end.
  assert (Hc1 : connected w1 ∅) by (split; [exact (proj1 Hc0) | reflexivity]).
  (* the migration *)
  assert (Hitems : collect_items env None w1 = Normal items).
  { pose proof (proj2 (collect_items_spec env None w1 Hlsf) eq_refl) as H.
    change (localStorage w1) with (localStorage w0) in H. rewrite Hls0 in H.
    exact (H Hempty). }
  assert (Hitems_ne : items <> []) by (intros H; rewrite H in Hlen; simpl in Hlen; lia).
  assert (Hclean : first_fault env (next_request w1) (length items) = None).
  { apply first_fault_None. intros i Hi. change (next_request w1) with (S (next_request w0)).
    replace (S (next_request w0) + i) with (next_request w0 + S i) by lia.
    apply Hok. lia. }
  pose proof (migrate_connected env None false w1 ∅ items Hc1 Hitems Hitems_ne) as Hmig.
  cbv zeta in Hmig. rewrite Hclean in Hmig.
  set (recs := dbItems env (next_tick w1) items) in *.
  set (w2 := after_batch env w1 ∅ (Put <$> recs) (length items)) in *.
  assert (Hr : r = (Fulfilled true, w2)).
  { unfold r, autoMigrateFromLocalStorage. rewrite Hcount, Hpair.
    change (0 <? 0) with false. cbv iota.
    unfold localStorage_access. rewrite Hlsf.
    assert (Hlen1 : (localStorage_length w1 =? 0) = false).
    { apply Nat.eqb_neq. unfold localStorage_length.
      change (localStorage w1) with (localStorage w0). now rewrite Hls0. }
    rewrite Hlen1, Hmig. cbn [resolve].
    assert (Hpos : (0 <? length items) = true) by (apply Nat.ltb_lt; lia).
    now rewrite Hpos. }
  rewrite Hr. cbn [fst snd].
  set (m' := survivors env (next_request w1) (Put <$> recs) ∅).
  assert (Hc2 : connected w2 m') by (split; [exact (proj1 Hc0) | reflexivity]).
  assert (Hnd : NoDup (fst <$> items)).
  { unfold items. rewrite keys_of_items_of_all. apply NoDup_fst_map_to_list. }
  assert (Hrec : forall k s, ls !! k = Some s ->
             exists t, m' !! k = Some (Item.make k (serialize (parse_or_raw s)) t)).
  { intros k s Hk. destruct (items_of_all_lookup ls k s Hk) as [i Hi].
    eexists. unfold m', recs.
    apply (survivors_puts_distinct env _ _ items ∅ i k _ Hnd Hclean Hi). }
  split; [reflexivity|].
  split; [exact Hls0|].
  split.
  { exists m'. split; [exact Hc2|]. split; [exact Hrec|].
    intros k Hk. unfold m'. rewrite survivors_puts_other; [apply lookup_empty|].
    intros item Hin Hkey.
    assert (Hin' : k ∈ Item.key <$> recs)
      by (apply list_elem_of_fmap; exists item; split; [now symmetry | exact Hin]).
    unfold recs in Hin'. rewrite <- keys_dbItems in Hin'. unfold items in Hin'.
    rewrite keys_of_items_of_all in Hin'.
    apply list_elem_of_fmap in Hin' as [[k' s] [-> Hin']].
    apply elem_of_map_to_list in Hin'. simpl in Hk. congruence. }
  split.
  { intros k s Hk Hrt Hf. rewrite (getItem_connected env k w2 m' Hc2), Hf.
    destruct (Hrec k s Hk) as [t ->]. f_equal. now apply decoded_serialize. }
  apply (autoMigrate_nonempty env w2 m' Hc2).
  destruct (map_choose ls Hne) as (k & s & Hk).
  apply (map_size_ne_0_lookup_2 m' k). destruct (Hrec k s Hk) as [t ->]. eauto.
Qed.

Lemma autoMigrate_first_run_witness :
  let ls : gmap string string :=
    <["lang" := "en"]> (<["zoom" := "2"]> (<["recent" := "[3,1]"]> ∅)) in
  let r := autoMigrateFromLocalStorage (calm 0) (first_visit ls) in
  fst r = Fulfilled true /\
  localStorage (snd r) = ls /\
  fst (getItem (calm 0) "lang" (snd r)) = Fulfilled (JString "en") /\
  fst (getItem (calm 0) "zoom" (snd r)) = Fulfilled (JNumber 2) /\
  fst (autoMigrateFromLocalStorage (calm 0) (snd r)) = Fulfilled false.
Proof.
  intros ls r.
  assert (E0 : ensureDB (calm 0) (first_visit ls)
               = (Normal tt, snd (ensureDB (calm 0) (first_visit ls))))
    by (vm_compute; reflexivity).
  destruct (autoMigrate_first_run (calm 0) (first_visit ls) _ E0)
    as (Htrue & Hls & _ & Hget & Hagain).
  - split; vm_compute; reflexivity.
  - reflexivity.
  - vm_compute. discriminate.
  - vm_compute. reflexivity.
  - intros i _. reflexivity.
  - split; [exact Htrue|]. split; [exact Hls|]. split; [|split; [|exact Hagain]].
    + apply (Hget "lang" "en"); [vm_compute; reflexivity | | reflexivity].
      right. right. exists "en". split; vm_compute; reflexivity.
    + apply (Hget "zoom" "2"); [vm_compute; reflexivity | | reflexivity].
      left. split; vm_compute; reflexivity.
Defined.

(** ** The language service *)

Lemma storage_key_inj (u u' : string) :
  LanguageService.storage_key u = LanguageService.storage_key u' -> u = u'.
Proof.
  unfold LanguageService.storage_key, LanguageService.localStorageItem. simpl.
  intros H. now injection H.
Qed.

Lemma getStorageLanguage_connected (env : Env) (user : option string) (w : World)
    (m : gmap string Item.t) :
  connected w m ->
  fst (LanguageService.getStorageLanguage env user w) =
  match idb_fault env (next_request w) with
  | Some _ => Fulfilled JNull
  | None =>
      match m !! LanguageService.storage_key (LanguageService.username_of user) with
      | Some item => Fulfilled (decoded item)
      | None => Fulfilled JNull
      end
  end.
Proof.
  intros Hc. unfold LanguageService.getStorageLanguage.
  set (key := LanguageService.storage_key (LanguageService.username_of user)).
  change (getItemSync env key w) with (getItem env key w).
  pose proof (getItem_connected env key w m Hc) as H.
  destruct (getItem env key w) as [p w1]. simpl in H. subst p.
  destruct (idb_fault env (next_request w)); [reflexivity|].
  destruct (m !! key); reflexivity.
Qed.

(** X16.  [getStorageLanguage] never rejects: whatever the page and the
    engine, it fulfils.  It gives [null] when the store cannot be read
    and, on an established connection, when no language was saved for
    the user, so the caller cannot tell the two apart; otherwise it
    gives what the record of the key [currentLanguage-<username>] reads
    back as. *)
Theorem getStorageLanguage_never_rejects (env : Env) (user : option string) (w : World) :
  let key := LanguageService.storage_key (LanguageService.username_of user) in
  let r := LanguageService.getStorageLanguage env user w in
  (exists language, fst r = Fulfilled language) /\
  (forall e, fst (getItemSync env key w) = Rejected e -> fst r = Fulfilled JNull) /\
  (forall m, connected w m ->
     fst r = match idb_fault env (next_request w) with
             | Some _ => Fulfilled JNull
             | None =>
                 match m !! key with
                 | Some item => Fulfilled (decoded item)
                 | None => Fulfilled JNull
                 end
             end).
Proof.
  intros key r. split; [|split].
  - unfold r, LanguageService.getStorageLanguage. fold key.
    change (getItemSync env key w) with (getItem env key w).
    destruct (getItem_settles env key w) as [[v Hv]|[name Hn]];
      destruct (getItem env key w) as [[|v'|e] w1]; simpl in *; try discriminate; eauto.
  - intros e He. unfold r, LanguageService.getStorageLanguage. fold key.
    destruct (getItemSync env key w) as [[|v'|e'] w1]; simpl in *;
      try discriminate; reflexivity.
  - intros m Hc. now apply getStorageLanguage_connected.
Qed.

Lemma getStorageLanguage_never_rejects_witness :
  let env := mkEnv (fun _ => 0%Z)
                   (fun id => if id =? 0 then Some "UnknownError" else None) None in
  fst (LanguageService.getStorageLanguage env (Some "ann") (first_visit ∅))
  = Fulfilled JNull /\
  fst (LanguageService.getStorageLanguage (calm 0) (Some "ann") (opened ∅ ∅))
  = Fulfilled JNull.
Proof.
  intros env. split.
  - destruct (getStorageLanguage_never_rejects env (Some "ann") (first_visit ∅))
      as (_ & Hrej & _).
    apply (Hrej (DOMException "UnknownError")). vm_compute. reflexivity.
  - destruct (getStorageLanguage_never_rejects (calm 0) (Some "ann") (opened ∅ ∅))
      as (_ & _ & Hcon).
    rewrite (Hcon ∅ (conj eq_refl eq_refl)). vm_compute. reflexivity.
Defined.

(** [setItem] on an established connection that the engine lets
    through. *)
Lemma setItem_connected (env : Env) (k : string) (v : JsValue) (w : World)
    (m : gmap string Item.t) :
  connected w m -> idb_fault env (next_request w) = None ->
  fst (setItem env k v w) = Fulfilled true /\
  connected (snd (setItem env k v w))
            (<[k := Item.make k (serialize v) (clock env (next_tick w))]> m).
Proof.
  intros Hc Hf. unfold setItem. rewrite (operation_connected env readwrite _ w m Hc).
  destruct Hc as [Hdb Hm]. unfold Date_now, place, fire. simpl. rewrite Hf. simpl.
  split; [reflexivity|]. split; simpl; [exact Hdb | now rewrite Hm].
Qed.

(** X17.  The language is kept per user.  After [setCurrentLanguage] on
    an established connection, with a language that the store gives back
    as written and an engine that fails neither the write nor the read,
    [getStorageLanguage] for the same user gives that language, and for
    a user with another name it gives what it gave before.  The slot is
    chosen by the name alone: a user without a name and no user at all
    share one.  [setCurrentLanguage] throws only when [languageConfig]
    is not set, which is the case before the project is loaded. *)
Theorem language_kept_per_user (env : Env) (user : option string) (lang : JsValue)
    (s : LanguageService.State) (w : World) (m : gmap string Item.t) :
  connected w m ->
  round_trips lang ->
  idb_fault env (next_request w) = None ->
  match LanguageService.setCurrentLanguage env user lang s w with
  | LanguageService.TypeError => LanguageService.languageConfig s = None
  | LanguageService.Done (s', w') =>
      (idb_fault env (next_request w') = None ->
       fst (LanguageService.getStorageLanguage env user w') = Fulfilled lang /\
       (forall user',
          LanguageService.username_of user' = LanguageService.username_of user ->
          fst (LanguageService.getStorageLanguage env user' w') = Fulfilled lang) /\
       (forall user',
          LanguageService.username_of user' <> LanguageService.username_of user ->
          fst (LanguageService.getStorageLanguage env user' w')
          = fst (LanguageService.getStorageLanguage env user' w))) /\
      LanguageService.username_of None = LanguageService.username_of (Some "")
  end.
Proof.
  intros Hc Hrt Hf.
  unfold LanguageService.setCurrentLanguage.
  destruct (LanguageService.languageConfig s) as [config|]; [|reflexivity].
  set (key := LanguageService.storage_key (LanguageService.username_of user)) in *.
  destruct (setItem_connected env key lang w m Hc Hf) as [_ Hc1].
  destruct (setItem env key lang w) as [p w1]. cbn [snd] in Hc1.
  split; [|reflexivity]. intros Hf'.
  assert (Hsame : forall user',
             LanguageService.username_of user' = LanguageService.username_of user ->
             fst (LanguageService.getStorageLanguage env user' w1) = Fulfilled lang).
  { intros user' Hu.
    rewrite (getStorageLanguage_connected env user' w1 _ Hc1), Hf', Hu. fold key.
    rewrite lookup_insert_eq. f_equal. now apply decoded_serialize. }
  split; [now apply Hsame|]. split; [exact Hsame|].
  intros user' Hu.
  assert (Hk : key <> LanguageService.storage_key (LanguageService.username_of user')).
  { intros H. apply storage_key_inj in H. congruence. }
  rewrite (getStorageLanguage_connected env user' w1 _ Hc1), Hf'.
  rewrite (getStorageLanguage_connected env user' w m Hc), Hf.
  now rewrite lookup_insert_ne by exact Hk.
Qed.

Lemma language_kept_per_user_witness :
  let lang := JObject [("id", JString "de"); ("name", JString "Deutsch")] in
  let s := LanguageService.mkState (Some [("currentLanguage", JNull)]) [] in
  let m : gmap string Item.t :=
    {[ "currentLanguage-bob" := Item.make "currentLanguage-bob" (Some "en") 0 ]} in
  match LanguageService.setCurrentLanguage (calm 0) (Some "ann") lang s (opened m ∅) with
  | LanguageService.TypeError => False
  | LanguageService.Done (_, w') =>
      fst (LanguageService.getStorageLanguage (calm 0) (Some "ann") w') = Fulfilled lang /\
      fst (LanguageService.getStorageLanguage (calm 0) (Some "bob") w')
      = Fulfilled (JString "en")
  end.
Proof.
  intros lang s m.
  assert (Hrt : round_trips lang) by (left; split; vm_compute; reflexivity).
  pose proof (language_kept_per_user (calm 0) (Some "ann") lang s (opened m ∅) m
                (conj eq_refl eq_refl) Hrt eq_refl) as H.
  destruct (LanguageService.setCurrentLanguage (calm 0) (Some "ann") lang s (opened m ∅))
    as [[s' w']|]; [|discriminate H].
  destruct H as [H _]. destruct (H eq_refl) as (Hann & _ & Hbob).
  split; [exact Hann|].
  rewrite (Hbob (Some "bob")) by (vm_compute; discriminate).
  vm_compute. reflexivity.
Defined.

(** ** The reading operations are read-only *)

Lemma untouched_refl (w : World) : untouched w w.
Proof.
  split; [reflexivity|]. split; [reflexivity|]. exists []. now rewrite app_nil_r.
Qed.

Lemma untouched_trans (w w1 w2 : World) :
  untouched w w1 -> untouched w1 w2 -> untouched w w2.
Proof.
  intros (Hr & Hl & A & HA & HAq) (Hr' & Hl' & B & HB & HBq).
  split; [congruence|]. split; [congruence|].
  exists (A ++ B). split; [rewrite HB, HA; now rewrite <- app_assoc|].
  apply Forall_app. split; assumption.
Qed.

Lemma untouched_log (e : Effect) (w : World) :
  changes_data e = false -> untouched w (log e w).
Proof.
  intros He. split; [reflexivity|]. split; [reflexivity|].
  exists [e]. split; [reflexivity|]. now constructor.
Qed.

Lemma ensureDB_untouched (env : Env) (w : World) : untouched w (snd (ensureDB env w)).
Proof.
  unfold ensureDB, initDB, indexedDB_open, open_fire, onupgradeneeded, untouched, records.
  destruct w as [dbf ver st ls nr nt tr]. simpl.
  destruct dbf; [simpl; repeat split; exists []; now rewrite app_nil_r|].
  destruct (idb_fault env nr) as [name|];
    [|destruct (ver <? dbVersion);
      [destruct st|destruct (dbVersion <? ver)]];
    simpl; (split; [reflexivity|]); (split; [reflexivity|]);
    eexists; (split; [rewrite <- ?app_assoc; reflexivity|]); repeat constructor.
Qed.

Lemma transaction_readonly_untouched (w : World) :
  untouched w (snd (transaction readonly w)).
Proof.
  unfold transaction. destruct (idb_objectStore w); [|apply untouched_refl].
  now apply untouched_log.
Qed.

(** A request that reads, placed and run. *)
Lemma read_untouched (env : Env) (req : Request) (w : World) :
  apply_request req = (fun m => m) -> changes_data (ERequest 0 req) = false ->
  untouched w (snd (fire env (next_request w) req (snd (place req w)))).
Proof.
  intros Hreq Hq. unfold place, fire, untouched, records. cbn [fst snd].
  assert (Hq' : changes_data (ERequest (next_request w) req) = false)
    by (destruct req; solve [discriminate Hq | reflexivity]).
  destruct w as [dbf ver st ls nr nt tr]. simpl in *.
  destruct (idb_fault env nr) as [name|]; simpl;
    (split; [rewrite ?Hreq; now destruct st|]); (split; [reflexivity|]);
    eexists; (split; [rewrite <- ?app_assoc; reflexivity|]);
    constructor; auto; constructor; auto.
Qed.

Lemma and_then_untouched {A B : Type} (m : World -> Completion A * World)
    (k : A -> World -> Promise B * World) (w : World) :
  untouched w (snd (m w)) ->
  (forall a w1, untouched w1 (snd (k a w1))) ->
  untouched w (snd (and_then m k w)).
Proof.
  intros Hm Hk. unfold and_then. destruct (m w) as [[a|e] w1]; simpl in *; [|exact Hm].
  exact (untouched_trans _ _ _ Hm (Hk a w1)).
Qed.

(** An operation that opens a [readonly] transaction and whose body
    changes nothing changes nothing. *)
Lemma reading_untouched {B : Type} (env : Env) (body : World -> Promise B * World)
    (w : World) :
  (forall w1, untouched w1 (snd (body w1))) ->
  untouched w
    (snd (and_then (ensureDB env)
            (fun _ => and_then (transaction readonly) (fun _ => body)) w)).
Proof.
  intros Hbody. apply and_then_untouched; [apply ensureDB_untouched|].
  intros _ w1. apply and_then_untouched; [apply transaction_readonly_untouched|].
  intros _ w2. apply Hbody.
Qed.

Lemma gets_untouched (env : Env) (keys : list string) (id : nat) :
  Forall (fun e => changes_data e = false)
         (placed id (Get <$> keys) ++ events env id (Get <$> keys)).
Proof.
  apply Forall_app. split.
  - revert id. induction keys; intros id; simpl; constructor; auto.
  - revert id. induction keys as [|k keys IH]; intros id; simpl; [constructor|].
    destruct (idb_fault env id); constructor; auto.
    clear. generalize (S id). induction keys; intros id'; simpl; constructor; auto.
Qed.

(** X18.  The reading operations are read-only.  On every page and with
    every engine, [getItem], [hasItem], [getAllKeys], [getCount],
    [getKeysByPrefix] and [getItems] leave the records and the legacy
    store as they were, whether they fulfil or are rejected; they open no
    [readwrite] transaction and place no [put], [delete] or [clear]. *)
Theorem reads_change_nothing (env : Env) (w : World) :
  (forall k, untouched w (snd (getItem env k w))) /\
  (forall k, untouched w (snd (hasItem env k w))) /\
  untouched w (snd (getAllKeys env w)) /\
  untouched w (snd (getCount env w)) /\
  (forall p, untouched w (snd (getKeysByPrefix env p w))) /\
  (forall keys, untouched w (snd (getItems env keys w))).
Proof.
  assert (Hone : forall (B : Type) (req : Request)
                   (k : option string -> World -> Promise B * World) w1,
             apply_request req = (fun m => m) -> changes_data (ERequest 0 req) = false ->
             (forall o w2, snd (k o w2) = w2) ->
             untouched w1
               (snd (let (request, w2) := place req w1 in
                     let (o, w3) := fire env request req w2 in k o w3))).
  { intros B req k w1 Hreq Hq Hk.
    pose proof (read_untouched env req w1 Hreq Hq) as H.
    unfold place in *. cbn [fst snd] in *.
    destruct (fire env (next_request w1) req _) as [o w3]. cbn [snd] in H.
    now rewrite Hk. }
  split; [|split; [|split; [|split; [|split]]]].
  - intros k. apply reading_untouched. intros w1.
    apply (Hone _ (Get k)
             (fun o w2 => match o with
                          | None =>
                              match result_get k w2 with
                              | Some result =>
                                  match JSON_parse (ToString (Item.value result)) with
                                  | Normal parsed => (resolve parsed Pending, w2)
                                  | Throw _ =>
                                      (resolve (stored (Item.value result)) Pending, w2)
                                  end
                              | None => (resolve JNull Pending, w2)
                              end
                          | Some error => (reject (DOMException error) Pending, w2)
                          end)); [reflexivity | reflexivity |].
    intros [error|] w2; [reflexivity|].
    destruct (result_get k w2) as [result|]; [|reflexivity].
    now destruct (JSON_parse _).
  - intros k. apply reading_untouched. intros w1.
    apply (Hone _ (CountOnly k)
             (fun o w2 => match o with
                          | None => (resolve (0 <? result_count_only k w2) Pending, w2)
                          | Some error => (reject (DOMException error) Pending, w2)
                          end)); [reflexivity | reflexivity |].
    now intros [error|] w2.
  - apply reading_untouched. intros w1.
    apply (Hone _ GetAllKeys
             (fun o w2 => match o with
                          | None => (resolve (result_getAllKeys w2) Pending, w2)
                          | Some error => (reject (DOMException error) Pending, w2)
                          end)); [reflexivity | reflexivity |].
    now intros [error|] w2.
  - apply reading_untouched. intros w1.
    apply (Hone _ Count
             (fun o w2 => match o with
                          | None => (resolve (result_count w2) Pending, w2)
                          | Some error => (reject (DOMException error) Pending, w2)
                          end)); [reflexivity | reflexivity |].
    now intros [error|] w2.
  - intros p. apply reading_untouched. intros w1.
    apply (Hone _ GetAllKeys
             (fun o w2 =>
                match o with
                | None =>
                    (resolve
                       (fold_left (fun result key =>
                                     if startsWith key p then result ++ [key] else result)
                                  (result_getAllKeys w2) []) Pending, w2)
                | Some error => (reject (DOMException error) Pending, w2)
                end)); [reflexivity | reflexivity |].
    now intros [error|] w2.
  - intros keys. apply reading_untouched. intros w1.
    unfold begin. cbv zeta.
    destruct (length keys =? 0); [apply untouched_refl|].
    rewrite place_gets_spec.
    match goal with |- context [fire_gets env ?n ?reqs ?st ?tx ?w0] =>
      pose proof (fire_gets_world env n keys (next_request w1) st _ w0 eq_refl) as Hw;
      change (mkTransaction (idb_objectStore w0) false) with tx in Hw;
      destruct (fire_gets env n reqs st tx w0) as [st' w3]
    end.
    cbn [snd] in *. subst w3. unfold untouched, records. simpl.
    split; [reflexivity|]. split; [reflexivity|].
    eexists. split; [rewrite <- app_assoc; reflexivity|]. apply gets_untouched.
Qed.
